(** * webgpu-black-hole: the raymarching shader and its uniform set

    A shallow embedding of the TSL shader of [blackhole-shader.js] and of
    [BlackHoleSimulation.initializeUniforms].

    Numbers.  The shader computes on 32-bit GPU floats.  Here a scalar is a
    real number: rounding, overflow and NaN are not modelled.  The TSL
    intrinsics are the functions WGSL documents for them, read over the
    reals; where WGSL leaves an intrinsic undefined (division and [mod]
    by zero, [pow] of a negative base, [sqrt] of a negative number, [asin]
    outside [-1,1], [normalize] of the zero vector, [smoothstep] between
    equal edges) the total definitions below take the value Rocq's reals
    give ([x / 0 = 0]), and the checked variants of section "Checked
    evaluation" return [None].  A value of a total definition is the
    value the shader computes where the checked variant is defined; at
    an argument where it is not, it says nothing about the GPU.

    The JavaScript around the shader.  [BlackHoleSimulation]'s uniform
    updates and quality presets (blackhole.js), the cinematic camera
    animation (camera-animation.js) and the saved configuration (main.js)
    are embedded as functions on explicit state: an object used as a
    dictionary is a finite map, a thrown TypeError or a value that is no
    finite number is [None], and JavaScript numbers are reals as well. *)

From Stdlib Require Import Reals Lra Lia ZArith List Bool HexadecimalString.
From stdpp Require Import base gmap strings.
Local Open Scope R_scope.

(* ################################################################## *)
(** * Part I: the program *)
(* ################################################################## *)

(* ================================================================== *)
(** * Vectors *)
(* ================================================================== *)

Record vec2 : Type := Vec2 { x2 : R; y2 : R }.
Record vec3 : Type := Vec3 { x3 : R; y3 : R; z3 : R }.

(** [vec4(rgb, a)]: every vec4 of the shader is built from a vec3 and a
    scalar and read back through [.xyz] and [.w]. *)
Record vec4 : Type := Vec4 { xyz : vec3; w : R }.

Definition add2 (a b : vec2) : vec2 := Vec2 (x2 a + x2 b) (y2 a + y2 b).
Definition sub2 (a b : vec2) : vec2 := Vec2 (x2 a - x2 b) (y2 a - y2 b).
Definition adds2 (a : vec2) (s : R) : vec2 := Vec2 (x2 a + s) (y2 a + s).
Definition subs2 (a : vec2) (s : R) : vec2 := Vec2 (x2 a - s) (y2 a - s).
Definition muls2 (a : vec2) (s : R) : vec2 := Vec2 (x2 a * s) (y2 a * s).

Definition add3 (a b : vec3) : vec3 :=
  Vec3 (x3 a + x3 b) (y3 a + y3 b) (z3 a + z3 b).
Definition sub3 (a b : vec3) : vec3 :=
  Vec3 (x3 a - x3 b) (y3 a - y3 b) (z3 a - z3 b).
Definition mul3 (a b : vec3) : vec3 :=
  Vec3 (x3 a * x3 b) (y3 a * y3 b) (z3 a * z3 b).
Definition muls3 (a : vec3) (s : R) : vec3 :=
  Vec3 (x3 a * s) (y3 a * s) (z3 a * s).
Definition divs3 (a : vec3) (s : R) : vec3 :=
  Vec3 (x3 a / s) (y3 a / s) (z3 a / s).
Definition negate3 (a : vec3) : vec3 := Vec3 (- x3 a) (- y3 a) (- z3 a).

Definition dot2 (a b : vec2) : R := x2 a * x2 b + y2 a * y2 b.
Definition dot3 (a b : vec3) : R := x3 a * x3 b + y3 a * y3 b + z3 a * z3 b.
Definition cross (a b : vec3) : vec3 :=
  Vec3 (y3 a * z3 b - z3 a * y3 b)
       (z3 a * x3 b - x3 a * z3 b)
       (x3 a * y3 b - y3 a * x3 b).
Definition length2 (a : vec2) : R := sqrt (x2 a * x2 a + y2 a * y2 a).
Definition length3 (a : vec3) : R :=
  sqrt (x3 a * x3 a + y3 a * y3 a + z3 a * z3 a).

(** [normalize] divides by the length: the zero vector has no direction
    (here every component is [0 / 0]). *)
Definition normalize (a : vec3) : vec3 := divs3 a (length3 a).

(* ================================================================== *)
(** * TSL intrinsics on scalars *)
(* ================================================================== *)

Definition lessThan (a b : R) : bool := if Rlt_dec a b then true else false.
Definition greaterThan (a b : R) : bool := if Rgt_dec a b then true else false.

Definition floor (x : R) : R := IZR (Zfloor x).
Definition fract (x : R) : R := x - floor x.

(** TSL [mod] is the GLSL one, [x - y * floor(x / y)]. *)
Definition mod_ (x y : R) : R := x - y * floor (x / y).

Definition clamp (x lo hi : R) : R := Rmin (Rmax x lo) hi.
Definition mix (a b t : R) : R := a * (1 - t) + b * t.

(** [smoothstep(e0, e1, x)] is the Hermite polynomial of
    [clamp((x - e0) / (e1 - e0), 0, 1)]; the shader also calls it with
    [e0 > e1] (a falling edge).  Equal edges divide by zero. *)
Definition smoothstep (e0 e1 x : R) : R :=
  let t := clamp ((x - e0) / (e1 - e0)) 0 1 in
  t * t * (3 - 2 * t).

(** [step(edge, x)] is 1 when [edge <= x] and 0 otherwise. *)
Definition step (edge x : R) : R := if Rle_dec edge x then 1 else 0.

Definition sign (x : R) : R :=
  if Rlt_dec 0 x then 1 else if Rlt_dec x 0 then -1 else 0.

(** [pow(x, y) = exp2(y * log2 x)].  For [x <= 0] WGSL gives 0 at
    [x = 0, y > 0] and no defined value elsewhere; the model takes 0. *)
Definition pow (x y : R) : R := if Rlt_dec 0 x then Rpower x y else 0.

(** Two-argument [atan(y, x)]. *)
Definition atan2 (y x : R) : R :=
  if Rlt_dec 0 x then atan (y / x)
  else if Rlt_dec x 0 then
         (if Rle_dec 0 y then atan (y / x) + PI else atan (y / x) - PI)
  else if Rlt_dec 0 y then PI / 2
  else if Rlt_dec y 0 then - (PI / 2)
  else 0.

Definition mix3 (a b : vec3) (t : R) : vec3 :=
  Vec3 (mix (x3 a) (x3 b) t) (mix (y3 a) (y3 b) t) (mix (z3 a) (z3 b) t).
Definition floor2 (p : vec2) : vec2 := Vec2 (floor (x2 p)) (floor (y2 p)).
Definition fract2 (p : vec2) : vec2 := Vec2 (fract (x2 p)) (fract (y2 p)).
Definition floor3 (p : vec3) : vec3 :=
  Vec3 (floor (x3 p)) (floor (y3 p)) (floor (z3 p)).
Definition fract3 (p : vec3) : vec3 :=
  Vec3 (fract (x3 p)) (fract (y3 p)) (fract (z3 p)).
Definition pow3 (a b : vec3) : vec3 :=
  Vec3 (pow (x3 a) (x3 b)) (pow (y3 a) (y3 b)) (pow (z3 a) (z3 b)).

(* ================================================================== *)
(** * Noise and hash primitives *)
(* ================================================================== *)

Definition hash21 (p : vec2) : R :=
  let n := sin (dot2 p (Vec2 127.1 311.7)) * 43758.5453 in
  fract n.

Definition hash31 (p : vec3) : R :=
  let n := sin (dot3 p (Vec3 127.1 311.7 74.7)) * 43758.5453 in
  fract n.

Definition hash22 (p : vec2) : vec2 :=
  let px := fract (sin (dot2 p (Vec2 127.1 311.7)) * 43758.5453) in
  let py := fract (sin (dot2 p (Vec2 269.5 183.3)) * 43758.5453) in
  Vec2 px py.

(** 3D value noise. *)
Definition noise3D (p : vec3) : R :=
  let i := floor3 p in
  let f := fract3 p in
  let u := mul3 (mul3 f f) (sub3 (Vec3 3 3 3) (muls3 f 2)) in
  let a := hash31 i in
  let b := hash31 (add3 i (Vec3 1 0 0)) in
  let c := hash31 (add3 i (Vec3 0 1 0)) in
  let d := hash31 (add3 i (Vec3 1 1 0)) in
  let e := hash31 (add3 i (Vec3 0 0 1)) in
  let f2 := hash31 (add3 i (Vec3 1 0 1)) in
  let g := hash31 (add3 i (Vec3 0 1 1)) in
  let h := hash31 (add3 i (Vec3 1 1 1)) in
  mix (mix (mix a b (x3 u)) (mix c d (x3 u)) (y3 u))
      (mix (mix e f2 (x3 u)) (mix g h (x3 u)) (y3 u))
      (z3 u).

(** Fractal Brownian motion, four octaves, written out as in the source:
    [value], [amplitude] and [pos] are the three mutable variables. *)
Definition fbm (p : vec3) (lacunarity persistence : R) : R :=
  let value := 0 in
  let amplitude := 0.5 in
  let pos := p in
  let value := value + noise3D pos * amplitude in
  let pos := muls3 pos lacunarity in
  let amplitude := amplitude * persistence in
  let value := value + noise3D pos * amplitude in
  let pos := muls3 pos lacunarity in
  let amplitude := amplitude * persistence in
  let value := value + noise3D pos * amplitude in
  let pos := muls3 pos lacunarity in
  let amplitude := amplitude * persistence in
  let value := value + noise3D pos * amplitude in
  value.

(** Temperature (1000K-10000K) to RGB. *)
Definition blackbodyColor (tempK : R) : vec3 :=
  let t := clamp ((tempK - 1000) / 9000) 0 1 in
  let red := clamp (1 - (t - 0.8) * 2) 0.5 1 in
  let green := smoothstep 0 0.5 t * (1 - Rmax ((t - 0.7) * 0.3) 0) in
  let blue := smoothstep 0.3 1 t * t in
  Vec3 red green blue.

(* ================================================================== *)
(** * The uniform set read by the shader *)
(* ================================================================== *)

(** One field per [uniforms.X] the shader reads; colours are RGB triples,
    the two enable flags are the floats 0.0 / 1.0 the simulation stores. *)
Record Uniforms : Type := {
  blackHoleMass : R;
  diskInnerRadius : R;
  diskOuterRadius : R;
  diskTemperature : R;
  temperatureFalloff : R;
  diskBrightness : R;
  diskRotationSpeed : R;
  dopplerStrength : R;
  turbulenceScale : R;
  turbulenceStretch : R;
  turbulenceSharpness : R;
  turbulenceCycleTime : R;
  turbulenceLacunarity : R;
  turbulencePersistence : R;
  diskEdgeSoftnessInner : R;
  diskEdgeSoftnessOuter : R;
  gravitationalLensing : R;
  stepSize : R;
  starsEnabled : R;
  starBackgroundColor : vec3;
  starDensity : R;
  starSize : R;
  starBrightness : R;
  nebulaEnabled : R;
  nebula1Scale : R;
  nebula1Density : R;
  nebula1Brightness : R;
  nebula1Color : vec3;
  nebula2Scale : R;
  nebula2Density : R;
  nebula2Brightness : R;
  nebula2Color : vec3;
  time : R;
  resolution : vec2;
  cameraPosition : vec3;
  cameraTarget : vec3
}.

(* ================================================================== *)
(** * Procedural background *)
(* ================================================================== *)

Definition createStarField (uniforms : Uniforms) (rayDir : vec3) : vec3 :=
  let theta := atan2 (z3 rayDir) (x3 rayDir) in
  let phi := asin (clamp (y3 rayDir) (-1) 1) in
  let gridScale := 60 / starSize uniforms in
  let scaledCoord := muls2 (Vec2 theta phi) gridScale in
  let cell := floor2 scaledCoord in
  let cellUV := fract2 scaledCoord in
  let cellHash := hash21 cell in
  let starProb := step (1 - starDensity uniforms) cellHash in
  let starPos := adds2 (muls2 (hash22 (adds2 cell 42)) 0.8) 0.1 in
  let distToStar := length2 (sub2 cellUV starPos) in
  let baseSizeVar := hash21 (adds2 cell 100) * 0.03 + 0.01 in
  let finalStarSize := baseSizeVar * starSize uniforms in
  let starCore := smoothstep finalStarSize 0 distToStar in
  let starGlow := smoothstep (finalStarSize * 3) 0 distToStar * 0.3 in
  let starIntensity := (starCore + starGlow) * starProb in
  let colorTemp := hash21 (adds2 cell 200) in
  let starColor := mix3 (Vec3 0.8 0.9 1) (Vec3 1 0.95 0.8) colorTemp in
  muls3 (muls3 starColor starIntensity) (starBrightness uniforms).

Definition createNebulaField (uniforms : Uniforms) (rayDir : vec3) : vec3 :=
  let noisePos1 := muls3 rayDir (nebula1Scale uniforms) in
  let n1 := fbm noisePos1 2 0.5 * 2 - 1 in
  let layer1 := clamp (n1 + nebula1Density uniforms) 0 1 in
  let color1 :=
    muls3 (muls3 (nebula1Color uniforms) layer1) (nebula1Brightness uniforms) in
  let noisePos2 := muls3 rayDir (nebula2Scale uniforms) in
  let n2 := fbm noisePos2 2 0.5 * 2 - 1 in
  let layer2 := clamp (n2 + nebula2Density uniforms) 0 1 in
  let color2 :=
    muls3 (muls3 (nebula2Color uniforms) layer2) (nebula2Brightness uniforms) in
  add3 color1 color2.

(* ================================================================== *)
(** * Accretion disk shading *)
(* ================================================================== *)

(** Temperature profile of the disk (the [tempK] of the source). *)
Definition tempK (uniforms : Uniforms) (hitR : R) : R :=
  let innerR := diskInnerRadius uniforms in
  let peakTempK := diskTemperature uniforms * 1000 in
  let outerTempK := 1500 in
  let tempFalloff := pow (innerR / hitR) (temperatureFalloff uniforms) in
  mix outerTempK peakTempK tempFalloff.

(** Doppler beaming factor (the clamped [dopplerBoost] of the source). *)
Definition dopplerBoost (uniforms : Uniforms) (hitR hitAngle : R)
    (rayDir : vec3) : R :=
  let innerR := diskInnerRadius uniforms in
  let rotationSign := sign (diskRotationSpeed uniforms) in
  let velocityDir :=
    Vec3 (- sin hitAngle * rotationSign) 0 (cos hitAngle * rotationSign) in
  let velocityMagnitude := 1 / sqrt (hitR / innerR) in
  let beta := velocityMagnitude * 0.3 in
  let cosTheta := dot3 velocityDir rayDir in
  let dopplerFactor := 1 / (1 - beta * cosTheta) in
  let dopplerBoost := pow dopplerFactor (3 * dopplerStrength uniforms) in
  clamp dopplerBoost 0.1 5.

(** Edge falloff of the opacity. *)
Definition edgeFalloff (uniforms : Uniforms) (hitR : R) : R :=
  let innerR := diskInnerRadius uniforms in
  let outerR := diskOuterRadius uniforms in
  let normR := clamp ((hitR - innerR) / (outerR - innerR)) 0 1 in
  smoothstep 0 (diskEdgeSoftnessInner uniforms) normR
  * smoothstep 1 (1 - diskEdgeSoftnessOuter uniforms) normR.

(** Noise coordinate of one turbulence sample, for the time basis
    [phaseTime] ([cyclicTime] for sample 1, [cyclicTime + cycleLength] for
    sample 2). *)
Definition noiseCoord (uniforms : Uniforms) (hitR hitAngle phaseTime : R)
    : vec3 :=
  let keplerianPhase :=
    phaseTime * diskRotationSpeed uniforms / pow hitR 1.5 in
  let rotatedAngle := hitAngle + keplerianPhase in
  Vec3 (hitR * turbulenceScale uniforms)
       (cos rotatedAngle / Rmax (turbulenceStretch uniforms) 0.1)
       (sin rotatedAngle / Rmax (turbulenceStretch uniforms) 0.1).

(** The blended turbulence value (the [turbulence] of the source). *)
Definition turbulence (uniforms : Uniforms) (hitR hitAngle time : R) : R :=
  let cycleLength := turbulenceCycleTime uniforms in
  let cyclicTime := mod_ time cycleLength in
  let blendFactor := cyclicTime / cycleLength in
  let noiseCoord1 := noiseCoord uniforms hitR hitAngle cyclicTime in
  let noiseCoord2 :=
    noiseCoord uniforms hitR hitAngle (cyclicTime + cycleLength) in
  let turbulence1 :=
    fbm noiseCoord1 (turbulenceLacunarity uniforms)
        (turbulencePersistence uniforms) in
  let turbulence2 :=
    fbm noiseCoord2 (turbulenceLacunarity uniforms)
        (turbulencePersistence uniforms) in
  mix turbulence2 turbulence1 blendFactor.

(** [createAccretionDiskColor] of the Doppler version of the shader. *)
Definition createAccretionDiskColor (uniforms : Uniforms)
    (hitR hitAngle time : R) (rayDir : vec3) : vec4 :=
  let diskColor := blackbodyColor (tempK uniforms hitR) in
  let diskColor :=
    muls3 diskColor (dopplerBoost uniforms hitR hitAngle rayDir) in
  let ringOpacity :=
    pow (clamp (turbulence uniforms hitR hitAngle time) 0 1)
        (turbulenceSharpness uniforms) in
  let finalOpacity := ringOpacity * edgeFalloff uniforms hitR in
  let finalColor := muls3 diskColor (diskBrightness uniforms) in
  Vec4 finalColor finalOpacity.

(* ================================================================== *)
(** * Ray state and the bounded loop *)
(* ================================================================== *)

(** The mutable variables of one shader invocation ([toVar] in the
    source).  [escaped] and [captured] are floats, 0.0 or 1.0. *)
Record RayState : Type := {
  rayDir : vec3;
  rayPos : vec3;
  prevPos : vec3;
  color : vec3;
  alpha : R;
  escaped : R;
  captured : R
}.

Definition set_captured (st : RayState) (v : R) : RayState :=
  {| rayDir := rayDir st; rayPos := rayPos st; prevPos := prevPos st;
     color := color st; alpha := alpha st; escaped := escaped st;
     captured := v |}.

Definition set_escaped (st : RayState) (v : R) : RayState :=
  {| rayDir := rayDir st; rayPos := rayPos st; prevPos := prevPos st;
     color := color st; alpha := alpha st; escaped := v;
     captured := captured st |}.

Definition set_color (st : RayState) (c : vec3) : RayState :=
  {| rayDir := rayDir st; rayPos := rayPos st; prevPos := prevPos st;
     color := c; alpha := alpha st; escaped := escaped st;
     captured := captured st |}.

(** Outcome of one execution of a loop body: [Break()] was called, or the
    body ran to its end. *)
Inductive LoopCtl (S : Type) : Type :=
  | Break (s : S)
  | Continue (s : S).
Arguments Break {S} s.
Arguments Continue {S} s.

(** TSL [Loop(count, body)]: a counted loop that [Break()] leaves early.
    The result carries the number of times the body was entered. *)
Fixpoint Loop {S : Type} (count : nat) (body : S -> LoopCtl S) (s : S)
    : S * nat :=
  match count with
  | O => (s, O)
  | Datatypes.S n =>
      match body s with
      | Break s' => (s', 1%nat)
      | Continue s' =>
          let (sf, k) := Loop n body s' in (sf, Datatypes.S k)
      end
  end.

(* ================================================================== *)
(** * The main raymarching shader (Doppler version) *)
(* ================================================================== *)

(** Camera setup and initial ray state. *)
Definition initRay (uniforms : Uniforms) (screenUV : vec2) : RayState :=
  let uv := muls2 (subs2 screenUV 0.5) 2 in
  let aspect := x2 (resolution uniforms) / y2 (resolution uniforms) in
  let screenPos := Vec2 (x2 uv * aspect) (y2 uv) in
  let camPos := cameraPosition uniforms in
  let camTarget := cameraTarget uniforms in
  let camForward := normalize (sub3 camTarget camPos) in
  let worldUp := Vec3 0 1 0 in
  let camRight := normalize (cross worldUp camForward) in
  let camUp := cross camForward camRight in
  let fov := 1 in
  let rayDir :=
    normalize
      (add3 (add3 (muls3 camForward fov) (muls3 camRight (x2 screenPos)))
            (muls3 camUp (y2 screenPos))) in
  {| rayDir := rayDir; rayPos := camPos; prevPos := camPos;
     color := Vec3 0 0 0; alpha := 0; escaped := 0; captured := 0 |}.

(** Hit radius of a plane crossing between [prev] and [cur]: the point
    interpolated at [t = -prev.y / (cur.y - prev.y)], and its planar
    distance from the origin. *)
Definition hitPosOf (prev cur : vec3) : vec3 :=
  let t := - y3 prev / (y3 cur - y3 prev) in
  mix3 prev cur t.

Definition hitROf (prev cur : vec3) : R :=
  let hitPos := hitPosOf prev cur in
  sqrt (x3 hitPos * x3 hitPos + z3 hitPos * z3 hitPos).

Definition inDisk (uniforms : Uniforms) (hitR : R) : bool :=
  greaterThan hitR (diskInnerRadius uniforms)
  && lessThan hitR (diskOuterRadius uniforms).

(** Front-to-back alpha compositing of one disk sample. *)
Definition composite (st : RayState) (diskResult : vec4) : RayState :=
  let remainingAlpha := 1 - alpha st in
  {| rayDir := rayDir st; rayPos := rayPos st; prevPos := prevPos st;
     color :=
       add3 (color st)
            (muls3 (muls3 (xyz diskResult) (w diskResult)) remainingAlpha);
     alpha := alpha st + remainingAlpha * w diskResult;
     escaped := escaped st; captured := captured st |}.

(** Disk plane intersection (Y = 0), run on the state after the step;
    [shade] is the disk shading function. *)
Definition diskPlaneIntersection (uniforms : Uniforms)
    (shade : R -> R -> R -> vec3 -> vec4) (st : RayState) : RayState :=
  let crossedPlane := lessThan (y3 (prevPos st) * y3 (rayPos st)) 0 in
  if crossedPlane && lessThan (alpha st) 0.99 then
    let hitPos := hitPosOf (prevPos st) (rayPos st) in
    let hitR := hitROf (prevPos st) (rayPos st) in
    if inDisk uniforms hitR then
      let hitAngle := atan2 (z3 hitPos) (x3 hitPos) in
      let diskResult := shade hitR hitAngle (time uniforms) (rayDir st) in
      composite st diskResult
    else st
  else st.

(** Gravitational bending and the step forward, with marching step
    [stepLen]. *)
Definition bendAndStep (uniforms : Uniforms) (r stepLen : R) (st : RayState)
    : RayState :=
  let rs := blackHoleMass uniforms * 2 in
  let toCenter := divs3 (negate3 (rayPos st)) r in
  let bendStrength :=
    rs / (r * r) * stepLen * gravitationalLensing uniforms in
  let rayDir1 := add3 (rayDir st) (muls3 toCenter bendStrength) in
  let rayDir2 := normalize rayDir1 in
  {| rayDir := rayDir2;
     rayPos := add3 (rayPos st) (muls3 rayDir2 stepLen);
     prevPos := rayPos st;
     color := color st; alpha := alpha st;
     escaped := escaped st; captured := captured st |}.

(** One execution of the body of [Loop(64, ...)]. *)
Definition loopBody (uniforms : Uniforms) (st : RayState)
    : LoopCtl RayState :=
  let rs := blackHoleMass uniforms * 2 in
  if greaterThan (escaped st) 0.5 || greaterThan (captured st) 0.5
     || greaterThan (alpha st) 0.99
  then Break st
  else
    let r := length3 (rayPos st) in
    if lessThan r (rs * 1.01) then Break (set_captured st 1)
    else if greaterThan r 100 then Break (set_escaped st 1)
    else
      Continue
        (diskPlaneIntersection uniforms (createAccretionDiskColor uniforms)
           (bendAndStep uniforms r (stepSize uniforms) st)).

Definition march (uniforms : Uniforms) (st : RayState) : RayState * nat :=
  Loop 64 (loopBody uniforms) st.

(** After the loop: a ray that was not captured has escaped. *)
Definition afterLoop (st : RayState) : RayState :=
  if lessThan (captured st) 0.5 then set_escaped st 1 else st.

(** The condition under which the background field is evaluated. *)
Definition backgroundGate (st : RayState) : bool :=
  greaterThan (escaped st) 0.5 && lessThan (alpha st) 0.99.

Definition bgColor (uniforms : Uniforms) (rayDir : vec3) : vec3 :=
  let bgColor := starBackgroundColor uniforms in
  let bgColor :=
    if greaterThan (starsEnabled uniforms) 0.5
    then add3 bgColor (createStarField uniforms rayDir) else bgColor in
  let bgColor :=
    if greaterThan (nebulaEnabled uniforms) 0.5
    then add3 bgColor (createNebulaField uniforms rayDir) else bgColor in
  bgColor.

(** Background for escaped rays. *)
Definition addBackground (uniforms : Uniforms) (st : RayState) : RayState :=
  if backgroundGate st then
    set_color st
      (add3 (color st)
            (muls3 (bgColor uniforms (rayDir st)) (1 - alpha st)))
  else st.

(** Gamma correction and the returned colour. *)
Definition gamma (st : RayState) : vec4 :=
  let finalColor := pow3 (color st) (Vec3 (1 / 2.2) (1 / 2.2) (1 / 2.2)) in
  Vec4 finalColor 1.

Definition createBlackHoleShader (uniforms : Uniforms) (screenUV : vec2)
    : vec4 :=
  let st0 := initRay uniforms screenUV in
  let st := fst (march uniforms st0) in
  gamma (addBackground uniforms (afterLoop st)).

(* ================================================================== *)
(** * The adaptive-step version of the shader *)
(* ================================================================== *)

Module Adaptive.

(** [createAccretionDiskColor] without Doppler beaming: three arguments,
    the ray direction is not used. *)
Definition createAccretionDiskColor (uniforms : Uniforms)
    (hitR hitAngle time : R) : vec4 :=
  let diskColor := blackbodyColor (tempK uniforms hitR) in
  let ringOpacity :=
    pow (clamp (turbulence uniforms hitR hitAngle time) 0 1)
        (turbulenceSharpness uniforms) in
  let finalOpacity := ringOpacity * edgeFalloff uniforms hitR in
  let finalColor := muls3 diskColor (diskBrightness uniforms) in
  Vec4 finalColor finalOpacity.

(** Horizon-proximity factor of the adaptive step. *)
Definition horizonFactor (uniforms : Uniforms) (r : R) : R :=
  let rs := blackHoleMass uniforms * 2 in
  let distFromHorizon := r - rs in
  smoothstep 0 (rs * 5) distFromHorizon * 0.8 + 0.2.

Definition adaptiveStep (uniforms : Uniforms) (r : R) : R :=
  stepSize uniforms * horizonFactor uniforms r.

Definition loopBody (uniforms : Uniforms) (st : RayState)
    : LoopCtl RayState :=
  let rs := blackHoleMass uniforms * 2 in
  if greaterThan (escaped st) 0.5 || greaterThan (captured st) 0.5
     || greaterThan (alpha st) 0.99
  then Break st
  else
    let r := length3 (rayPos st) in
    if lessThan r (rs * 1.01) then Break (set_captured st 1)
    else if greaterThan r 100 then Break (set_escaped st 1)
    else
      Continue
        (diskPlaneIntersection uniforms
           (fun hitR hitAngle time _ =>
              createAccretionDiskColor uniforms hitR hitAngle time)
           (bendAndStep uniforms r (adaptiveStep uniforms r) st)).

Definition march (uniforms : Uniforms) (st : RayState) : RayState * nat :=
  Loop 64 (loopBody uniforms) st.

Definition createBlackHoleShader (uniforms : Uniforms) (screenUV : vec2)
    : vec4 :=
  let st0 := initRay uniforms screenUV in
  let st := fst (march uniforms st0) in
  gamma (addBackground uniforms (afterLoop st)).

End Adaptive.

(* ================================================================== *)
(** * The uniform object built by the simulation *)
(* ================================================================== *)

(** Values held by the [config] object and by the uniform nodes. *)
Inductive JsValue : Type :=
  | JsNum (r : R)
  | JsBool (b : bool)
  | JsStr (s : string)
  | JsColor (hex : JsValue)
  | JsVector2 (v : vec2)
  | JsVector3 (v : vec3).

(** A JavaScript object used as a dictionary. *)
Abbreviation JsObject := (gmap string JsValue).

(** [o.k ?? d]: the field when it is present, the default otherwise. *)
Definition nullish (o : JsObject) (k : string) (d : JsValue) : JsValue :=
  match o !! k with
  | Some v => v
  | None => d
  end.

(** [o.k ? 1.0 : 0.0]: truthiness of a field; an absent field is falsy. *)
Definition truthy (o : JsObject) (k : string) : JsValue :=
  match o !! k with
  | Some (JsBool true) => JsNum 1
  | Some (JsBool false) => JsNum 0
  | Some (JsNum r) => if Req_dec_T r 0 then JsNum 0 else JsNum 1
  | Some (JsStr s) => if String.eqb s "" then JsNum 0 else JsNum 1
  | Some _ => JsNum 1
  | None => JsNum 0
  end.

(** [BlackHoleSimulation.initializeUniforms(config)]: the object literal
    assigned to [this.uniforms]; [innerWidth] and [innerHeight] are the
    two fields of [window] it reads. *)
Definition initializeUniforms (config : JsObject) (innerWidth innerHeight : R)
    : JsObject :=
  list_to_map [
    ("blackHoleMass", nullish config "blackHoleMass" (JsNum 1));
    ("diskInnerRadius", nullish config "diskInnerRadius" (JsNum 3));
    ("diskOuterRadius", nullish config "diskOuterRadius" (JsNum 12));
    ("diskTemperature", nullish config "diskTemperature" (JsNum 10));
    ("temperatureFalloff", nullish config "temperatureFalloff" (JsNum 0.75));
    ("diskBrightness", nullish config "diskBrightness" (JsNum 2));
    ("diskRotationSpeed", nullish config "diskRotationSpeed" (JsNum 0.3));
    ("turbulenceScale", nullish config "turbulenceScale" (JsNum 1));
    ("turbulenceStretch", nullish config "turbulenceStretch" (JsNum 5));
    ("turbulenceBrightness",
       nullish config "turbulenceBrightness" (JsNum 0.3));
    ("turbulenceSharpness", nullish config "turbulenceSharpness" (JsNum 1));
    ("turbulenceCycleTime", nullish config "turbulenceCycleTime" (JsNum 10));
    ("diskEdgeSoftnessInner",
       nullish config "diskEdgeSoftnessInner" (JsNum 0.15));
    ("diskEdgeSoftnessOuter",
       nullish config "diskEdgeSoftnessOuter" (JsNum 0.15));
    ("gravitationalLensing",
       nullish config "gravitationalLensing" (JsNum 1.5));
    ("diskDensity", nullish config "diskDensity" (JsNum 0.25));
    ("stepSize", nullish config "stepSize" (JsNum 0.3));
    ("starsEnabled", truthy config "starsEnabled");
    ("starBackgroundColor",
       JsColor (nullish config "starBackgroundColor" (JsStr "#000000")));
    ("starDensity", nullish config "starDensity" (JsNum 0.003));
    ("starSize", nullish config "starSize" (JsNum 2));
    ("starBrightness", nullish config "starBrightness" (JsNum 1));
    ("nebulaEnabled", truthy config "nebulaEnabled");
    ("nebula1Scale", nullish config "nebula1Scale" (JsNum 2));
    ("nebula1Density", nullish config "nebula1Density" (JsNum 0.5));
    ("nebula1Brightness", nullish config "nebula1Brightness" (JsNum 0.15));
    ("nebula1Color",
       JsColor (nullish config "nebula1Color" (JsStr "#1a0033")));
    ("nebula2Scale", nullish config "nebula2Scale" (JsNum 6));
    ("nebula2Density", nullish config "nebula2Density" (JsNum 0.5));
    ("nebula2Brightness", nullish config "nebula2Brightness" (JsNum 0.15));
    ("nebula2Color",
       JsColor (nullish config "nebula2Color" (JsStr "#4d1a26")));
    ("time", JsNum 0);
    ("resolution", JsVector2 (Vec2 innerWidth innerHeight));
    ("cameraPosition", JsVector3 (Vec3 0 5 20));
    ("cameraTarget", JsVector3 (Vec3 0 0 0))
  ].

(** The fields [uniforms.X] read by the Doppler version of the shader, in
    the order of their first occurrence in the source. *)
Definition shaderReads : list string := [
  "starSize"; "starDensity"; "starBrightness";
  "nebula1Scale"; "nebula1Density"; "nebula1Color"; "nebula1Brightness";
  "nebula2Scale"; "nebula2Density"; "nebula2Color"; "nebula2Brightness";
  "diskInnerRadius"; "diskOuterRadius"; "diskTemperature";
  "temperatureFalloff"; "diskRotationSpeed"; "dopplerStrength";
  "diskEdgeSoftnessInner"; "diskEdgeSoftnessOuter"; "turbulenceCycleTime";
  "turbulenceScale"; "turbulenceStretch"; "turbulenceLacunarity";
  "turbulencePersistence"; "turbulenceSharpness"; "diskBrightness";
  "blackHoleMass"; "resolution"; "cameraPosition"; "cameraTarget";
  "stepSize"; "gravitationalLensing"; "time"; "starBackgroundColor";
  "starsEnabled"; "nebulaEnabled"
].

(** The fields read by [createAccretionDiskColor] alone. *)
Definition diskShadingReads : list string := [
  "diskInnerRadius"; "diskOuterRadius"; "diskTemperature";
  "temperatureFalloff"; "diskRotationSpeed"; "dopplerStrength";
  "diskEdgeSoftnessInner"; "diskEdgeSoftnessOuter"; "turbulenceCycleTime";
  "turbulenceScale"; "turbulenceStretch"; "turbulenceLacunarity";
  "turbulencePersistence"; "turbulenceSharpness"; "diskBrightness"
].

(** The reads that find no field in the object: each evaluates to
    [undefined]. *)
Definition absentReads (uniforms : JsObject) (reads : list string)
    : list string :=
  List.filter
    (fun k => match uniforms !! k with Some _ => false | None => true end)
    reads.

(* ================================================================== *)
(** * Checked evaluation *)
(* ================================================================== *)

(** The operations that have no finite value for some arguments, with
    [None] there: division and [mod] by zero, [asin] outside [-1, 1],
    [sqrt] of a negative number, [pow] of a negative base (and of base 0
    with an exponent that is not positive), [normalize] of the zero
    vector, [smoothstep] with equal edges.  Where they are defined they
    return the value of the total operation.  Every other intrinsic the
    shader uses ([sin], [cos], [floor], [fract], [clamp], [mix], [step],
    [sign], [max], [dot], [cross], [length], two-argument [atan]) has a
    finite value for all finite arguments. *)
Definition divChk (a b : R) : option R :=
  if Req_dec_T b 0 then None else Some (a / b).

Definition divs3Chk (a : vec3) (s : R) : option vec3 :=
  if Req_dec_T s 0 then None else Some (divs3 a s).

Definition modChk (x y : R) : option R :=
  if Req_dec_T y 0 then None else Some (mod_ x y).

Definition asinChk (x : R) : option R :=
  if Rle_dec (-1) x then (if Rle_dec x 1 then Some (asin x) else None)
  else None.

Definition sqrtChk (x : R) : option R :=
  if Rle_dec 0 x then Some (sqrt x) else None.

Definition powChk (x y : R) : option R :=
  if Rlt_dec 0 x then Some (pow x y)
  else if Req_dec_T x 0 then (if Rlt_dec 0 y then Some (pow x y) else None)
  else None.

Definition pow3Chk (a b : vec3) : option vec3 :=
  x ← powChk (x3 a) (x3 b);
  y ← powChk (y3 a) (y3 b);
  z ← powChk (z3 a) (z3 b);
  Some (Vec3 x y z).

Definition normalizeChk (a : vec3) : option vec3 :=
  divs3Chk a (length3 a).

Definition smoothstepChk (e0 e1 x : R) : option R :=
  q ← divChk (x - e0) (e1 - e0);
  let t := clamp q 0 1 in
  Some (t * t * (3 - 2 * t)).

(** The Doppler version of the shader with the checked operation at
    every place where one of these operations is applied to a value that
    is not a constant ([blackbodyColor] and [createNebulaField] divide by
    constants and take [smoothstep] between constant edges only).  The
    intermediate values carry the names of the source. *)
Module Checked.

Definition createStarField (uniforms : Uniforms) (rayDir : vec3)
    : option vec3 :=
  let theta := atan2 (z3 rayDir) (x3 rayDir) in
  phi ← asinChk (clamp (y3 rayDir) (-1) 1);
  gridScale ← divChk 60 (starSize uniforms);
  let scaledCoord := muls2 (Vec2 theta phi) gridScale in
  let cell := floor2 scaledCoord in
  let cellUV := fract2 scaledCoord in
  let cellHash := hash21 cell in
  let starProb := step (1 - starDensity uniforms) cellHash in
  let starPos := adds2 (muls2 (hash22 (adds2 cell 42)) 0.8) 0.1 in
  let distToStar := length2 (sub2 cellUV starPos) in
  let baseSizeVar := hash21 (adds2 cell 100) * 0.03 + 0.01 in
  let finalStarSize := baseSizeVar * starSize uniforms in
  starCore ← smoothstepChk finalStarSize 0 distToStar;
  glow ← smoothstepChk (finalStarSize * 3) 0 distToStar;
  let starGlow := glow * 0.3 in
  let starIntensity := (starCore + starGlow) * starProb in
  let colorTemp := hash21 (adds2 cell 200) in
  let starColor := mix3 (Vec3 0.8 0.9 1) (Vec3 1 0.95 0.8) colorTemp in
  Some (muls3 (muls3 starColor starIntensity) (starBrightness uniforms)).

Definition tempK (uniforms : Uniforms) (hitR : R) : option R :=
  let innerR := diskInnerRadius uniforms in
  let peakTempK := diskTemperature uniforms * 1000 in
  let outerTempK := 1500 in
  q ← divChk innerR hitR;
  tempFalloff ← powChk q (temperatureFalloff uniforms);
  Some (mix outerTempK peakTempK tempFalloff).

Definition dopplerBoost (uniforms : Uniforms) (hitR hitAngle : R)
    (rayDir : vec3) : option R :=
  let innerR := diskInnerRadius uniforms in
  let rotationSign := sign (diskRotationSpeed uniforms) in
  let velocityDir :=
    Vec3 (- sin hitAngle * rotationSign) 0 (cos hitAngle * rotationSign) in
  q ← divChk hitR innerR;
  s ← sqrtChk q;
  velocityMagnitude ← divChk 1 s;
  let beta := velocityMagnitude * 0.3 in
  let cosTheta := dot3 velocityDir rayDir in
  dopplerFactor ← divChk 1 (1 - beta * cosTheta);
  dopplerBoost ← powChk dopplerFactor (3 * dopplerStrength uniforms);
  Some (clamp dopplerBoost 0.1 5).

Definition edgeFalloff (uniforms : Uniforms) (hitR : R) : option R :=
  let innerR := diskInnerRadius uniforms in
  let outerR := diskOuterRadius uniforms in
  q ← divChk (hitR - innerR) (outerR - innerR);
  let normR := clamp q 0 1 in
  inner ← smoothstepChk 0 (diskEdgeSoftnessInner uniforms) normR;
  outer ← smoothstepChk 1 (1 - diskEdgeSoftnessOuter uniforms) normR;
  Some (inner * outer).

Definition noiseCoord (uniforms : Uniforms) (hitR hitAngle phaseTime : R)
    : option vec3 :=
  p ← powChk hitR 1.5;
  keplerianPhase ← divChk (phaseTime * diskRotationSpeed uniforms) p;
  let rotatedAngle := hitAngle + keplerianPhase in
  cy ← divChk (cos rotatedAngle) (Rmax (turbulenceStretch uniforms) 0.1);
  cz ← divChk (sin rotatedAngle) (Rmax (turbulenceStretch uniforms) 0.1);
  Some (Vec3 (hitR * turbulenceScale uniforms) cy cz).

Definition turbulence (uniforms : Uniforms) (hitR hitAngle time : R)
    : option R :=
  let cycleLength := turbulenceCycleTime uniforms in
  cyclicTime ← modChk time cycleLength;
  blendFactor ← divChk cyclicTime cycleLength;
  noiseCoord1 ← noiseCoord uniforms hitR hitAngle cyclicTime;
  noiseCoord2 ← noiseCoord uniforms hitR hitAngle (cyclicTime + cycleLength);
  let turbulence1 :=
    fbm noiseCoord1 (turbulenceLacunarity uniforms)
        (turbulencePersistence uniforms) in
  let turbulence2 :=
    fbm noiseCoord2 (turbulenceLacunarity uniforms)
        (turbulencePersistence uniforms) in
  Some (mix turbulence2 turbulence1 blendFactor).

Definition ringOpacity (uniforms : Uniforms) (hitR hitAngle time : R)
    : option R :=
  turbulence ← turbulence uniforms hitR hitAngle time;
  powChk (clamp turbulence 0 1) (turbulenceSharpness uniforms).

Definition finalOpacity (uniforms : Uniforms) (hitR hitAngle time : R)
    : option R :=
  edgeFalloff ← edgeFalloff uniforms hitR;
  ringOpacity ← ringOpacity uniforms hitR hitAngle time;
  Some (ringOpacity * edgeFalloff).

Definition createAccretionDiskColor (uniforms : Uniforms)
    (hitR hitAngle time : R) (rayDir : vec3) : option vec4 :=
  tempK ← tempK uniforms hitR;
  let diskColor := blackbodyColor tempK in
  boost ← dopplerBoost uniforms hitR hitAngle rayDir;
  let diskColor := muls3 diskColor boost in
  finalOpacity ← finalOpacity uniforms hitR hitAngle time;
  let finalColor := muls3 diskColor (diskBrightness uniforms) in
  Some (Vec4 finalColor finalOpacity).

Definition initRay (uniforms : Uniforms) (screenUV : vec2)
    : option RayState :=
  let uv := muls2 (subs2 screenUV 0.5) 2 in
  aspect ← divChk (x2 (resolution uniforms)) (y2 (resolution uniforms));
  let screenPos := Vec2 (x2 uv * aspect) (y2 uv) in
  let camPos := cameraPosition uniforms in
  let camTarget := cameraTarget uniforms in
  camForward ← normalizeChk (sub3 camTarget camPos);
  let worldUp := Vec3 0 1 0 in
  camRight ← normalizeChk (cross worldUp camForward);
  let camUp := cross camForward camRight in
  let fov := 1 in
  rayDir ←
    normalizeChk
      (add3 (add3 (muls3 camForward fov) (muls3 camRight (x2 screenPos)))
            (muls3 camUp (y2 screenPos)));
  Some {| rayDir := rayDir; rayPos := camPos; prevPos := camPos;
          color := Vec3 0 0 0; alpha := 0; escaped := 0; captured := 0 |}.

Definition diskPlaneIntersection (uniforms : Uniforms) (st : RayState)
    : option RayState :=
  let crossedPlane := lessThan (y3 (prevPos st) * y3 (rayPos st)) 0 in
  if crossedPlane && lessThan (alpha st) 0.99 then
    t ← divChk (- y3 (prevPos st)) (y3 (rayPos st) - y3 (prevPos st));
    let hitPos := mix3 (prevPos st) (rayPos st) t in
    let hitR := sqrt (x3 hitPos * x3 hitPos + z3 hitPos * z3 hitPos) in
    if inDisk uniforms hitR then
      let hitAngle := atan2 (z3 hitPos) (x3 hitPos) in
      diskResult ←
        createAccretionDiskColor uniforms hitR hitAngle (time uniforms)
          (rayDir st);
      Some (composite st diskResult)
    else Some st
  else Some st.

Definition bendAndStep (uniforms : Uniforms) (r stepLen : R) (st : RayState)
    : option RayState :=
  let rs := blackHoleMass uniforms * 2 in
  toCenter ← divs3Chk (negate3 (rayPos st)) r;
  q ← divChk rs (r * r);
  let bendStrength := q * stepLen * gravitationalLensing uniforms in
  let rayDir1 := add3 (rayDir st) (muls3 toCenter bendStrength) in
  rayDir2 ← normalizeChk rayDir1;
  Some {| rayDir := rayDir2;
          rayPos := add3 (rayPos st) (muls3 rayDir2 stepLen);
          prevPos := rayPos st;
          color := color st; alpha := alpha st;
          escaped := escaped st; captured := captured st |}.

Definition loopBody (uniforms : Uniforms) (st : RayState)
    : option (LoopCtl RayState) :=
  let rs := blackHoleMass uniforms * 2 in
  if greaterThan (escaped st) 0.5 || greaterThan (captured st) 0.5
     || greaterThan (alpha st) 0.99
  then Some (Break st)
  else
    let r := length3 (rayPos st) in
    if lessThan r (rs * 1.01) then Some (Break (set_captured st 1))
    else if greaterThan r 100 then Some (Break (set_escaped st 1))
    else
      st1 ← bendAndStep uniforms r (stepSize uniforms) st;
      st2 ← diskPlaneIntersection uniforms st1;
      Some (Continue st2).

(** [Loop] over a body that can fail. *)
Fixpoint Loop {S : Type} (count : nat) (body : S -> option (LoopCtl S))
    (s : S) : option (S * nat) :=
  match count with
  | O => Some (s, O)
  | Datatypes.S n =>
      ctl ← body s;
      match ctl with
      | Break s' => Some (s', 1%nat)
      | Continue s' =>
          res ← Loop n body s';
          Some (fst res, Datatypes.S (snd res))
      end
  end.

Definition bgColor (uniforms : Uniforms) (rayDir : vec3) : option vec3 :=
  let bgColor := starBackgroundColor uniforms in
  bgColor ←
    (if greaterThan (starsEnabled uniforms) 0.5
     then stars ← createStarField uniforms rayDir; Some (add3 bgColor stars)
     else Some bgColor);
  let bgColor :=
    if greaterThan (nebulaEnabled uniforms) 0.5
    then add3 bgColor (createNebulaField uniforms rayDir) else bgColor in
  Some bgColor.

Definition addBackground (uniforms : Uniforms) (st : RayState)
    : option RayState :=
  if backgroundGate st then
    bg ← bgColor uniforms (rayDir st);
    Some (set_color st (add3 (color st) (muls3 bg (1 - alpha st))))
  else Some st.

Definition gamma (st : RayState) : option vec4 :=
  finalColor ← pow3Chk (color st) (Vec3 (1 / 2.2) (1 / 2.2) (1 / 2.2));
  Some (Vec4 finalColor 1).

Definition createBlackHoleShader (uniforms : Uniforms) (screenUV : vec2)
    : option vec4 :=
  st0 ← initRay uniforms screenUV;
  res ← Loop 64 (loopBody uniforms) st0;
  st ← addBackground uniforms (afterLoop (fst res));
  gamma st.

End Checked.

(* ================================================================== *)
(** * The beaming factor in the words of the specification *)
(* ================================================================== *)

(** The tangential orbital direction at the hit angle, oriented by the
    sign of the rotation speed; beta = 0.3 * (1 / sqrt (hitR /
    innerRadius)); the boost (1 / (1 - beta cos theta)) ^ (3
    dopplerStrength), clamped to [0.1, 5]. *)
Definition orbitalVelocityDir (uniforms : Uniforms) (hitAngle : R) : vec3 :=
  muls3 (Vec3 (- sin hitAngle) 0 (cos hitAngle))
        (sign (diskRotationSpeed uniforms)).

Definition dopplerSpec (uniforms : Uniforms) (hitR hitAngle : R)
    (rayDir : vec3) : R :=
  let beta := 0.3 * (1 / sqrt (hitR / diskInnerRadius uniforms)) in
  let cosTheta := dot3 (orbitalVelocityDir uniforms hitAngle) rayDir in
  clamp (pow (1 / (1 - beta * cosTheta)) (3 * dopplerStrength uniforms))
        0.1 5.

(* ================================================================== *)
(** * Sample inputs *)
(* ================================================================== *)

(** A parameter set with the defaults of [defaultConfig] in main.js for
    every field that is not an argument.  Colours are the hex components
    over 255; no statement below depends on them. *)
Definition sampleWith (mass temperature falloff cycleTime step lensing : R)
    (camPos camTarget : vec3) : Uniforms := {|
  blackHoleMass := mass;
  diskInnerRadius := 3;
  diskOuterRadius := 12;
  diskTemperature := temperature;
  temperatureFalloff := falloff;
  diskBrightness := 2;
  diskRotationSpeed := 0.3;
  dopplerStrength := 1;
  turbulenceScale := 1;
  turbulenceStretch := 5;
  turbulenceSharpness := 1;
  turbulenceCycleTime := cycleTime;
  turbulenceLacunarity := 2;
  turbulencePersistence := 0.5;
  diskEdgeSoftnessInner := 0.15;
  diskEdgeSoftnessOuter := 0.15;
  gravitationalLensing := lensing;
  stepSize := step;
  starsEnabled := 1;
  starBackgroundColor := Vec3 0 0 0;
  starDensity := 0.003;
  starSize := 2;
  starBrightness := 1;
  nebulaEnabled := 0;
  nebula1Scale := 2;
  nebula1Density := 0.5;
  nebula1Brightness := 0.15;
  nebula1Color := Vec3 (26 / 255) 0 (51 / 255);
  nebula2Scale := 6;
  nebula2Density := 0.5;
  nebula2Brightness := 0.15;
  nebula2Color := Vec3 (77 / 255) (26 / 255) (38 / 255);
  time := 0;
  resolution := Vec2 1920 1080;
  cameraPosition := camPos;
  cameraTarget := camTarget
|}.

(** The defaults themselves, with the camera of [initializeUniforms]. *)
Definition sampleUniforms : Uniforms :=
  sampleWith 1 5 0.75 10 0.3 1.5 (Vec3 0 5 20) (Vec3 0 0 0).

(** The same with the camera inside the horizon. *)
Definition insideHorizon : Uniforms :=
  sampleWith 1 5 0.75 10 0.3 1.5 (Vec3 0 1 0) (Vec3 0 0 0).


(** A parameter set with a peak temperature of 1000 K (the lowest value
    the controls offer) and falloff exponent 1. *)
Definition coolDisk : Uniforms :=
  sampleWith 1 1 1 10 0.3 1.5 (Vec3 0 5 20) (Vec3 0 0 0).


(** The defaults with diskRotationSpeed = 0, a value the rotation-speed
    control offers. *)
Definition stillDisk : Uniforms := {|
  blackHoleMass := 1; diskInnerRadius := 3; diskOuterRadius := 12;
  diskTemperature := 5; temperatureFalloff := 0.75; diskBrightness := 2;
  diskRotationSpeed := 0; dopplerStrength := 1; turbulenceScale := 1;
  turbulenceStretch := 5; turbulenceSharpness := 1;
  turbulenceCycleTime := 10; turbulenceLacunarity := 2;
  turbulencePersistence := 0.5; diskEdgeSoftnessInner := 0.15;
  diskEdgeSoftnessOuter := 0.15; gravitationalLensing := 1.5;
  stepSize := 0.3; starsEnabled := 1; starBackgroundColor := Vec3 0 0 0;
  starDensity := 0.003; starSize := 2; starBrightness := 1;
  nebulaEnabled := 0; nebula1Scale := 2; nebula1Density := 0.5;
  nebula1Brightness := 0.15; nebula1Color := Vec3 (26 / 255) 0 (51 / 255);
  nebula2Scale := 6; nebula2Density := 0.5; nebula2Brightness := 0.15;
  nebula2Color := Vec3 (77 / 255) (26 / 255) (38 / 255);
  time := 0; resolution := Vec2 1920 1080;
  cameraPosition := Vec3 0 5 20; cameraTarget := Vec3 0 0 0
|}.

(** A parameter set with turbulenceCycleTime = 0, step 10 and no lensing;
    the camera at (0, 3, 4) looks along +z. *)
Definition zeroCycle : Uniforms :=
  sampleWith 1 5 0.75 0 10 0 (Vec3 0 3 4) (Vec3 0 3 10).

(** A parameter set with mass 0 and the camera at the centre. *)
Definition zeroMass : Uniforms :=
  sampleWith 0 5 0.75 10 0.3 1.5 (Vec3 0 0 0) (Vec3 0 0 (-1)).

Definition downwardRay : RayState :=
  {| rayDir := Vec3 0 (-0.6) 0.8; rayPos := Vec3 0 3 4; prevPos := Vec3 0 3 4;
     color := Vec3 0 0 0; alpha := 0; escaped := 0; captured := 0 |}.

Definition afterFirstStep : RayState :=
  {| rayDir := Vec3 0 (-0.6) 0.8; rayPos := Vec3 0 (-3) 12;
     prevPos := Vec3 0 3 4;
     color := Vec3 0 0 0; alpha := 0; escaped := 0; captured := 0 |}.


(** A ray state that crosses the plane between [prev] and [cur]. *)
Definition crossingState (prev cur : vec3) : RayState :=
  {| rayDir := Vec3 0 (-1) 0; rayPos := cur; prevPos := prev;
     color := Vec3 0 0 0; alpha := 0; escaped := 0; captured := 0 |}.

(* ================================================================== *)
(** * Quantities of the continuity argument *)
(* ================================================================== *)

Definition hermite (f : R) : R := f * f * (3 - 2 * f).

(** One-dimensional value-noise interpolation of [g] at [x]. *)
Definition interp (g : R -> R) (x : R) : R :=
  mix (g (floor x)) (g (floor x + 1)) (hermite (fract x)).

Definition dist1 (p q : vec3) : R :=
  Rabs (x3 p - x3 q) + Rabs (y3 p - y3 q) + Rabs (z3 p - z3 q).

(** Lipschitz constant of [fbm] in its position argument. *)
Definition fbmLip (l q : R) : R :=
  1.5 * Rabs 0.5
  + 1.5 * Rabs l * Rabs (0.5 * q)
  + 1.5 * Rabs l * Rabs l * Rabs (0.5 * q * q)
  + 1.5 * Rabs l * Rabs l * Rabs l * Rabs (0.5 * q * q * q).

(** Lipschitz constant of the noise coordinate in its time basis. *)
Definition coordLip (uniforms : Uniforms) (hitR : R) : R :=
  2 * (Rabs (diskRotationSpeed uniforms / pow hitR 1.5)
       / Rmax (turbulenceStretch uniforms) 0.1).

(** One turbulence sample as a function of its time basis. *)
Definition sample (uniforms : Uniforms) (hitR hitAngle s : R) : R :=
  fbm (noiseCoord uniforms hitR hitAngle s)
      (turbulenceLacunarity uniforms) (turbulencePersistence uniforms).

Definition sampleLip (uniforms : Uniforms) (hitR : R) : R :=
  fbmLip (turbulenceLacunarity uniforms) (turbulencePersistence uniforms)
  * coordLip uniforms hitR.

(* ================================================================== *)
(** * Vocabulary of the shader properties *)
(* ================================================================== *)

(** Channel-wise bounds on a colour. *)
Definition nonneg3 (v : vec3) : Prop := 0 <= x3 v /\ 0 <= y3 v /\ 0 <= z3 v.

Definition le3 (a b : vec3) : Prop :=
  x3 a <= x3 b /\ y3 a <= y3 b /\ z3 a <= z3 b.

(** The default parameters with a star density of 0. *)
Definition noStars : Uniforms := {|
  blackHoleMass := 1; diskInnerRadius := 3; diskOuterRadius := 12;
  diskTemperature := 5; temperatureFalloff := 0.75; diskBrightness := 2;
  diskRotationSpeed := 0.3; dopplerStrength := 0; turbulenceScale := 1;
  turbulenceStretch := 5; turbulenceSharpness := 1;
  turbulenceCycleTime := 10; turbulenceLacunarity := 2;
  turbulencePersistence := 0.5; diskEdgeSoftnessInner := 0.15;
  diskEdgeSoftnessOuter := 0.15; gravitationalLensing := 1.5;
  stepSize := 0.3; starsEnabled := 1; starBackgroundColor := Vec3 0 0 0;
  starDensity := 0; starSize := 2; starBrightness := 1;
  nebulaEnabled := 0; nebula1Scale := 2; nebula1Density := 0.5;
  nebula1Brightness := 0.15; nebula1Color := Vec3 (26 / 255) 0 (51 / 255);
  nebula2Scale := 6; nebula2Density := 0.5; nebula2Brightness := 0.15;
  nebula2Color := Vec3 (77 / 255) (26 / 255) (38 / 255);
  time := 0; resolution := Vec2 1920 1080;
  cameraPosition := Vec3 0 5 20; cameraTarget := Vec3 0 0 0
|}.

(** The two status flags of a ray: both unset, or exactly one set. *)
Definition flagsOk (st : RayState) : Prop :=
  (captured st = 0 /\ escaped st = 0)
  \/ (captured st = 1 /\ escaped st = 0)
  \/ (captured st = 0 /\ escaped st = 1).

(** The camera 200 units from the centre. *)
Definition farAway : Uniforms :=
  sampleWith 1 5 0.75 10 0.3 1.5 (Vec3 0 0 200) (Vec3 0 0 0).

(** A parameter set on which no operation of the Doppler version of the
    shader is undefined, whatever the pixel: a positive mass (the capture
    test then keeps [r] away from 0); a bending strength below 1 on every
    ray outside 1.01 horizon radii (the bent direction is then never the
    zero vector); a window of non-zero height; a view direction that is
    not vertical; a positive inner radius; non-zero edge softness (the
    edges of both [smoothstep] differ) and cycle time; a positive
    sharpness; a non-zero star size; non-negative colours and
    brightnesses (the gamma correction takes [pow] of the colour). *)
Record regular (uniforms : Uniforms) : Prop := {
  regular_mass : 0 < blackHoleMass uniforms;
  regular_bend :
    Rabs (stepSize uniforms * gravitationalLensing uniforms)
    < blackHoleMass uniforms * 2 * (1.01 * 1.01);
  regular_window : y2 (resolution uniforms) <> 0;
  regular_view :
    x3 (cameraTarget uniforms) <> x3 (cameraPosition uniforms)
    \/ z3 (cameraTarget uniforms) <> z3 (cameraPosition uniforms);
  regular_inner : 0 < diskInnerRadius uniforms;
  regular_softInner : diskEdgeSoftnessInner uniforms <> 0;
  regular_softOuter : diskEdgeSoftnessOuter uniforms <> 0;
  regular_cycle : turbulenceCycleTime uniforms <> 0;
  regular_sharpness : 0 < turbulenceSharpness uniforms;
  regular_brightness : 0 <= diskBrightness uniforms;
  regular_starSize : starSize uniforms <> 0;
  regular_starBrightness : 0 <= starBrightness uniforms;
  regular_background : nonneg3 (starBackgroundColor uniforms);
  regular_nebula1 :
    nonneg3 (nebula1Color uniforms) /\ 0 <= nebula1Brightness uniforms;
  regular_nebula2 :
    nonneg3 (nebula2Color uniforms) /\ 0 <= nebula2Brightness uniforms
}.

(** What the march keeps true of the ray state on such a parameter set. *)
Definition rayOk (st : RayState) : Prop :=
  length3 (rayDir st) = 1 /\ 0 <= alpha st <= 1 /\ nonneg3 (color st).

(* ================================================================== *)
(** * Uniform updates and quality presets (blackhole.js, main.js) *)
(* ================================================================== *)

(** How [updateUniforms] writes one uniform: the value as it is, a flag
    turned into 1.0 / 0.0, or a colour handed to [Color.set]. *)
Inductive UpdateKind : Type := Plain | Flag | Colour.

(** The uniforms [updateUniforms] handles, in the order of the source. *)
Definition updateTable : list (string * UpdateKind) := [
  ("blackHoleMass", Plain);
  ("diskInnerRadius", Plain);
  ("diskOuterRadius", Plain);
  ("diskTemperature", Plain);
  ("temperatureFalloff", Plain);
  ("diskBrightness", Plain);
  ("diskRotationSpeed", Plain);
  ("turbulenceScale", Plain);
  ("turbulenceStretch", Plain);
  ("turbulenceBrightness", Plain);
  ("turbulenceSharpness", Plain);
  ("turbulenceCycleTime", Plain);
  ("diskEdgeSoftnessInner", Plain);
  ("diskEdgeSoftnessOuter", Plain);
  ("gravitationalLensing", Plain);
  ("diskDensity", Plain);
  ("stepSize", Plain);
  ("starsEnabled", Flag);
  ("starBackgroundColor", Colour);
  ("starDensity", Plain);
  ("starSize", Plain);
  ("starBrightness", Plain);
  ("nebulaEnabled", Flag);
  ("nebula1Scale", Plain);
  ("nebula1Density", Plain);
  ("nebula1Brightness", Plain);
  ("nebula1Color", Colour);
  ("nebula2Scale", Plain);
  ("nebula2Density", Plain);
  ("nebula2Brightness", Plain);
  ("nebula2Color", Colour)
].

(** The value written for [config.key = v].  For a colour the uniform's
    [Color] is [set] from the value; for a value three.js reads as a
    colour that is the colour [new THREE.Color(v)] holds. *)
Definition updatedValue (config : JsObject) (key : string)
    (kind : UpdateKind) (v : JsValue) : JsValue :=
  match kind with
  | Plain => v
  | Flag => truthy config key
  | Colour => JsColor v
  end.

(** Whether the write can be done on the current uniform: [u.key.value = x]
    needs the uniform, [u.key.value.set(x)] needs its value to be a
    [Color]. *)
Definition writable (kind : UpdateKind) (current : option JsValue) : bool :=
  match kind, current with
  | Colour, Some (JsColor _) => true
  | Colour, _ => false
  | _, Some _ => true
  | _, None => false
  end.

(** [if (config.key !== undefined) u.key.value = ...]: nothing happens for
    a key the configuration lacks; a write that cannot be done is a
    TypeError ([None]). *)
Definition updateField (config : JsObject) (u : option JsObject)
    (e : string * UpdateKind) : option JsObject :=
  match config !! e.1 with
  | None => u
  | Some v =>
      u ← u;
      if writable e.2 (u !! e.1)
      then Some (<[e.1 := updatedValue config e.1 e.2 v]> u)
      else None
  end.

(** [BlackHoleSimulation.updateUniforms(config)]. *)
Definition updateUniforms (config uniforms : JsObject) : option JsObject :=
  foldl (updateField config) (Some uniforms) updateTable.

(** [QUALITY_PRESETS]. *)
Definition QUALITY_PRESETS : gmap string JsObject :=
  list_to_map [
    ("low", list_to_map [("stepSize", JsNum 0.4);
                         ("starsEnabled", JsBool false);
                         ("nebulaEnabled", JsBool false)]);
    ("medium", list_to_map [("stepSize", JsNum 0.3);
                            ("starsEnabled", JsBool true);
                            ("nebulaEnabled", JsBool false)]);
    ("high", list_to_map [("stepSize", JsNum 0.2);
                          ("starsEnabled", JsBool true);
                          ("nebulaEnabled", JsBool true)]);
    ("ultra", list_to_map [("stepSize", JsNum 0.15);
                           ("starsEnabled", JsBool true);
                           ("nebulaEnabled", JsBool true)])
  ].

(** An object literal field [key: o.key]; a field whose value is
    [undefined] counts as absent. *)
Definition pick (o : JsObject) (key : string) (acc : JsObject) : JsObject :=
  match o !! key with
  | Some v => <[key := v]> acc
  | None => acc
  end.

(** [BlackHoleSimulation.applyQualityPreset(presetName)]. *)
Definition applyQualityPreset (presetName : string) (uniforms : JsObject)
    : option JsObject :=
  match QUALITY_PRESETS !! presetName with
  | None => Some uniforms
  | Some preset =>
      updateUniforms
        (pick preset "stepSize"
           (pick preset "starsEnabled" (pick preset "nebulaEnabled" ∅)))
        uniforms
  end.

(** [onUniformChange: (key, value) => updateUniforms({ [key]: value })]
    of main.js. *)
Definition onUniformChange (key : string) (value : JsValue)
    (uniforms : JsObject) : option JsObject :=
  updateUniforms {[key := value]} uniforms.

Definition presetKeys : list string :=
  ["stepSize"; "starsEnabled"; "nebulaEnabled"].

(* ================================================================== *)
(** * Cinematic camera animation (camera-animation.js) *)
(* ================================================================== *)
(** JavaScript [a % b] on numbers: the remainder has the sign of the
    dividend; [None] where the result is NaN ([b = 0]). *)
Definition trunc (x : R) : Z :=
  if Rle_dec 0 x then Zfloor x else (- Zfloor (- x))%Z.

Definition jsRemChk (a b : R) : option R :=
  if Req_dec_T b 0 then None else Some (a - b * IZR (trunc (a / b))).

Module CameraAnimation.

Record Keyframe : Type := {
  position : vec3;
  target : vec3;
  duration : R
}.

Definition catmullRom (p0 p1 p2 p3 t : R) : R :=
  let t2 := t * t in
  let t3 := t2 * t in
  0.5 * ((2 * p1)
         + (- p0 + p2) * t
         + (2 * p0 - 5 * p1 + 4 * p2 - p3) * t2
         + (- p0 + 3 * p1 - 3 * p2 + p3) * t3).

Definition cinematicKeyframes : list Keyframe := [
  {| position := Vec3 0 (-3) 20; target := Vec3 0 0 0; duration := 5 |};
  {| position := Vec3 15 (-5) 12; target := Vec3 0 0 0; duration := 4 |};
  {| position := Vec3 10 (-18) (-10); target := Vec3 0 0 0; duration := 4 |};
  {| position := Vec3 (-5) (-6) (-24); target := Vec3 0 0 0; duration := 3 |};
  {| position := Vec3 (-5) (-1) (-20); target := Vec3 0 0 0; duration := 12 |};
  {| position := Vec3 5 (-1) 0; target := Vec3 0 0 0; duration := 0 |}
].

(** The object [this] of the class, with the two fields of [camera] and
    the two of [controls] that the class reads or writes; [cameraLookAt]
    is the last point handed to [camera.lookAt]. *)
Record State : Type := {
  keyframes : list Keyframe;
  isPlaying : bool;
  currentTime : R;
  totalDuration : R;
  tempPosition : vec3;
  tempTarget : vec3;
  originalPosition : vec3;
  originalTarget : vec3;
  cameraPosition : vec3;
  cameraLookAt : vec3;
  controlsTarget : vec3;
  controlsEnabled : bool
}.

(** [keyframes.reduce((sum, kf) => sum + kf.duration, 0)]. *)
Definition calculateTotalDuration (keyframes : list Keyframe) : R :=
  foldl (fun sum kf => sum + duration kf) 0 keyframes.

(** The constructor; the new [THREE.Vector3()] are zero vectors. *)
Definition new (cameraPosition cameraLookAt controlsTarget : vec3)
    (controlsEnabled : bool) : State :=
  {| keyframes := cinematicKeyframes;
     isPlaying := false;
     currentTime := 0;
     totalDuration := calculateTotalDuration cinematicKeyframes;
     tempPosition := Vec3 0 0 0;
     tempTarget := Vec3 0 0 0;
     originalPosition := Vec3 0 0 0;
     originalTarget := Vec3 0 0 0;
     cameraPosition := cameraPosition;
     cameraLookAt := cameraLookAt;
     controlsTarget := controlsTarget;
     controlsEnabled := controlsEnabled |}.

(** [keyframes[i]] for an integer [i]: [undefined] out of range. *)
Definition at_ (keyframes : list Keyframe) (i : Z) : option Keyframe :=
  if (i <? 0)%Z then None else keyframes !! Z.to_nat i.

(** [keyframes[((index % len) + len) % len]]; with no keyframe the index
    is NaN and the result [undefined]. *)
Definition getKeyframe (keyframes : list Keyframe) (index : Z)
    : option Keyframe :=
  let len := Z.of_nat (length keyframes) in
  if (len =? 0)%Z then None
  else at_ keyframes (Z.rem (Z.rem index len + len) len).

Definition start (s : State) : State :=
  if isPlaying s then s
  else
    {| keyframes := keyframes s;
       isPlaying := true;
       currentTime := 0;
       totalDuration := totalDuration s;
       tempPosition := tempPosition s;
       tempTarget := tempTarget s;
       originalPosition := cameraPosition s;
       originalTarget := controlsTarget s;
       cameraPosition := cameraPosition s;
       cameraLookAt := cameraLookAt s;
       controlsTarget := controlsTarget s;
       controlsEnabled := false |}.

Definition stop (s : State) : State :=
  if negb (isPlaying s) then s
  else
    {| keyframes := keyframes s;
       isPlaying := false;
       currentTime := currentTime s;
       totalDuration := totalDuration s;
       tempPosition := tempPosition s;
       tempTarget := tempTarget s;
       originalPosition := originalPosition s;
       originalTarget := originalTarget s;
       cameraPosition := cameraPosition s;
       cameraLookAt := cameraLookAt s;
       controlsTarget := tempTarget s;
       controlsEnabled := true |}.

(** [toggle()] returns the new value of [isPlaying]. *)
Definition toggle (s : State) : State * bool :=
  let s' := if isPlaying s then stop s else start s in
  (s', isPlaying s').

Record KeyframeInfo : Type := {
  index : Z;
  localTime : R;
  infoDuration : R
}.

(** The [for] loop of [getKeyframeInfo], from keyframe [i] on; [None]
    when the loop ends without a [return]. *)
Fixpoint scanKeyframes (keyframes : list Keyframe) (i : Z)
    (accumulatedTime globalTime : R) : option KeyframeInfo :=
  match keyframes with
  | [] => None
  | kf :: rest =>
      if Rlt_dec globalTime (accumulatedTime + duration kf) then
        Some {| index := i;
                localTime := globalTime - accumulatedTime;
                infoDuration := duration kf |}
      else scanKeyframes rest (i + 1) (accumulatedTime + duration kf)
             globalTime
  end.

(** [getKeyframeInfo(globalTime)]; [None] is the TypeError of
    [this.keyframes[-1].duration] when there is no keyframe. *)
Definition getKeyframeInfo (keyframes : list Keyframe) (globalTime : R)
    : option KeyframeInfo :=
  match scanKeyframes keyframes 0 0 globalTime with
  | Some info => Some info
  | None =>
      let lastIndex := (Z.of_nat (length keyframes) - 1)%Z in
      kf ← at_ keyframes lastIndex;
      Some {| index := lastIndex;
              localTime := duration kf;
              infoDuration := duration kf |}
  end.

Definition catmullRom3 (p0 p1 p2 p3 : vec3) (t : R) : vec3 :=
  Vec3 (catmullRom (x3 p0) (x3 p1) (x3 p2) (x3 p3) t)
       (catmullRom (y3 p0) (y3 p1) (y3 p2) (y3 p3) t)
       (catmullRom (z3 p0) (z3 p1) (z3 p2) (z3 p3) t).

(** [interpolateSpline(index, t)]: the new [tempPosition] and
    [tempTarget]; [None] is the TypeError of [undefined.position]. *)
Definition interpolateSpline (keyframes : list Keyframe) (index : Z) (t : R)
    : option (vec3 * vec3) :=
  p0 ← getKeyframe keyframes (index - 1);
  p1 ← getKeyframe keyframes index;
  p2 ← getKeyframe keyframes (index + 1);
  p3 ← getKeyframe keyframes (index + 2);
  Some (catmullRom3 (position p0) (position p1) (position p2) (position p3) t,
        catmullRom3 (target p0) (target p1) (target p2) (target p3) t).

(** [update(deltaTime)]; [None] when a TypeError is thrown or a value
    that is no finite number arises ([%] or [/] by zero). *)
Definition update (deltaTime : R) (s : State) : option State :=
  if negb (isPlaying s) then Some s
  else
    let advanced := currentTime s + deltaTime in
    now ← (if Rge_dec advanced (totalDuration s)
           then jsRemChk advanced (totalDuration s)
           else Some advanced);
    info ← getKeyframeInfo (keyframes s) now;
    t ← divChk (localTime info) (infoDuration info);
    pt ← interpolateSpline (keyframes s) (index info) t;
    Some {| keyframes := keyframes s;
            isPlaying := isPlaying s;
            currentTime := now;
            totalDuration := totalDuration s;
            tempPosition := pt.1;
            tempTarget := pt.2;
            originalPosition := originalPosition s;
            originalTarget := originalTarget s;
            cameraPosition := pt.1;
            cameraLookAt := pt.2;
            controlsTarget := pt.2;
            controlsEnabled := controlsEnabled s |}.

Definition getProgress (s : State) : R := currentTime s / totalDuration s.

(** A state whose cached total is the sum of its non-negative durations,
    which is positive, and whose clock is within one cycle. *)
Definition wellFormed (s : State) : Prop :=
  totalDuration s = calculateTotalDuration (keyframes s)
  /\ Forall (fun kf => 0 <= duration kf) (keyframes s)
  /\ 0 < totalDuration s
  /\ 0 <= currentTime s < totalDuration s.

(** The invariant of the class: a well-formed state whose orbit controls
    are enabled exactly when the animation is not playing. *)
Definition classInvariant (s : State) : Prop :=
  wellFormed s /\ controlsEnabled s = negb (isPlaying s).

End CameraAnimation.

(* ================================================================== *)
(** * Saved configuration (main.js) *)
(* ================================================================== *)
(** The values of a configuration object and of parsed JSON text. *)
#[warnings="-register-all"] Inductive Json : Type :=
  | JNull
  | JBool (b : bool)
  | JNum (r : R)
  | JStr (s : string)
  | JArr (l : list Json)
  | JObj (o : gmap string Json).

(** A configuration object. *)
Abbreviation Config := (gmap string Json).

Definition COLOR_PROPERTIES : list string :=
  ["starBackgroundColor"; "nebula1Color"; "nebula2Color"].

(** [n.toString(16)] of an integer, and of NaN ([None]). *)
Definition toString16 (n : option Z) : string :=
  match n with
  | None => "NaN"
  | Some z =>
      if (z <? 0)%Z
      then "-" +:+ NilZero.string_of_uint (N.to_hex_uint (Z.to_N (- z)))
      else NilZero.string_of_uint (N.to_hex_uint (Z.to_N z))
  end.

(** [s.padStart(2, '0')]. *)
Definition padStart2 (s : string) : string :=
  match String.length s with
  | O => "00"
  | S O => "0" +:+ s
  | _ => s
  end.

(** [value.key] of an object or an array read from JSON: an array has no
    such field. *)
Definition field (value : Json) (key : string) : option Json :=
  match value with
  | JObj o => o !! key
  | _ => None
  end.

Section Storage.

(** The number that ECMAScript's ToNumber gives for a string or an array,
    [None] for NaN. *)
Variable stringToNumber : Json -> option R.

Definition toNumber (v : Json) : option R :=
  match v with
  | JNull => Some 0
  | JBool true => Some 1
  | JBool false => Some 0
  | JNum x => Some x
  | JStr _ | JArr _ => stringToNumber v
  | JObj _ => None
  end.

(** [Math.round(v)]: the nearest integer, a tie going up. *)
Definition Math_round (v : Json) : option Z :=
  x ← toNumber v; Some (Zfloor (x + 0.5)).

(** [Math.round(value.key ?? 0).toString(16).padStart(2, '0')]. *)
Definition channel (value : Json) (key : string) : string :=
  let c := match field value key with
           | None | Some JNull => JNum 0
           | Some v => v
           end in
  padStart2 (toString16 (Math_round c)).

Definition normalizeColorToHex (value : Json) : string :=
  match value with
  | JStr s => s
  | JObj _ | JArr _ =>
      "#" +:+ channel value "r" +:+ channel value "g" +:+ channel value "b"
  | JNull | JBool _ | JNum _ => "#000000"
  end.

(** The loop over [COLOR_PROPERTIES] of [loadConfig] and [saveConfig]. *)
Definition normalizeColors (o : Config) : Config :=
  foldl (fun acc key =>
           match acc !! key with
           | Some v => <[key := JStr (normalizeColorToHex v)]> acc
           | None => acc
           end) o COLOR_PROPERTIES.

(** What [JSON.parse] makes of a text: a SyntaxError, [null], a number or
    boolean, or a value with own enumerable properties (an object; for an
    array or a string, its indexed elements). *)
Inductive Parsed : Type :=
  | SyntaxError
  | PNull
  | PPrimitive
  | PProps (o : Config).

(** [JSON.parse] and [JSON.stringify]. *)
Variable JSON_parse : string -> Parsed.

Variable JSON_stringify : Config -> string.

(** [loadConfig(defaults)]; [storage] is the item of [localStorage] under
    [STORAGE_KEY], if any. *)
Definition loadConfig (defaults : Config) (storage : option string) : Config :=
  match storage with
  | None => defaults
  | Some saved =>
      if String.eqb saved "" then defaults
      else
        match JSON_parse saved with
        | SyntaxError => defaults
        | PNull => defaults
        | PPrimitive => defaults
        | PProps parsed => normalizeColors parsed ∪ defaults
        end
  end.

(** [saveConfig(config)]: the new item of [localStorage]; [setItemOk]
    tells whether [setItem] succeeds. *)
Definition saveConfig (config : Config) (setItemOk : bool)
    (storage : option string) : option string :=
  if setItemOk then Some (JSON_stringify (normalizeColors config))
  else storage.

(** [clearConfig()]. *)
Definition clearConfig (removeItemOk : bool) (storage : option string)
    : option string :=
  if removeItemOk then None else storage.

End Storage.

Definition defaultConfig : Config :=
  list_to_map [
    ("blackHoleMass", JNum 1);
    ("diskInnerRadius", JNum 3);
    ("diskOuterRadius", JNum 12);
    ("diskTemperature", JNum 5);
    ("temperatureFalloff", JNum 0.75);
    ("diskBrightness", JNum 2);
    ("diskRotationSpeed", JNum 0.3);
    ("turbulenceScale", JNum 1);
    ("turbulenceStretch", JNum 5);
    ("turbulenceSharpness", JNum 1);
    ("turbulenceCycleTime", JNum 10);
    ("turbulenceLacunarity", JNum 2);
    ("turbulencePersistence", JNum 0.5);
    ("diskEdgeSoftnessInner", JNum 0.15);
    ("diskEdgeSoftnessOuter", JNum 0.15);
    ("gravitationalLensing", JNum 1.5);
    ("stepSize", JNum 0.3);
    ("starsEnabled", JBool true);
    ("starBackgroundColor", JStr "#000000");
    ("starDensity", JNum 0.003);
    ("starSize", JNum 2);
    ("starBrightness", JNum 1);
    ("nebulaEnabled", JBool false);
    ("nebula1Scale", JNum 2);
    ("nebula1Density", JNum 0.5);
    ("nebula1Brightness", JNum 0.15);
    ("nebula1Color", JStr "#1a0033");
    ("nebula2Scale", JNum 6);
    ("nebula2Density", JNum 0.5);
    ("nebula2Brightness", JNum 0.15);
    ("nebula2Color", JStr "#4d1a26");
    ("bloomStrength", JNum 0.8);
    ("bloomRadius", JNum 0.5);
    ("bloomThreshold", JNum 0.2)
  ].

(* ================================================================== *)
(** * Vocabulary of the colour properties *)
(* ================================================================== *)

(** ** Colour normalisation *)
Definition isHexDigit (c : Ascii.ascii) : bool :=
  bool_decide (c ∈ String.list_ascii_of_string "0123456789abcdef").

(** Two hexadecimal digits read back as a number. *)
Definition hexDigitValue (c : Ascii.ascii) : Z :=
  match list_find (fun d => d = c) (String.list_ascii_of_string "0123456789abcdef")
  with
  | Some (i, _) => Z.of_nat i
  | None => 0
  end.

Definition readHex2 (s : string) : Z :=
  match s with
  | String a (String b EmptyString) => 16 * hexDigitValue a + hexDigitValue b
  | _ => 0
  end.

Definition byteOk (z : Z) : bool :=
  let s := padStart2 (toString16 (Some z)) in
  (String.length s =? 2)%nat
  && forallb isHexDigit (String.list_ascii_of_string s)
  && (readHex2 s =? z)%Z.

(** A colour component that is absent, [null], or a number that rounds to
    a byte. *)
Definition byteComponent (c : option Json) : Prop :=
  match c with
  | None | Some JNull => True
  | Some (JNum x) => -0.5 <= x < 255.5
  | Some _ => False
  end.

(** The integer such a component is rounded to. *)
Definition roundedComponent (c : option Json) : Z :=
  match c with
  | Some (JNum x) => Zfloor (x + 0.5)
  | _ => 0
  end.

Definition tweakpaneColour : gmap string Json :=
  list_to_map [("r", JNum 255); ("g", JNum 127.5); ("b", JNum 0)].

(* ################################################################## *)
(** * Part II: properties *)
(* ################################################################## *)

(* ================================================================== *)
(** * Comparisons *)
(* ================================================================== *)

Lemma lessThan_true (a b : R) : a < b -> lessThan a b = true.
Proof. intros H. unfold lessThan. destruct (Rlt_dec a b); [reflexivity | lra]. Qed.

Lemma lessThan_false (a b : R) : b <= a -> lessThan a b = false.
Proof. intros H. unfold lessThan. destruct (Rlt_dec a b); [lra | reflexivity]. Qed.

Lemma greaterThan_true (a b : R) : b < a -> greaterThan a b = true.
Proof.
  intros H. unfold greaterThan. destruct (Rgt_dec a b); [reflexivity | lra].
Qed.

Lemma greaterThan_false (a b : R) : a <= b -> greaterThan a b = false.
Proof.
  intros H. unfold greaterThan. destruct (Rgt_dec a b); [lra | reflexivity].
Qed.

Lemma lessThan_spec (a b : R) : lessThan a b = true <-> a < b.
Proof.
  unfold lessThan. destruct (Rlt_dec a b); split; intros; try easy.
Qed.

Lemma greaterThan_spec (a b : R) : greaterThan a b = true <-> b < a.
Proof.
  unfold greaterThan. destruct (Rgt_dec a b) as [H|H]; split; intros; try easy.
Qed.

(* ================================================================== *)
(** * Termination of the raymarching loop *)
(* ================================================================== *)

Section LoopBound.
Context {S : Type}.
Variable body : S -> LoopCtl S.

(** A counted loop enters its body at most [count] times. *)
Lemma Loop_iterations (count : nat) (s : S) :
  (snd (Loop count body s) <= count)%nat.
Proof.
  revert s. induction count as [|n IH]; intros s; simpl.
  - lia.
  - destruct (body s) as [s'|s'].
    + simpl. lia.
    + specialize (IH s'). destruct (Loop n body s') as [sf k].
      simpl in *. lia.
Qed.

(** A body that breaks at once is entered exactly once. *)
Lemma Loop_break (count : nat) (s s' : S) :
  body s = Break s' -> Loop (Datatypes.S count) body s = (s', 1%nat).
Proof. intros H. simpl. rewrite H. reflexivity. Qed.
End LoopBound.

(** C1.  For every parameter set and pixel coordinate (the elapsed time
    and the camera pose are fields of the parameter set), the raymarching
    loop enters its body at most 64 times and the shader returns a colour
    with alpha 1; this holds for both versions of the shader and needs no
    assumption on the parameter values. *)
Theorem C1_loop_terminates_within_64 (uniforms : Uniforms) (screenUV : vec2) :
  (snd (march uniforms (initRay uniforms screenUV)) <= 64)%nat
  /\ (snd (Adaptive.march uniforms (initRay uniforms screenUV)) <= 64)%nat
  /\ (exists rgb, createBlackHoleShader uniforms screenUV = Vec4 rgb 1)
  /\ (exists rgb, Adaptive.createBlackHoleShader uniforms screenUV = Vec4 rgb 1).
Proof.
  repeat split.
  - apply Loop_iterations.
  - apply Loop_iterations.
  - eexists. reflexivity.
  - eexists. reflexivity.
Qed.

(* ================================================================== *)
(** * Immediate capture *)
(* ================================================================== *)

Lemma initRay_fields (uniforms : Uniforms) (screenUV : vec2) :
  rayPos (initRay uniforms screenUV) = cameraPosition uniforms
  /\ color (initRay uniforms screenUV) = Vec3 0 0 0
  /\ alpha (initRay uniforms screenUV) = 0
  /\ escaped (initRay uniforms screenUV) = 0
  /\ captured (initRay uniforms screenUV) = 0.
Proof. repeat split. Qed.

Lemma loopBody_capture (uniforms : Uniforms) (st : RayState) :
  escaped st = 0 -> captured st = 0 -> alpha st = 0 ->
  length3 (rayPos st) < 1.01 * (2 * blackHoleMass uniforms) ->
  loopBody uniforms st = Break (set_captured st 1)
  /\ Adaptive.loopBody uniforms st = Break (set_captured st 1).
Proof.
  intros He Hc Ha Hr. unfold loopBody, Adaptive.loopBody.
  rewrite He, Hc, Ha.
  rewrite !greaterThan_false by lra. simpl.
  rewrite lessThan_true by lra. split; reflexivity.
Qed.

Lemma pow_zero (y : R) : pow 0 y = 0.
Proof. unfold pow. destruct (Rlt_dec 0 0); [lra | reflexivity]. Qed.

(** C3.  When the camera position lies inside 1.01 times the event
    horizon radius [2 * blackHoleMass], the first loop iteration sets
    [captured] and breaks: the body is entered once, [escaped] is still 0
    after the loop, the background gate is closed, and the pixel is
    black with alpha 1 whatever the background parameters are. *)
Theorem C3_immediate_capture (uniforms : Uniforms) (screenUV : vec2) :
  length3 (cameraPosition uniforms) < 1.01 * (2 * blackHoleMass uniforms) ->
  let st0 := initRay uniforms screenUV in
  march uniforms st0 = (set_captured st0 1, 1%nat)
  /\ Adaptive.march uniforms st0 = (set_captured st0 1, 1%nat)
  /\ captured (fst (march uniforms st0)) = 1
  /\ escaped (afterLoop (fst (march uniforms st0))) = 0
  /\ backgroundGate (afterLoop (fst (march uniforms st0))) = false
  /\ createBlackHoleShader uniforms screenUV = Vec4 (Vec3 0 0 0) 1
  /\ Adaptive.createBlackHoleShader uniforms screenUV = Vec4 (Vec3 0 0 0) 1.
Proof.
  intros Hr st0.
  destruct (loopBody_capture uniforms st0) as [Hb Hb']; try reflexivity.
  { exact Hr. }
  assert (Hm : march uniforms st0 = (set_captured st0 1, 1%nat))
    by (apply Loop_break; exact Hb).
  assert (Hm' : Adaptive.march uniforms st0 = (set_captured st0 1, 1%nat))
    by (apply Loop_break; exact Hb').
  assert (Hal : afterLoop (set_captured st0 1) = set_captured st0 1).
  { unfold afterLoop. simpl. rewrite lessThan_false by lra. reflexivity. }
  assert (Hg : backgroundGate (set_captured st0 1) = false).
  { unfold backgroundGate. simpl. rewrite greaterThan_false by lra.
    reflexivity. }
  assert (Hout : gamma (addBackground uniforms (set_captured st0 1))
                 = Vec4 (Vec3 0 0 0) 1).
  { unfold addBackground. rewrite Hg. unfold gamma, pow3. simpl.
    rewrite pow_zero. reflexivity. }
  unfold createBlackHoleShader, Adaptive.createBlackHoleShader.
  change (initRay uniforms screenUV) with st0.
  rewrite Hm, Hm'. cbn [fst]. rewrite Hal.
  repeat split; assumption.
Qed.

Lemma length3_0_1_0 : length3 (Vec3 0 1 0) = 1.
Proof.
  unfold length3. simpl.
  replace (0 * 0 + 1 * 1 + 0 * 0) with 1 by ring. apply sqrt_1.
Qed.

Lemma C3_immediate_capture_witness :
  createBlackHoleShader insideHorizon (Vec2 0.5 0.5) = Vec4 (Vec3 0 0 0) 1.
Proof.
  assert (H : length3 (cameraPosition insideHorizon)
              < 1.01 * (2 * blackHoleMass insideHorizon)).
  { cbn [cameraPosition blackHoleMass insideHorizon sampleWith].
    rewrite length3_0_1_0. lra. }
  pose proof (C3_immediate_capture insideHorizon (Vec2 0.5 0.5) H) as (_ & _ & _ & _ & _ & Hshader & _).
  exact Hshader.
Defined.

(* ================================================================== *)
(** * Disk hit acceptance *)
(* ================================================================== *)

Lemma sqrt_sq_plus_0 (a : R) : 0 <= a -> sqrt (a * a + 0 * 0) = a.
Proof.
  intros Ha. replace (a * a + 0 * 0) with (Rsqr a) by (unfold Rsqr; ring).
  apply sqrt_Rsqr; exact Ha.
Qed.

(** A crossing from [(a, 1, 0)] to [(a, -1, 0)] hits the plane at radius
    [a]. *)
Lemma hitROf_vertical (a : R) :
  0 <= a -> hitROf (Vec3 a 1 0) (Vec3 a (-1) 0) = a.
Proof.
  intros Ha. unfold hitROf, hitPosOf, mix3, mix. cbn [x3 y3 z3].
  replace (a * (1 - -(1) / (-1 - 1)) + a * (-(1) / (-1 - 1))) with a by field.
  replace (0 * (1 - -(1) / (-1 - 1)) + 0 * (-(1) / (-1 - 1))) with 0 by field.
  apply sqrt_sq_plus_0; exact Ha.
Qed.

Lemma inDisk_spec (uniforms : Uniforms) (hitR : R) :
  inDisk uniforms hitR = true
  <-> diskInnerRadius uniforms < hitR < diskOuterRadius uniforms.
Proof.
  unfold inDisk. rewrite andb_true_iff, greaterThan_spec, lessThan_spec.
  tauto.
Qed.

(** C6, as stated, fails: a crossing whose interpolated hit radius equals
    [diskInnerRadius] exactly (3, from (3,1,0) to (3,-1,0)) is detected but
    rejected by the disk test, and the state is left as it was. *)
Lemma C6_hit_at_inner_radius_rejected :
  let st := crossingState (Vec3 3 1 0) (Vec3 3 (-1) 0) in
  y3 (prevPos st) * y3 (rayPos st) < 0
  /\ alpha st < 0.99
  /\ hitROf (prevPos st) (rayPos st) = diskInnerRadius sampleUniforms
  /\ inDisk sampleUniforms (hitROf (prevPos st) (rayPos st)) = false
  /\ diskPlaneIntersection sampleUniforms
       (createAccretionDiskColor sampleUniforms) st = st.
Proof.
  cbn zeta.
  assert (Hr : hitROf (Vec3 3 1 0) (Vec3 3 (-1) 0) = 3)
    by (apply hitROf_vertical; lra).
  assert (Hd : inDisk sampleUniforms 3 = false).
  { unfold inDisk. cbn [diskInnerRadius sampleUniforms sampleWith].
    rewrite greaterThan_false by lra. reflexivity. }
  unfold diskPlaneIntersection.
  cbn [prevPos rayPos alpha crossingState y3].
  rewrite Hr, Hd.
  repeat split; try (cbn [diskInnerRadius sampleUniforms sampleWith]; lra).
  destruct (lessThan (1 * -1) 0 && lessThan 0 0.99); reflexivity.
Qed.

(** C6, amended.  A detected crossing (the two heights have opposite
    signs and the accumulated opacity is below 0.99) is shaded and
    composited exactly when the interpolated hit radius lies in the open
    interval (innerRadius, outerRadius); otherwise the state is unchanged.
    A hit at exactly innerRadius or exactly outerRadius is rejected. *)
Theorem C6_disk_hit_open_interval (uniforms : Uniforms)
    (shade : R -> R -> R -> vec3 -> vec4) (st : RayState) :
  y3 (prevPos st) * y3 (rayPos st) < 0 ->
  alpha st < 0.99 ->
  let hitPos := hitPosOf (prevPos st) (rayPos st) in
  let hitR := hitROf (prevPos st) (rayPos st) in
  (inDisk uniforms hitR = true
   <-> diskInnerRadius uniforms < hitR < diskOuterRadius uniforms)
  /\ (diskInnerRadius uniforms < hitR < diskOuterRadius uniforms ->
      diskPlaneIntersection uniforms shade st
      = composite st (shade hitR (atan2 (z3 hitPos) (x3 hitPos))
                            (time uniforms) (rayDir st)))
  /\ (~ (diskInnerRadius uniforms < hitR < diskOuterRadius uniforms) ->
      diskPlaneIntersection uniforms shade st = st)
  /\ inDisk uniforms (diskInnerRadius uniforms) = false
  /\ inDisk uniforms (diskOuterRadius uniforms) = false.
Proof.
  intros Hc Ha hitPos hitR.
  assert (Hgate : lessThan (y3 (prevPos st) * y3 (rayPos st)) 0
                  && lessThan (alpha st) 0.99 = true).
  { rewrite !lessThan_true by assumption. reflexivity. }
  split; [apply inDisk_spec|].
  split; [|split; [|split]].
  - intros Hin. apply inDisk_spec in Hin.
    unfold diskPlaneIntersection. rewrite Hgate.
    fold hitR. rewrite Hin. reflexivity.
  - intros Hout. unfold diskPlaneIntersection. rewrite Hgate.
    fold hitR. destruct (inDisk uniforms hitR) eqn:E; [|reflexivity].
    apply inDisk_spec in E. contradiction.
  - unfold inDisk. rewrite greaterThan_false by lra. reflexivity.
  - unfold inDisk. rewrite (lessThan_false _ _ (Rle_refl _)).
    apply andb_false_r.
Qed.

Lemma C6_disk_hit_open_interval_witness :
  let st := crossingState (Vec3 6 1 0) (Vec3 6 (-1) 0) in
  inDisk sampleUniforms (hitROf (prevPos st) (rayPos st)) = true.
Proof.
  cbn zeta.
  assert (Hc : y3 (prevPos (crossingState (Vec3 6 1 0) (Vec3 6 (-1) 0)))
               * y3 (rayPos (crossingState (Vec3 6 1 0) (Vec3 6 (-1) 0))) < 0)
    by (cbn [prevPos rayPos crossingState y3]; lra).
  assert (Ha : alpha (crossingState (Vec3 6 1 0) (Vec3 6 (-1) 0)) < 0.99)
    by (cbn [alpha crossingState]; lra).
  pose proof (C6_disk_hit_open_interval sampleUniforms
                (createAccretionDiskColor sampleUniforms)
                (crossingState (Vec3 6 1 0) (Vec3 6 (-1) 0)) Hc Ha)
    as (Hiff & _).
  apply Hiff. cbn [prevPos rayPos crossingState].
  rewrite hitROf_vertical by lra.
  cbn [diskInnerRadius diskOuterRadius sampleUniforms sampleWith]. lra.
Defined.

(* ================================================================== *)
(** * Doppler beaming *)
(* ================================================================== *)

Lemma dopplerBoost_spec (uniforms : Uniforms) (hitR hitAngle : R)
    (rayDir : vec3) :
  dopplerBoost uniforms hitR hitAngle rayDir
  = dopplerSpec uniforms hitR hitAngle rayDir.
Proof.
  unfold dopplerBoost, dopplerSpec, orbitalVelocityDir, dot3, muls3.
  cbn [x3 y3 z3].
  replace (1 / sqrt (hitR / diskInnerRadius uniforms) * 0.3
           * (- sin hitAngle * sign (diskRotationSpeed uniforms) * x3 rayDir
              + 0 * y3 rayDir
              + cos hitAngle * sign (diskRotationSpeed uniforms) * z3 rayDir))
    with (0.3 * (1 / sqrt (hitR / diskInnerRadius uniforms))
          * (- sin hitAngle * sign (diskRotationSpeed uniforms) * x3 rayDir
             + 0 * sign (diskRotationSpeed uniforms) * y3 rayDir
             + cos hitAngle * sign (diskRotationSpeed uniforms) * z3 rayDir))
    by ring.
  reflexivity.
Qed.

Lemma orbitalVelocityDir_length (uniforms : Uniforms) (hitAngle : R) :
  length3 (orbitalVelocityDir uniforms hitAngle)
  = Rabs (sign (diskRotationSpeed uniforms)).
Proof.
  unfold length3, orbitalVelocityDir, muls3. cbn [x3 y3 z3].
  set (s := sign (diskRotationSpeed uniforms)).
  replace (- sin hitAngle * s * (- sin hitAngle * s) + 0 * s * (0 * s)
           + cos hitAngle * s * (cos hitAngle * s))
    with (Rsqr s * (Rsqr (sin hitAngle) + Rsqr (cos hitAngle)))
    by (unfold Rsqr; ring).
  rewrite sin2_cos2, Rmult_1_r. apply sqrt_Rsqr_abs.
Qed.

Lemma sign_abs (x : R) : x <> 0 -> Rabs (sign x) = 1.
Proof.
  intros Hx. unfold sign.
  destruct (Rlt_dec 0 x); [apply Rabs_R1|].
  destruct (Rlt_dec x 0); [|lra].
  unfold Rabs. destruct (Rcase_abs (-1)); lra.
Qed.

(* ================================================================== *)
(** * Clamp and smooth threshold *)
(* ================================================================== *)

Lemma clamp_bounds (x lo hi : R) : lo <= hi -> lo <= clamp x lo hi <= hi.
Proof.
  intros H. unfold clamp, Rmin, Rmax.
  destruct (Rle_dec x lo); destruct (Rle_dec _ hi); lra.
Qed.

Lemma clamp_below (x lo hi : R) : lo <= hi -> x <= lo -> clamp x lo hi = lo.
Proof.
  intros H Hx. unfold clamp, Rmin, Rmax.
  destruct (Rle_dec x lo); destruct (Rle_dec _ hi); lra.
Qed.

Lemma clamp_above (x lo hi : R) : lo <= hi -> hi <= x -> clamp x lo hi = hi.
Proof.
  intros H Hx. unfold clamp, Rmin, Rmax.
  destruct (Rle_dec x lo); destruct (Rle_dec _ hi); lra.
Qed.

Lemma clamp_inside (x lo hi : R) : lo <= x <= hi -> clamp x lo hi = x.
Proof.
  intros H. unfold clamp, Rmin, Rmax.
  destruct (Rle_dec x lo); destruct (Rle_dec _ hi); lra.
Qed.


(** The cubic [t * t * (3 - 2 t)] is non-decreasing on [0, 1]. *)
Lemma hermite_mono (a b : R) :
  0 <= a -> a <= b -> b <= 1 ->
  a * a * (3 - 2 * a) <= b * b * (3 - 2 * b).
Proof.
  intros Ha Hab Hb.
  assert (H : b * b * (3 - 2 * b) - a * a * (3 - 2 * a)
              = (b - a) * (3 * (a + b) - 2 * (a * a + a * b + b * b)))
    by ring.
  assert (H2 : 0 <= 3 * (a + b) - 2 * (a * a + a * b + b * b)) by nra.
  assert (H3 : 0 <= (b - a) * (3 * (a + b) - 2 * (a * a + a * b + b * b)))
    by (apply Rmult_le_pos; lra).
  lra.
Qed.


Lemma smoothstep_bounds (e0 e1 x : R) : 0 <= smoothstep e0 e1 x <= 1.
Proof.
  unfold smoothstep.
  pose proof (clamp_bounds ((x - e0) / (e1 - e0)) 0 1 Rle_0_1) as Ht.
  set (t := clamp ((x - e0) / (e1 - e0)) 0 1) in *.
  pose proof (hermite_mono 0 t (proj2 (conj I (Rle_refl 0)))
                (proj1 Ht) (proj2 Ht)) as H0.
  pose proof (hermite_mono t 1 (proj1 Ht) (proj2 Ht) (Rle_refl 1)) as H1.
  lra.
Qed.

Lemma smoothstep_at_lower (e0 e1 : R) : smoothstep e0 e1 e0 = 0.
Proof.
  unfold smoothstep. replace ((e0 - e0) / (e1 - e0)) with 0
    by (unfold Rdiv; ring).
  rewrite clamp_inside by lra. ring.
Qed.

Lemma smoothstep_above (e0 e1 x : R) :
  e0 < e1 -> e1 <= x -> smoothstep e0 e1 x = 1.
Proof.
  intros He Hx. unfold smoothstep.
  assert (Hq : 1 <= (x - e0) / (e1 - e0)).
  { apply (Rmult_le_reg_r (e1 - e0)); [lra|].
    unfold Rdiv. rewrite Rmult_assoc, Rinv_l by lra. lra. }
  rewrite clamp_above by lra. ring.
Qed.

(* ================================================================== *)
(** * Adaptive step size *)
(* ================================================================== *)










(* ================================================================== *)
(** * Temperature profile *)
(* ================================================================== *)

Lemma pow_pos (x y : R) : 0 < x -> pow x y = Rpower x y.
Proof. intros H. unfold pow. destruct (Rlt_dec 0 x); [reflexivity | lra]. Qed.

Lemma pow_one (x : R) : 0 < x -> pow x 1 = x.
Proof. intros H. rewrite pow_pos by exact H. apply Rpower_1; exact H. Qed.

(** C9 does not hold of the code, and the code departs from its own
    description: its comments call the profile 'hot inner edge, cooler
    outer edge', 1500 K the 'minimum temperature at outer edge' and
    diskTemperature the 'peak temperature (in thousands of Kelvin) at
    inner edge'.  With diskTemperature = 1, the lowest value of the
    'Peak Temp (kK)' control, the inner-edge temperature (1000 K) lies
    below the fixed outer one, and the temperature rises from 1000 K at
    hitR = 3 = innerRadius to 1250 K at hitR = 6. *)
Lemma C9_temperature_rises_for_cool_peak :
  0 < temperatureFalloff coolDisk
  /\ diskInnerRadius coolDisk <= 3 /\ 3 <= 6 /\ 6 <= diskOuterRadius coolDisk
  /\ tempK coolDisk 3 = 1000
  /\ tempK coolDisk 6 = 1250
  /\ ~ (tempK coolDisk 6 <= tempK coolDisk 3).
Proof.
  assert (H3 : tempK coolDisk 3 = 1000).
  { unfold tempK, mix.
    cbn [diskInnerRadius diskTemperature temperatureFalloff coolDisk
         sampleWith].
    replace (3 / 3) with 1 by field. rewrite pow_one by lra. lra. }
  assert (H6 : tempK coolDisk 6 = 1250).
  { unfold tempK, mix.
    cbn [diskInnerRadius diskTemperature temperatureFalloff coolDisk
         sampleWith].
    rewrite pow_one by lra. lra. }
  cbn [diskInnerRadius diskOuterRadius temperatureFalloff coolDisk sampleWith].
  rewrite H3, H6. repeat split; lra.
Qed.

(** Where the profile does fall.  For a falloff exponent > 0, a positive
    inner radius and a peak temperature of at least the fixed outer
    temperature (diskTemperature * 1000 >= 1500), tempK is non-increasing
    in hitR from innerRadius outwards. *)
Lemma tempK_nonincreasing_hot_peak (uniforms : Uniforms) (h1 h2 : R) :
  0 < temperatureFalloff uniforms ->
  0 < diskInnerRadius uniforms ->
  1500 <= diskTemperature uniforms * 1000 ->
  diskInnerRadius uniforms <= h1 -> h1 <= h2 ->
  tempK uniforms h2 <= tempK uniforms h1.
Proof.
  intros Hk Hi Hp H1 H2. unfold tempK, mix.
  set (P := diskTemperature uniforms * 1000) in *.
  assert (Ha2 : 0 < diskInnerRadius uniforms / h2)
    by (apply Rdiv_lt_0_compat; lra).
  assert (Ha : diskInnerRadius uniforms / h2 <= diskInnerRadius uniforms / h1).
  { unfold Rdiv. apply Rmult_le_compat_l; [lra|].
    apply Rinv_le_contravar; lra. }
  rewrite !pow_pos by lra.
  assert (Hf : Rpower (diskInnerRadius uniforms / h2)
                      (temperatureFalloff uniforms)
               <= Rpower (diskInnerRadius uniforms / h1)
                         (temperatureFalloff uniforms))
    by (apply Rle_Rpower_l; lra).
  nra.
Qed.

Example tempK_nonincreasing_hot_peak_default :
  tempK sampleUniforms 12 <= tempK sampleUniforms 3.
Proof.
  apply tempK_nonincreasing_hot_peak;
    cbn [temperatureFalloff diskInnerRadius diskTemperature sampleUniforms
         sampleWith]; lra.
Defined.

(* ================================================================== *)
(** * The uniform object built by the simulation *)
(* ================================================================== *)

(** C10 does not hold of the code.  Whatever the configuration and the
    window size, the object built by [initializeUniforms] has no field
    [dopplerStrength], [turbulenceLacunarity] or [turbulencePersistence],
    and these are exactly the reads of the shader, all three in the disk
    shading function, that find no field. *)
Theorem C10_uniforms_missing_fields (config : JsObject)
    (innerWidth innerHeight : R) :
  let uniforms := initializeUniforms config innerWidth innerHeight in
  uniforms !! "dopplerStrength" = None
  /\ uniforms !! "turbulenceLacunarity" = None
  /\ uniforms !! "turbulencePersistence" = None
  /\ absentReads uniforms shaderReads
     = ["dopplerStrength"; "turbulenceLacunarity"; "turbulencePersistence"]
  /\ absentReads uniforms diskShadingReads
     = ["dopplerStrength"; "turbulenceLacunarity"; "turbulencePersistence"].
Proof.
  cbn zeta. repeat split; vm_compute; reflexivity.
Qed.

(* ================================================================== *)
(** * Checked division, mod and asin; the two clamps and the sign test *)
(* ================================================================== *)

Lemma divChk_nonzero (a b : R) : b <> 0 -> divChk a b = Some (a / b).
Proof.
  intros H. unfold divChk. destruct (Req_dec_T b 0); [contradiction|reflexivity].
Qed.

Lemma divChk_zero (a : R) : divChk a 0 = None.
Proof.
  unfold divChk. destruct (Req_dec_T 0 0); [reflexivity|contradiction].
Qed.

Lemma divs3Chk_nonzero (a : vec3) (s : R) :
  s <> 0 -> divs3Chk a s = Some (divs3 a s).
Proof.
  intros H. unfold divs3Chk.
  destruct (Req_dec_T s 0); [contradiction|reflexivity].
Qed.

Lemma divs3Chk_zero (a : vec3) : divs3Chk a 0 = None.
Proof.
  unfold divs3Chk. destruct (Req_dec_T 0 0); [reflexivity|contradiction].
Qed.

Lemma modChk_nonzero (x y : R) : y <> 0 -> modChk x y = Some (mod_ x y).
Proof.
  intros H. unfold modChk. destruct (Req_dec_T y 0); [contradiction|reflexivity].
Qed.

Lemma modChk_zero (x : R) : modChk x 0 = None.
Proof.
  unfold modChk. destruct (Req_dec_T 0 0); [reflexivity|contradiction].
Qed.

(** The [asin] argument is clamped into the domain. *)
Lemma asinChk_clamp (x : R) :
  asinChk (clamp x (-1) 1) = Some (asin (clamp x (-1) 1)).
Proof.
  assert (H : -1 <= clamp x (-1) 1 <= 1) by (apply clamp_bounds; lra).
  unfold asinChk.
  destruct (Rle_dec (-1) (clamp x (-1) 1)); [|lra].
  destruct (Rle_dec (clamp x (-1) 1) 1); [reflexivity|lra].
Qed.

(** The stretch denominator is clamped away from zero. *)
Lemma stretch_denominator (s : R) : 0.1 <= Rmax s 0.1.
Proof. apply Rmax_r. Qed.

(** Opposite signs of the two heights make the crossing denominator
    non-zero. *)
Lemma crossing_denominator (p c : R) : p * c < 0 -> c - p <> 0.
Proof. intros H E. assert (c = p) by lra. subst c. nra. Qed.

(* ================================================================== *)
(** * Vectors of known length; the first ray of a sample *)
(* ================================================================== *)

Lemma vec3_eq (a b : vec3) :
  x3 a = x3 b -> y3 a = y3 b -> z3 a = z3 b -> a = b.
Proof. destruct a, b. cbn [x3 y3 z3]. intros -> -> ->. reflexivity. Qed.

Lemma length3_known (v : vec3) (l : R) :
  0 <= l -> x3 v * x3 v + y3 v * y3 v + z3 v * z3 v = l * l ->
  length3 v = l.
Proof.
  intros Hl E. unfold length3. rewrite E. apply sqrt_square; exact Hl.
Qed.

Lemma initRay_zeroCycle : initRay zeroCycle (Vec2 0.5 0.125) = downwardRay.
Proof.
  unfold initRay, downwardRay.
  cbn [resolution cameraPosition cameraTarget zeroCycle sampleWith].
  assert (E1 : normalize (sub3 (Vec3 0 3 10) (Vec3 0 3 4)) = Vec3 0 0 1).
  { unfold normalize. rewrite (length3_known _ 6).
    - apply vec3_eq; cbn [x3 y3 z3 sub3 divs3]; lra.
    - lra.
    - cbn [x3 y3 z3 sub3]. ring. }
  rewrite E1.
  assert (E2 : normalize (cross (Vec3 0 1 0) (Vec3 0 0 1)) = Vec3 1 0 0).
  { unfold normalize. rewrite (length3_known _ 1).
    - apply vec3_eq; cbn [x3 y3 z3 cross divs3]; lra.
    - lra.
    - cbn [x3 y3 z3 cross]. ring. }
  rewrite E2.
  f_equal. unfold normalize. rewrite (length3_known _ 1.25).
  - apply vec3_eq;
      cbn [x2 y2 x3 y3 z3 cross divs3 add3 muls3 muls2 subs2]; lra.
  - lra.
  - cbn [x2 y2 x3 y3 z3 cross divs3 add3 muls3 muls2 subs2]. lra.
Qed.

Lemma length3_0_3_4 : length3 (Vec3 0 3 4) = 5.
Proof. apply length3_known; [lra | cbn [x3 y3 z3]; ring]. Qed.

(* ================================================================== *)
(** * Continuity of the value noise and of the turbulence *)
(* ================================================================== *)

Lemma hermite_range (f : R) : 0 <= f <= 1 -> 0 <= hermite f <= 1.
Proof.
  intros [H0 H1]. unfold hermite.
  pose proof (hermite_mono 0 f (Rle_refl 0) H0 H1).
  pose proof (hermite_mono f 1 H0 H1 (Rle_refl 1)).
  lra.
Qed.

Lemma hermite_lipschitz (a b : R) :
  0 <= a -> a <= b -> b <= 1 ->
  0 <= hermite b - hermite a <= 1.5 * (b - a).
Proof.
  intros Ha Hab Hb. unfold hermite.
  assert (H : b * b * (3 - 2 * b) - a * a * (3 - 2 * a)
              = (b - a) * (3 * (a + b) - 2 * (a * a + a * b + b * b)))
    by ring.
  rewrite H.
  assert (H2 : 0 <= 3 * (a + b) - 2 * (a * a + a * b + b * b)) by nra.
  assert (H3 : 3 * (a + b) - 2 * (a * a + a * b + b * b) <= 1.5).
  { assert (Hid : 1.5 - (3 * (a + b) - 2 * (a * a + a * b + b * b))
                  = 1.5 * Rsqr (1 - (a + b)) + 0.5 * Rsqr (a - b))
      by (unfold Rsqr; lra).
    pose proof (Rle_0_sqr (1 - (a + b))). pose proof (Rle_0_sqr (a - b)).
    lra. }
  split.
  - apply Rmult_le_pos; lra.
  - rewrite (Rmult_comm 1.5). apply Rmult_le_compat_l; lra.
Qed.

Lemma fract_range (x : R) : 0 <= fract x < 1.
Proof.
  unfold fract, floor. pose proof (Zfloor_bound x). lra.
Qed.

Lemma mix_range (a b t : R) :
  0 <= a <= 1 -> 0 <= b <= 1 -> 0 <= t <= 1 -> 0 <= mix a b t <= 1.
Proof. intros Ha Hb Ht. unfold mix. nra. Qed.

Lemma Rabs_le_bounds (a b : R) : Rabs a <= b -> - b <= a <= b.
Proof. unfold Rabs. destruct (Rcase_abs a); lra. Qed.

Lemma mix_diff (a b a' b' t E : R) :
  0 <= t <= 1 -> Rabs (a - a') <= E -> Rabs (b - b') <= E ->
  Rabs (mix a b t - mix a' b' t) <= E.
Proof.
  intros Ht Ha Hb. unfold mix.
  replace (a * (1 - t) + b * t - (a' * (1 - t) + b' * t))
    with ((a - a') * (1 - t) + (b - b') * t) by ring.
  apply Rabs_le. apply Rabs_le_bounds in Ha, Hb. nra.
Qed.

Section Interp.
Variable g : R -> R.
Hypothesis g_range : forall i, 0 <= g i <= 1.

Lemma interp_range (x : R) : 0 <= interp g x <= 1.
Proof.
  unfold interp. apply mix_range; try apply g_range.
  apply hermite_range. pose proof (fract_range x). lra.
Qed.

(** Within one cell. *)
Lemma interp_same_cell (x y : R) :
  floor x = floor y -> x <= y ->
  Rabs (interp g x - interp g y) <= 1.5 * (y - x).
Proof.
  intros Hf Hxy. unfold interp. rewrite <- Hf.
  pose proof (fract_range x) as Hx. pose proof (fract_range y) as Hy.
  assert (Hfr : fract x <= fract y) by (unfold fract; rewrite Hf; lra).
  pose proof (hermite_lipschitz (fract x) (fract y)
                (proj1 Hx) Hfr (Rlt_le _ _ (proj2 Hy))) as Hl.
  assert (Hd : fract y - fract x = y - x) by (unfold fract; rewrite Hf; ring).
  rewrite Hd in Hl.
  pose proof (g_range (floor x)) as G0.
  pose proof (g_range (floor x + 1)) as G1.
  unfold mix.
  replace (g (floor x) * (1 - hermite (fract x))
           + g (floor x + 1) * hermite (fract x)
           - (g (floor x) * (1 - hermite (fract y))
              + g (floor x + 1) * hermite (fract y)))
    with ((g (floor x) - g (floor x + 1))
          * (hermite (fract y) - hermite (fract x))) by ring.
  apply Rabs_le. nra.
Qed.

(** From a point to the upper end of its cell. *)
Lemma interp_to_upper (x : R) :
  Rabs (interp g x - g (floor x + 1)) <= 1.5 * (floor x + 1 - x).
Proof.
  unfold interp.
  pose proof (fract_range x) as Hx.
  pose proof (hermite_lipschitz (fract x) 1 (proj1 Hx)
                (Rlt_le _ _ (proj2 Hx)) (Rle_refl 1)) as Hl.
  replace (hermite 1) with 1 in Hl by (unfold hermite; ring).
  assert (Hd : 1 - fract x = floor x + 1 - x) by (unfold fract; ring).
  rewrite Hd in Hl.
  pose proof (g_range (floor x)) as G0.
  pose proof (g_range (floor x + 1)) as G1.
  unfold mix.
  replace (g (floor x) * (1 - hermite (fract x))
           + g (floor x + 1) * hermite (fract x) - g (floor x + 1))
    with ((g (floor x) - g (floor x + 1)) * (1 - hermite (fract x)))
    by ring.
  apply Rabs_le. nra.
Qed.

(** From the lower end of a cell to a point of it. *)
Lemma interp_from_lower (y : R) :
  Rabs (g (floor y) - interp g y) <= 1.5 * (y - floor y).
Proof.
  unfold interp.
  pose proof (fract_range y) as Hy.
  pose proof (hermite_lipschitz 0 (fract y) (Rle_refl 0) (proj1 Hy)
                (Rlt_le _ _ (proj2 Hy))) as Hl.
  replace (hermite 0) with 0 in Hl by (unfold hermite; ring).
  assert (Hd : fract y - 0 = y - floor y) by (unfold fract; ring).
  rewrite Hd in Hl.
  pose proof (g_range (floor y)) as G0.
  pose proof (g_range (floor y + 1)) as G1.
  unfold mix.
  replace (g (floor y)
           - (g (floor y) * (1 - hermite (fract y))
              + g (floor y + 1) * hermite (fract y)))
    with ((g (floor y) - g (floor y + 1)) * hermite (fract y)) by ring.
  apply Rabs_le. nra.
Qed.

Lemma floor_cases (x y : R) :
  x <= y -> y - x < 1 -> floor y = floor x \/ floor y = floor x + 1.
Proof.
  intros Hxy Hd. unfold floor.
  pose proof (Zfloor_bound x) as Bx. pose proof (Zfloor_bound y) as By.
  assert (Hle : (Zfloor x <= Zfloor y)%Z) by (apply Zfloor_le; exact Hxy).
  assert (Hlt : (Zfloor y < Zfloor x + 2)%Z).
  { apply lt_IZR. rewrite plus_IZR. lra. }
  assert (Hc : Zfloor y = Zfloor x \/ Zfloor y = (Zfloor x + 1)%Z) by lia.
  destruct Hc as [-> | ->]; [left; reflexivity|right].
  rewrite plus_IZR. reflexivity.
Qed.

Lemma interp_lipschitz_le (x y : R) :
  x <= y -> Rabs (interp g x - interp g y) <= 1.5 * (y - x).
Proof.
  intros Hxy.
  destruct (Rlt_dec (y - x) 1) as [Hd|Hd].
  - destruct (floor_cases x y Hxy Hd) as [E|E].
    + apply interp_same_cell; [symmetry; exact E | exact Hxy].
    + pose proof (interp_to_upper x) as H1.
      pose proof (interp_from_lower y) as H2.
      rewrite E in H2.
      replace (interp g x - interp g y)
        with ((interp g x - g (floor x + 1))
              + (g (floor x + 1) - interp g y)) by ring.
      eapply Rle_trans; [apply Rabs_triang|]. lra.
  - pose proof (interp_range x). pose proof (interp_range y).
    apply Rabs_le. lra.
Qed.

Lemma interp_lipschitz (x y : R) :
  Rabs (interp g x - interp g y) <= 1.5 * Rabs (x - y).
Proof.
  destruct (Rle_dec x y) as [H|H].
  - rewrite (Rabs_left1 (x - y)) by lra.
    replace (- (x - y)) with (y - x) by ring.
    apply interp_lipschitz_le; exact H.
  - rewrite Rabs_minus_sym. rewrite (Rabs_right (x - y)) by lra.
    apply interp_lipschitz_le; lra.
Qed.
End Interp.

Lemma interp_diff (g g' : R -> R) (x y E : R) :
  (forall i, 0 <= g i <= 1) ->
  (forall i, Rabs (g i - g' i) <= E) ->
  Rabs (interp g x - interp g' y) <= 1.5 * Rabs (x - y) + E.
Proof.
  intros Hg Hd.
  replace (interp g x - interp g' y)
    with ((interp g x - interp g y) + (interp g y - interp g' y)) by ring.
  eapply Rle_trans; [apply Rabs_triang|].
  apply Rplus_le_compat.
  - apply interp_lipschitz; exact Hg.
  - unfold interp. apply mix_diff; try apply Hd.
    apply hermite_range. pose proof (fract_range y). lra.
Qed.

Lemma hash31_range (p : vec3) : 0 <= hash31 p <= 1.
Proof.
  unfold hash31.
  pose proof (fract_range (sin (dot3 p (Vec3 127.1 311.7 74.7)) * 43758.5453)).
  lra.
Qed.

(** The value noise is the interpolation along x, then y, then z of the
    hashed lattice values. *)
Lemma noise3D_interp (p : vec3) :
  noise3D p
  = interp (fun k =>
      interp (fun j =>
        interp (fun i => hash31 (Vec3 i j k)) (x3 p)) (y3 p)) (z3 p).
Proof.
  unfold noise3D, interp, hermite.
  unfold add3, floor3, fract3, mul3, sub3, muls3. cbn [x3 y3 z3].
  rewrite !Rplus_0_r. rewrite !(Rmult_comm (fract _) 2). reflexivity.
Qed.

Lemma dist1_nonneg (p q : vec3) : 0 <= dist1 p q.
Proof.
  unfold dist1.
  pose proof (Rabs_pos (x3 p - x3 q)). pose proof (Rabs_pos (y3 p - y3 q)).
  pose proof (Rabs_pos (z3 p - z3 q)). lra.
Qed.

Lemma dist1_muls3 (p q : vec3) (l : R) :
  dist1 (muls3 p l) (muls3 q l) = Rabs l * dist1 p q.
Proof.
  unfold dist1, muls3. cbn [x3 y3 z3].
  rewrite <- !Rmult_minus_distr_r, !Rabs_mult. ring.
Qed.

Lemma noise3D_lipschitz (p q : vec3) :
  Rabs (noise3D p - noise3D q) <= 1.5 * dist1 p q.
Proof.
  rewrite !noise3D_interp. unfold dist1.
  eapply Rle_trans.
  - apply (interp_diff _ _ _ _
             (1.5 * Rabs (y3 p - y3 q) + 1.5 * Rabs (x3 p - x3 q))).
    + intros k. apply interp_range. intros j. apply interp_range.
      intros i. apply hash31_range.
    + intros k. apply interp_diff.
      * intros j. apply interp_range. intros i. apply hash31_range.
      * intros j. apply interp_lipschitz. intros i. apply hash31_range.
  - lra.
Qed.

Lemma noise3D_scaled_lipschitz (p q : vec3) (c K d : R) :
  0 <= K -> Rabs (noise3D p - noise3D q) <= K * d ->
  Rabs (noise3D p * c - noise3D q * c) <= K * Rabs c * d.
Proof.
  intros HK H. rewrite <- Rmult_minus_distr_r, Rabs_mult.
  pose proof (Rabs_pos c).
  replace (K * Rabs c * d) with (K * d * Rabs c) by ring.
  apply Rmult_le_compat_r; assumption.
Qed.

Lemma fbmLip_nonneg (l q : R) : 0 <= fbmLip l q.
Proof.
  unfold fbmLip.
  pose proof (Rabs_pos l). pose proof (Rabs_pos 0.5).
  pose proof (Rabs_pos (0.5 * q)). pose proof (Rabs_pos (0.5 * q * q)).
  pose proof (Rabs_pos (0.5 * q * q * q)).
  assert (0 <= Rabs l * Rabs l) by (apply Rmult_le_pos; assumption).
  assert (0 <= Rabs l * Rabs l * Rabs l) by (apply Rmult_le_pos; assumption).
  assert (0 <= 1.5 * Rabs l * Rabs (0.5 * q)) by
    (apply Rmult_le_pos; [lra|assumption]).
  assert (0 <= 1.5 * Rabs l * Rabs l * Rabs (0.5 * q * q)).
  { apply Rmult_le_pos; [|assumption]. lra. }
  assert (0 <= 1.5 * Rabs l * Rabs l * Rabs l * Rabs (0.5 * q * q * q)).
  { apply Rmult_le_pos; [|assumption]. lra. }
  lra.
Qed.

Lemma fbm_lipschitz (p p' : vec3) (l q : R) :
  Rabs (fbm p l q - fbm p' l q) <= fbmLip l q * dist1 p p'.
Proof.
  unfold fbm, fbmLip.
  set (d := dist1 p p').
  pose proof (Rabs_pos l) as Hl.
  assert (H0 : Rabs (noise3D p - noise3D p') <= 1.5 * d)
    by apply noise3D_lipschitz.
  assert (H1 : Rabs (noise3D (muls3 p l) - noise3D (muls3 p' l))
               <= 1.5 * Rabs l * d).
  { eapply Rle_trans; [apply noise3D_lipschitz|].
    rewrite dist1_muls3. fold d. lra. }
  assert (H2 : Rabs (noise3D (muls3 (muls3 p l) l)
                     - noise3D (muls3 (muls3 p' l) l))
               <= 1.5 * Rabs l * Rabs l * d).
  { eapply Rle_trans; [apply noise3D_lipschitz|].
    rewrite !dist1_muls3. fold d. lra. }
  assert (H3 : Rabs (noise3D (muls3 (muls3 (muls3 p l) l) l)
                     - noise3D (muls3 (muls3 (muls3 p' l) l) l))
               <= 1.5 * Rabs l * Rabs l * Rabs l * d).
  { eapply Rle_trans; [apply noise3D_lipschitz|].
    rewrite !dist1_muls3. fold d. lra. }
  assert (Hl2 : 0 <= Rabs l * Rabs l) by (apply Rmult_le_pos; assumption).
  assert (Hl3 : 0 <= Rabs l * Rabs l * Rabs l)
    by (apply Rmult_le_pos; assumption).
  apply (noise3D_scaled_lipschitz _ _ 0.5) in H0; [|lra].
  apply (noise3D_scaled_lipschitz _ _ (0.5 * q)) in H1; [|lra].
  apply (noise3D_scaled_lipschitz _ _ (0.5 * q * q)) in H2; [|lra].
  apply (noise3D_scaled_lipschitz _ _ (0.5 * q * q * q)) in H3; [|lra].
  match goal with |- Rabs ?e <= _ =>
    replace e with
      ((noise3D p * 0.5 - noise3D p' * 0.5)
       + (noise3D (muls3 p l) * (0.5 * q)
          - noise3D (muls3 p' l) * (0.5 * q))
       + (noise3D (muls3 (muls3 p l) l) * (0.5 * q * q)
          - noise3D (muls3 (muls3 p' l) l) * (0.5 * q * q))
       + (noise3D (muls3 (muls3 (muls3 p l) l) l) * (0.5 * q * q * q)
          - noise3D (muls3 (muls3 (muls3 p' l) l) l) * (0.5 * q * q * q)))
      by ring
  end.
  eapply Rle_trans; [apply Rabs_4|]. lra.
Qed.

Lemma sin_abs_le (x : R) : Rabs (sin x) <= Rabs x.
Proof.
  assert (Hpos : forall y, 0 < y -> Rabs (sin y) <= y).
  { intros y Hy. apply Rabs_le. split.
    - destruct (Rle_dec 1 y) as [H1|H1].
      + pose proof (SIN_bound y). lra.
      + assert (0 < sin y).
        { apply sin_gt_0; [exact Hy|]. pose proof PI2_3_2. lra. }
        lra.
    - left. apply sin_lt_x; exact Hy. }
  destruct (Rtotal_order x 0) as [H|[H|H]].
  - rewrite <- (Ropp_involutive x) at 1. rewrite sin_neg, Rabs_Ropp.
    rewrite (Rabs_left x) by exact H. apply Hpos. lra.
  - subst x. rewrite sin_0. lra.
  - rewrite (Rabs_right x) by lra. apply Hpos; exact H.
Qed.

Lemma cos_lipschitz (a b : R) : Rabs (cos a - cos b) <= Rabs (a - b).
Proof.
  rewrite form2. rewrite !Rabs_mult.
  pose proof (sin_abs_le ((a - b) / 2)) as H1.
  assert (H2 : Rabs (sin ((a + b) / 2)) <= 1).
  { apply Rabs_le. pose proof (SIN_bound ((a + b) / 2)). lra. }
  assert (H3 : Rabs ((a - b) / 2) = Rabs (a - b) / 2).
  { unfold Rdiv. rewrite Rabs_mult. rewrite (Rabs_right (/ 2)) by lra.
    reflexivity. }
  rewrite H3 in H1.
  assert (H4 : Rabs (-2) = 2) by (rewrite Rabs_left; lra).
  rewrite H4.
  pose proof (Rabs_pos (sin ((a - b) / 2))).
  pose proof (Rabs_pos (sin ((a + b) / 2))).
  pose proof (Rabs_pos (a - b)).
  nra.
Qed.

Lemma sin_lipschitz (a b : R) : Rabs (sin a - sin b) <= Rabs (a - b).
Proof.
  rewrite form4. rewrite !Rabs_mult.
  pose proof (sin_abs_le ((a - b) / 2)) as H1.
  assert (H2 : Rabs (cos ((a + b) / 2)) <= 1).
  { apply Rabs_le. pose proof (COS_bound ((a + b) / 2)). lra. }
  assert (H3 : Rabs ((a - b) / 2) = Rabs (a - b) / 2).
  { unfold Rdiv. rewrite Rabs_mult. rewrite (Rabs_right (/ 2)) by lra.
    reflexivity. }
  rewrite H3 in H1.
  assert (H4 : Rabs 2 = 2) by (rewrite Rabs_right; lra).
  rewrite H4.
  pose proof (Rabs_pos (sin ((a - b) / 2))).
  pose proof (Rabs_pos (cos ((a + b) / 2))).
  pose proof (Rabs_pos (a - b)).
  nra.
Qed.

Lemma coordLip_nonneg (uniforms : Uniforms) (hitR : R) :
  0 <= coordLip uniforms hitR.
Proof.
  unfold coordLip.
  pose proof (stretch_denominator (turbulenceStretch uniforms)) as Hd.
  pose proof (Rabs_pos (diskRotationSpeed uniforms / pow hitR 1.5)) as Hw.
  assert (0 <= Rabs (diskRotationSpeed uniforms / pow hitR 1.5)
               / Rmax (turbulenceStretch uniforms) 0.1).
  { apply Rmult_le_pos; [exact Hw|]. left. apply Rinv_0_lt_compat. lra. }
  lra.
Qed.

Lemma noiseCoord_lipschitz (uniforms : Uniforms) (hitR hitAngle s s' : R) :
  dist1 (noiseCoord uniforms hitR hitAngle s)
        (noiseCoord uniforms hitR hitAngle s')
  <= coordLip uniforms hitR * Rabs (s - s').
Proof.
  unfold dist1, noiseCoord, coordLip. cbn [x3 y3 z3].
  set (d := Rmax (turbulenceStretch uniforms) 0.1).
  set (v := diskRotationSpeed uniforms).
  set (P := pow hitR 1.5).
  assert (Hd : 0 < d)
    by (pose proof (stretch_denominator (turbulenceStretch uniforms));
        unfold d; lra).
  assert (Hth : Rabs ((hitAngle + s * v / P) - (hitAngle + s' * v / P))
                = Rabs (v / P) * Rabs (s - s')).
  { rewrite <- Rabs_mult. f_equal. unfold Rdiv. ring. }
  assert (Hq : forall a b, Rabs (a / d - b / d) = Rabs (a - b) / d).
  { intros a b. unfold Rdiv. rewrite <- Rmult_minus_distr_r, Rabs_mult.
    rewrite (Rabs_right (/ d)); [reflexivity|].
    left. apply Rinv_0_lt_compat; exact Hd. }
  rewrite !Hq.
  replace (hitR * turbulenceScale uniforms - hitR * turbulenceScale uniforms)
    with 0 by ring.
  rewrite Rabs_R0.
  pose proof (cos_lipschitz (hitAngle + s * v / P) (hitAngle + s' * v / P))
    as Hc.
  pose proof (sin_lipschitz (hitAngle + s * v / P) (hitAngle + s' * v / P))
    as Hs.
  rewrite Hth in Hc, Hs.
  set (W := Rabs (v / P) * Rabs (s - s')) in *.
  assert (Hc' : Rabs (cos (hitAngle + s * v / P)
                      - cos (hitAngle + s' * v / P)) / d <= W / d).
  { unfold Rdiv. apply Rmult_le_compat_r; [|exact Hc].
    left. apply Rinv_0_lt_compat; exact Hd. }
  assert (Hs' : Rabs (sin (hitAngle + s * v / P)
                      - sin (hitAngle + s' * v / P)) / d <= W / d).
  { unfold Rdiv. apply Rmult_le_compat_r; [|exact Hs].
    left. apply Rinv_0_lt_compat; exact Hd. }
  replace (2 * (Rabs (v / P) / d) * Rabs (s - s')) with (W / d + W / d)
    by (unfold W, Rdiv; ring).
  lra.
Qed.

Lemma sampleLip_nonneg (uniforms : Uniforms) (hitR : R) :
  0 <= sampleLip uniforms hitR.
Proof.
  unfold sampleLip. apply Rmult_le_pos;
    [apply fbmLip_nonneg | apply coordLip_nonneg].
Qed.

Lemma sample_lipschitz (uniforms : Uniforms) (hitR hitAngle s s' : R) :
  Rabs (sample uniforms hitR hitAngle s - sample uniforms hitR hitAngle s')
  <= sampleLip uniforms hitR * Rabs (s - s').
Proof.
  unfold sample, sampleLip.
  eapply Rle_trans; [apply fbm_lipschitz|].
  rewrite Rmult_assoc. apply Rmult_le_compat_l; [apply fbmLip_nonneg|].
  apply noiseCoord_lipschitz.
Qed.

Lemma turbulence_samples (uniforms : Uniforms) (hitR hitAngle t : R) :
  turbulence uniforms hitR hitAngle t
  = let T := turbulenceCycleTime uniforms in
    let c := mod_ t T in
    mix (sample uniforms hitR hitAngle (c + T))
        (sample uniforms hitR hitAngle c) (c / T).
Proof. reflexivity. Qed.

Lemma mod_in_cycle (T t : R) (k : Z) :
  0 < T -> IZR k * T <= t < (IZR k + 1) * T -> mod_ t T = t - IZR k * T.
Proof.
  intros HT [H1 H2]. unfold mod_, floor.
  assert (Hq : IZR k <= t / T < IZR k + 1).
  { split.
    - apply (Rmult_le_reg_r T); [exact HT|].
      unfold Rdiv. rewrite Rmult_assoc, Rinv_l by lra. lra.
    - apply (Rmult_lt_reg_r T); [exact HT|].
      unfold Rdiv. rewrite Rmult_assoc, Rinv_l by lra. lra. }
  rewrite (Zfloor_eq k _ Hq). ring.
Qed.

(** On the cycle that ends at the boundary [b] and on the one that
    starts there, the blended value stays within [2 L |t - b|] of the
    value at the boundary. *)
Lemma turbulence_near_boundary (uniforms : Uniforms) (hitR hitAngle t : R)
    (k : Z) :
  let T := turbulenceCycleTime uniforms in
  0 < T -> IZR k * T - T <= t < IZR k * T + T ->
  Rabs (turbulence uniforms hitR hitAngle t
        - turbulence uniforms hitR hitAngle (IZR k * T))
  <= 2 * sampleLip uniforms hitR * Rabs (t - IZR k * T).
Proof.
  intros T HT Ht.
  pose proof (sampleLip_nonneg uniforms hitR) as HL.
  set (L := sampleLip uniforms hitR) in *.
  set (F := sample uniforms hitR hitAngle).
  assert (Hb : turbulence uniforms hitR hitAngle (IZR k * T) = F (0 + T)).
  { rewrite turbulence_samples. cbn zeta. fold T.
    rewrite (mod_in_cycle T (IZR k * T) k HT) by lra.
    replace (IZR k * T - IZR k * T) with 0 by ring.
    fold F. unfold mix, Rdiv. ring. }
  rewrite Hb.
  assert (HF : forall a b, Rabs (F a - F b) <= L * Rabs (a - b))
    by (intros a b; apply sample_lipschitz).
  assert (HTi : 0 < / T) by (apply Rinv_0_lt_compat; exact HT).
  destruct (Rlt_dec t (IZR k * T)) as [Hlt|Hge].
  - (* the cycle before the boundary *)
    set (c := t - IZR (k - 1) * T).
    assert (Hc : mod_ t T = c).
    { apply mod_in_cycle; [exact HT|]. rewrite minus_IZR. lra. }
    assert (Hc0 : 0 <= c < T) by (unfold c; rewrite minus_IZR; lra).
    rewrite turbulence_samples. cbn zeta. fold T. rewrite Hc. fold F.
    assert (He : Rabs (t - IZR k * T) = T - c).
    { rewrite Rabs_left by lra. unfold c. rewrite minus_IZR. ring. }
    rewrite He.
    pose proof (HF (c + T) (0 + T)) as H1.
    pose proof (HF c (0 + T)) as H2.
    replace (c + T - (0 + T)) with c in H1 by ring.
    rewrite (Rabs_right c) in H1 by lra.
    replace (c - (0 + T)) with (- (T - c)) in H2 by ring.
    rewrite Rabs_Ropp, (Rabs_right (T - c)) in H2 by lra.
    set (w := c / T).
    assert (Hw : 0 <= w < 1).
    { unfold w, Rdiv. split; [apply Rmult_le_pos; lra|].
      apply (Rmult_lt_reg_r T); [exact HT|].
      rewrite Rmult_assoc, Rinv_l by lra. lra. }
    assert (Hcw : c = w * T) by (unfold w, Rdiv; field; lra).
    unfold mix.
    replace (F (c + T) * (1 - w) + F c * w - F (0 + T))
      with ((F (c + T) - F (0 + T)) * (1 - w) + (F c - F (0 + T)) * w)
      by ring.
    apply Rabs_le_bounds in H1, H2. apply Rabs_le.
    assert (Hp1 : L * c * (1 - w) <= L * (T - c)).
    { rewrite Hcw. replace (L * (w * T) * (1 - w)) with (w * (L * T * (1 - w)))
        by ring.
      replace (L * (T - w * T)) with (1 * (L * T * (1 - w))) by ring.
      apply Rmult_le_compat_r; [|lra].
      apply Rmult_le_pos; [apply Rmult_le_pos; lra|lra]. }
    assert (Hp2 : L * (T - c) * w <= L * (T - c)).
    { replace (L * (T - c)) with (L * (T - c) * 1) at 2 by ring.
      apply Rmult_le_compat_l; [apply Rmult_le_pos; lra|lra]. }
    assert (Hx1 : - (L * c * (1 - w)) <= (F (c + T) - F (0 + T)) * (1 - w)
                  <= L * c * (1 - w)) by nra.
    assert (Hx2 : - (L * (T - c) * w) <= (F c - F (0 + T)) * w
                  <= L * (T - c) * w) by nra.
    lra.
  - (* the cycle after the boundary *)
    set (c := t - IZR k * T).
    assert (Hc : mod_ t T = c) by (apply mod_in_cycle; [exact HT|lra]).
    assert (Hc0 : 0 <= c < T) by (unfold c; lra).
    rewrite turbulence_samples. cbn zeta. fold T. rewrite Hc. fold F.
    fold c. rewrite (Rabs_right c) by lra.
    pose proof (HF (c + T) (0 + T)) as H1.
    pose proof (HF c (0 + T)) as H2.
    replace (c + T - (0 + T)) with c in H1 by ring.
    rewrite (Rabs_right c) in H1 by lra.
    replace (c - (0 + T)) with (- (T - c)) in H2 by ring.
    rewrite Rabs_Ropp, (Rabs_right (T - c)) in H2 by lra.
    set (w := c / T).
    assert (Hw : 0 <= w < 1).
    { unfold w, Rdiv. split; [apply Rmult_le_pos; lra|].
      apply (Rmult_lt_reg_r T); [exact HT|].
      rewrite Rmult_assoc, Rinv_l by lra. lra. }
    assert (Hcw : c = w * T) by (unfold w, Rdiv; field; lra).
    unfold mix.
    replace (F (c + T) * (1 - w) + F c * w - F (0 + T))
      with ((F (c + T) - F (0 + T)) * (1 - w) + (F c - F (0 + T)) * w)
      by ring.
    apply Rabs_le_bounds in H1, H2. apply Rabs_le.
    assert (Hp1 : L * c * (1 - w) <= L * c).
    { replace (L * c) with (L * c * 1) at 2 by ring.
      apply Rmult_le_compat_l; [apply Rmult_le_pos; lra|lra]. }
    assert (Hp2 : L * (T - c) * w <= L * c).
    { rewrite Hcw. replace (L * (T - w * T) * w) with ((1 - w) * (L * T * w))
        by ring.
      replace (L * (w * T)) with (1 * (L * T * w)) by ring.
      apply Rmult_le_compat_r; [|lra].
      apply Rmult_le_pos; [apply Rmult_le_pos; lra|lra]. }
    assert (Hx1 : - (L * c * (1 - w)) <= (F (c + T) - F (0 + T)) * (1 - w)
                  <= L * c * (1 - w)) by nra.
    assert (Hx2 : - (L * (T - c) * w) <= (F c - F (0 + T)) * w
                  <= L * (T - c) * w) by nra.
    lra.
Qed.

(** C8.  For a positive cycle time, every hit radius and hit angle and
    every integer k >= 0, the blended turbulence is continuous at
    time = k * cycleTime: as time approaches the boundary from below (and
    also from above) the blended value converges to its value at the
    boundary. *)
Theorem C8_cyclic_continuity (uniforms : Uniforms) (hitR hitAngle : R)
    (k : nat) :
  0 < turbulenceCycleTime uniforms ->
  let T := turbulenceCycleTime uniforms in
  forall eps, 0 < eps ->
  exists delta, 0 < delta
    /\ (forall t, INR k * T - delta < t < INR k * T ->
          Rabs (turbulence uniforms hitR hitAngle t
                - turbulence uniforms hitR hitAngle (INR k * T)) < eps)
    /\ (forall t, INR k * T < t < INR k * T + delta ->
          Rabs (turbulence uniforms hitR hitAngle t
                - turbulence uniforms hitR hitAngle (INR k * T)) < eps).
Proof.
  intros HT T eps Heps.
  pose proof (sampleLip_nonneg uniforms hitR) as HL.
  set (L := sampleLip uniforms hitR) in *.
  set (d := eps / (2 * L + 1)).
  assert (Hd : 0 < d) by (apply Rdiv_lt_0_compat; lra).
  assert (Hbound : forall t, Rabs (t - INR k * T) < Rmin T d ->
            Rabs (turbulence uniforms hitR hitAngle t
                  - turbulence uniforms hitR hitAngle (INR k * T)) < eps).
  { intros t Ht.
    pose proof (Rmin_l T d) as Hm1. pose proof (Rmin_r T d) as Hm2.
    assert (Ht' : - Rmin T d < t - INR k * T < Rmin T d).
    { unfold Rabs in Ht. destruct (Rcase_abs (t - INR k * T)); lra. }
    rewrite INR_IZR_INZ in *.
    eapply Rle_lt_trans.
    - apply turbulence_near_boundary; [exact HT|]. fold T. lra.
    - fold L. fold T.
      assert (Hlt : Rabs (t - IZR (Z.of_nat k) * T) < d) by lra.
      assert (He : eps = (2 * L + 1) * d) by (unfold d; field; lra).
      pose proof (Rabs_pos (t - IZR (Z.of_nat k) * T)).
      rewrite He. nra. }
  exists (Rmin T d). split; [apply Rmin_glb_lt; assumption|].
  split; intros t Ht; apply Hbound.
  - rewrite Rabs_left by lra. lra.
  - rewrite Rabs_right by lra. lra.
Qed.

Lemma C8_cyclic_continuity_witness :
  exists delta, 0 < delta
    /\ (forall t, INR 2 * turbulenceCycleTime sampleUniforms - delta < t
                  < INR 2 * turbulenceCycleTime sampleUniforms ->
          Rabs (turbulence sampleUniforms 5 0 t
                - turbulence sampleUniforms 5 0
                    (INR 2 * turbulenceCycleTime sampleUniforms)) < 1)
    /\ (forall t, INR 2 * turbulenceCycleTime sampleUniforms < t
                  < INR 2 * turbulenceCycleTime sampleUniforms + delta ->
          Rabs (turbulence sampleUniforms 5 0 t
                - turbulence sampleUniforms 5 0
                    (INR 2 * turbulenceCycleTime sampleUniforms)) < 1).
Proof.
  assert (HT : 0 < turbulenceCycleTime sampleUniforms)
    by (cbn [turbulenceCycleTime sampleUniforms sampleWith]; lra).
  exact (C8_cyclic_continuity sampleUniforms 5 0 2 HT 1 Rlt_0_1).
Defined.

(* ================================================================== *)
(** * Hashes and noise: ranges *)
(* ================================================================== *)

(* ---------------- noise ---------------- *)
Lemma hash21_range (p : vec2) : 0 <= hash21 p < 1.
Proof. unfold hash21. apply fract_range. Qed.

Lemma hash22_range (p : vec2) :
  0 <= x2 (hash22 p) < 1 /\ 0 <= y2 (hash22 p) < 1.
Proof. unfold hash22. cbn [x2 y2]. split; apply fract_range. Qed.

(** X1.  Every hash value lies in [0, 1). *)
Theorem X1_hash_values_in_unit_interval :
  (forall p, 0 <= hash21 p < 1)
  /\ (forall p, 0 <= hash31 p < 1)
  /\ (forall p, 0 <= x2 (hash22 p) < 1 /\ 0 <= y2 (hash22 p) < 1).
Proof.
  split; [apply hash21_range|]. split; [|apply hash22_range].
  intros p. unfold hash31. apply fract_range.
Qed.

Lemma floor_IZR (n : Z) : floor (IZR n) = IZR n.
Proof. unfold floor. rewrite ZfloorZ. reflexivity. Qed.

Lemma interp_at_integer (g : R -> R) (n : Z) : interp g (IZR n) = g (IZR n).
Proof.
  unfold interp, fract. rewrite floor_IZR.
  replace (IZR n - IZR n) with 0 by ring.
  unfold hermite, mix. ring.
Qed.

Lemma noise3D_range (p : vec3) : 0 <= noise3D p <= 1.
Proof.
  rewrite noise3D_interp. apply interp_range. intros k.
  apply interp_range. intros j. apply interp_range. intros i.
  apply hash31_range.
Qed.

(** X2.  The value noise stays in [0, 1]; at a point with integer
    coordinates it is the hash of that point; and it has no jump, inside
    a cell or across cell boundaries: it changes by at most 1.5 times the
    sum of the coordinate differences. *)
Theorem X2_noise3D_range_lattice_lipschitz (p q : vec3) (i j k : Z) :
  0 <= noise3D p <= 1
  /\ noise3D (Vec3 (IZR i) (IZR j) (IZR k))
     = hash31 (Vec3 (IZR i) (IZR j) (IZR k))
  /\ Rabs (noise3D p - noise3D q)
     <= 1.5 * (Rabs (x3 p - x3 q) + Rabs (y3 p - y3 q) + Rabs (z3 p - z3 q)).
Proof.
  split; [apply noise3D_range|]. split; [|apply (noise3D_lipschitz p q)].
  rewrite noise3D_interp. cbn [x3 y3 z3].
  rewrite !interp_at_integer. reflexivity.
Qed.

Lemma fbm_expand (p : vec3) (l q : R) :
  fbm p l q
  = noise3D p * 0.5
    + noise3D (muls3 p l) * (0.5 * q)
    + noise3D (muls3 (muls3 p l) l) * (0.5 * q * q)
    + noise3D (muls3 (muls3 (muls3 p l) l) l) * (0.5 * q * q * q).
Proof. unfold fbm. ring. Qed.

Lemma fbm_bounds (p : vec3) (l q : R) :
  0 <= q -> 0 <= fbm p l q <= 0.5 * (1 + q + q * q + q * q * q).
Proof.
  intros Hq. rewrite fbm_expand.
  pose proof (noise3D_range p) as H0.
  pose proof (noise3D_range (muls3 p l)) as H1.
  pose proof (noise3D_range (muls3 (muls3 p l) l)) as H2.
  pose proof (noise3D_range (muls3 (muls3 (muls3 p l) l) l)) as H3.
  assert (Hq2 : 0 <= q * q) by (apply Rmult_le_pos; lra).
  assert (Hq3 : 0 <= q * q * q) by (apply Rmult_le_pos; lra).
  assert (A1 : 0 <= noise3D (muls3 p l) * (0.5 * q) <= 0.5 * q) by nra.
  assert (A2 : 0 <= noise3D (muls3 (muls3 p l) l) * (0.5 * q * q)
               <= 0.5 * (q * q)) by nra.
  assert (A3 : 0 <= noise3D (muls3 (muls3 (muls3 p l) l) l)
                    * (0.5 * q * q * q) <= 0.5 * (q * q * q)) by nra.
  lra.
Qed.

(** X4.  For a non-negative persistence the four octaves add up to a
    value between 0 and 0.5 (1 + q + q^2 + q^3); with the constants of the
    nebula layers (lacunarity 2, persistence 0.5) that is [0, 0.9375]. *)
Theorem X4_fbm_bounds (p : vec3) (lacunarity persistence : R) :
  0 <= persistence ->
  0 <= fbm p lacunarity persistence
    <= 0.5 * (1 + persistence + persistence * persistence
              + persistence * persistence * persistence)
  /\ 0 <= fbm p 2 0.5 <= 0.9375.
Proof.
  intros Hq. split; [apply fbm_bounds; exact Hq|].
  pose proof (fbm_bounds p 2 0.5). lra.
Qed.

Lemma X4_fbm_bounds_witness : 0 <= fbm (Vec3 0 0 0) 2 0.5 <= 0.9375.
Proof.
  assert (H : 0 <= 0.5) by lra.
  exact (proj2 (X4_fbm_bounds (Vec3 0 0 0) 2 0.5 H)).
Defined.

(* ================================================================== *)
(** * Background: bounds *)
(* ================================================================== *)

(* ---------------- nebula ---------------- *)
Lemma nebula_component (c1 b1 l1 c2 b2 l2 : R) :
  0 <= c1 -> 0 <= b1 -> 0 <= l1 <= 1 ->
  0 <= c2 -> 0 <= b2 -> 0 <= l2 <= 1 ->
  0 <= c1 * l1 * b1 + c2 * l2 * b2 <= c1 * b1 + c2 * b2.
Proof.
  intros. assert (0 <= c1 * b1) by (apply Rmult_le_pos; lra).
  assert (0 <= c2 * b2) by (apply Rmult_le_pos; lra).
  replace (c1 * l1 * b1) with (c1 * b1 * l1) by ring.
  replace (c2 * l2 * b2) with (c2 * b2 * l2) by ring.
  nra.
Qed.

(** X5.  With non-negative layer colours and brightnesses, every channel
    of the nebula lies between 0 and the sum of the two layers at full
    density, colour1 * brightness1 + colour2 * brightness2. *)
Theorem X5_nebula_bounds (uniforms : Uniforms) (rayDir : vec3) :
  nonneg3 (nebula1Color uniforms) -> nonneg3 (nebula2Color uniforms) ->
  0 <= nebula1Brightness uniforms -> 0 <= nebula2Brightness uniforms ->
  nonneg3 (createNebulaField uniforms rayDir)
  /\ le3 (createNebulaField uniforms rayDir)
         (add3 (muls3 (nebula1Color uniforms) (nebula1Brightness uniforms))
               (muls3 (nebula2Color uniforms) (nebula2Brightness uniforms))).
Proof.
  intros (C1x & C1y & C1z) (C2x & C2y & C2z) B1 B2.
  unfold createNebulaField, nonneg3, le3, add3, muls3. cbn [x3 y3 z3].
  set (l1 := clamp _ 0 1). set (l2 := clamp _ 0 1).
  assert (H1 : 0 <= l1 <= 1) by (apply clamp_bounds; lra).
  assert (H2 : 0 <= l2 <= 1) by (apply clamp_bounds; lra).
  pose proof (nebula_component _ _ _ _ _ _ C1x B1 H1 C2x B2 H2).
  pose proof (nebula_component _ _ _ _ _ _ C1y B1 H1 C2y B2 H2).
  pose proof (nebula_component _ _ _ _ _ _ C1z B1 H1 C2z B2 H2).
  repeat split; lra.
Qed.

Lemma X5_nebula_bounds_witness :
  nonneg3 (createNebulaField sampleUniforms (Vec3 0 0 1)).
Proof.
  refine (proj1 (X5_nebula_bounds sampleUniforms (Vec3 0 0 1) _ _ _ _));
    unfold nonneg3;
    cbn [nebula1Color nebula2Color nebula1Brightness nebula2Brightness
         sampleUniforms sampleWith x3 y3 z3]; lra.
Defined.

(* ---------------- stars ---------------- *)
Lemma step_zero_below (edge x : R) : x < edge -> step edge x = 0.
Proof. intros H. unfold step. destruct (Rle_dec edge x); [lra|reflexivity]. Qed.

Lemma step_range (edge x : R) : 0 <= step edge x <= 1.
Proof. unfold step. destruct (Rle_dec edge x); lra. Qed.

(** X6.  With a star density of 0 or less no cell holds a star: the star
    field is black in every direction. *)
Theorem X6_no_stars_without_density (uniforms : Uniforms) (rayDir : vec3) :
  starDensity uniforms <= 0 ->
  createStarField uniforms rayDir = Vec3 0 0 0.
Proof.
  intros Hd. unfold createStarField.
  set (cell := floor2 _).
  pose proof (hash21_range cell) as Hh.
  rewrite (step_zero_below (1 - starDensity uniforms) (hash21 cell)) by lra.
  unfold muls3, mix3. cbn [x3 y3 z3]. apply vec3_eq; cbn [x3 y3 z3]; ring.
Qed.

Lemma X6_no_stars_without_density_witness :
  createStarField noStars (Vec3 0 0 1) = Vec3 0 0 0.
Proof.
  apply X6_no_stars_without_density. cbn [starDensity noStars]. lra.
Defined.

Lemma mix_between (a b t lo hi : R) :
  lo <= a <= hi -> lo <= b <= hi -> 0 <= t <= 1 -> lo <= mix a b t <= hi.
Proof. intros Ha Hb Ht. unfold mix. nra. Qed.

(** X7.  For a non-negative star brightness every channel of the star
    field lies between 0 and 1.3 times the brightness (core 1 plus glow
    0.3, colour channels at most 1). *)
Theorem X7_star_field_bounds (uniforms : Uniforms) (rayDir : vec3) :
  0 <= starBrightness uniforms ->
  nonneg3 (createStarField uniforms rayDir)
  /\ le3 (createStarField uniforms rayDir)
         (Vec3 (1.3 * starBrightness uniforms) (1.3 * starBrightness uniforms)
               (1.3 * starBrightness uniforms)).
Proof.
  intros Hb. unfold createStarField.
  set (cell := floor2 _).
  set (core := smoothstep _ 0 _).
  set (glow := smoothstep _ 0 _).
  set (prob := step _ _).
  set (ct := hash21 (adds2 cell 200)).
  pose proof (smoothstep_bounds _ _ _ : 0 <= core <= 1) as Hc.
  pose proof (smoothstep_bounds _ _ _ : 0 <= glow <= 1) as Hg.
  pose proof (step_range _ _ : 0 <= prob <= 1) as Hp.
  pose proof (hash21_range (adds2 cell 200)) as Ht. fold ct in Ht.
  assert (Hi : 0 <= (core + glow * 0.3) * prob <= 1.3) by nra.
  set (I := (core + glow * 0.3) * prob) in *.
  assert (Ht' : 0 <= ct <= 1) by lra.
  pose proof (mix_between 0.8 1 ct 0.8 1 ltac:(lra) ltac:(lra) Ht') as Mx.
  pose proof (mix_between 0.9 0.95 ct 0.8 1 ltac:(lra) ltac:(lra) Ht') as My.
  pose proof (mix_between 1 0.8 ct 0.8 1 ltac:(lra) ltac:(lra) Ht') as Mz.
  unfold nonneg3, le3, muls3, mix3. cbn [x3 y3 z3].
  set (b := starBrightness uniforms) in *.
  assert (P : forall m, 0.8 <= m <= 1 -> 0 <= m * I * b <= 1.3 * b).
  { intros m Hm. assert (0 <= m * I <= 1.3) by nra. nra. }
  pose proof (P _ Mx). pose proof (P _ My). pose proof (P _ Mz).
  repeat split; lra.
Qed.

Lemma X7_star_field_bounds_witness :
  nonneg3 (createStarField sampleUniforms (Vec3 0 0 1)).
Proof.
  refine (proj1 (X7_star_field_bounds sampleUniforms (Vec3 0 0 1) _)).
  cbn [starBrightness sampleUniforms sampleWith]. lra.
Defined.

(* ================================================================== *)
(** * Disk shading: ranges and the neutral Doppler factor *)
(* ================================================================== *)

(* ---------------- blackbody ---------------- *)
Lemma Rmax_0_range (x : R) : x <= 1 -> 0 <= Rmax x 0 <= 1.
Proof. intros H. unfold Rmax. destruct (Rle_dec x 0); lra. Qed.

(** X8.  The blackbody colour has red in [0.5, 1] and green and blue in
    [0, 1]; at 1000 K and below it is pure red (1, 0, 0) and at 10000 K
    and above it is (0.6, 0.91, 1). *)
Theorem X8_blackbody_range_and_ends (tempK : R) :
  (0.5 <= x3 (blackbodyColor tempK) <= 1
   /\ 0 <= y3 (blackbodyColor tempK) <= 1
   /\ 0 <= z3 (blackbodyColor tempK) <= 1)
  /\ (tempK <= 1000 -> blackbodyColor tempK = Vec3 1 0 0)
  /\ (10000 <= tempK -> blackbodyColor tempK = Vec3 0.6 0.91 1).
Proof.
  unfold blackbodyColor. cbn [x3 y3 z3].
  set (t := clamp ((tempK - 1000) / 9000) 0 1).
  assert (Ht : 0 <= t <= 1) by (apply clamp_bounds; lra).
  split; [|split].
  - pose proof (clamp_bounds (1 - (t - 0.8) * 2) 0.5 1 ltac:(lra)).
    pose proof (smoothstep_bounds 0 0.5 t) as Hg.
    pose proof (smoothstep_bounds 0.3 1 t) as Hb.
    pose proof (Rmax_0_range ((t - 0.7) * 0.3) ltac:(lra)) as Hm.
    repeat split; try lra; nra.
  - intros Hc.
    assert (E : t = 0) by (unfold t; apply clamp_below; lra).
    rewrite E.
    rewrite (clamp_above (1 - (0 - 0.8) * 2) 0.5 1) by lra.
    rewrite smoothstep_at_lower.
    apply vec3_eq; cbn [x3 y3 z3]; ring.
  - intros Hh.
    assert (E : t = 1) by (unfold t; apply clamp_above; lra).
    rewrite E.
    rewrite (clamp_inside (1 - (1 - 0.8) * 2) 0.5 1) by lra.
    rewrite !smoothstep_above by lra.
    assert (Em : Rmax ((1 - 0.7) * 0.3) 0 = 0.09).
    { unfold Rmax. destruct (Rle_dec ((1 - 0.7) * 0.3) 0); lra. }
    rewrite Em. apply vec3_eq; cbn [x3 y3 z3]; lra.
Qed.

(* ---------------- edge falloff and opacity ---------------- *)
Lemma edgeFalloff_range (uniforms : Uniforms) (hitR : R) :
  0 <= edgeFalloff uniforms hitR <= 1.
Proof.
  unfold edgeFalloff.
  pose proof (smoothstep_bounds 0 (diskEdgeSoftnessInner uniforms)
    (clamp ((hitR - diskInnerRadius uniforms)
            / (diskOuterRadius uniforms - diskInnerRadius uniforms)) 0 1)).
  pose proof (smoothstep_bounds 1 (1 - diskEdgeSoftnessOuter uniforms)
    (clamp ((hitR - diskInnerRadius uniforms)
            / (diskOuterRadius uniforms - diskInnerRadius uniforms)) 0 1)).
  nra.
Qed.

Lemma edgeFalloff_at_edges (uniforms : Uniforms) (hitR : R) :
  diskInnerRadius uniforms < diskOuterRadius uniforms ->
  (hitR <= diskInnerRadius uniforms -> edgeFalloff uniforms hitR = 0)
  /\ (diskOuterRadius uniforms <= hitR -> edgeFalloff uniforms hitR = 0).
Proof.
  intros Hio.
  assert (Hd : 0 < / (diskOuterRadius uniforms - diskInnerRadius uniforms))
    by (apply Rinv_0_lt_compat; lra).
  split; intros H; unfold edgeFalloff.
  - rewrite clamp_below; [|lra|].
    + rewrite smoothstep_at_lower. ring.
    + unfold Rdiv.
      assert (0 <= (diskInnerRadius uniforms - hitR)
                   * / (diskOuterRadius uniforms - diskInnerRadius uniforms))
        by (apply Rmult_le_pos; lra).
      lra.
  - rewrite clamp_above; [|lra|].
    + rewrite (smoothstep_at_lower 1). ring.
    + apply (Rmult_le_reg_r
               (diskOuterRadius uniforms - diskInnerRadius uniforms));
        [lra|].
      unfold Rdiv. rewrite Rmult_assoc, Rinv_l by lra. lra.
Qed.

Lemma Rpower_one_base (y : R) : Rpower 1 y = 1.
Proof. unfold Rpower. rewrite ln_1, Rmult_0_r. apply exp_0. Qed.

Lemma pow_unit_range (x y : R) : 0 <= x <= 1 -> 0 <= y -> 0 <= pow x y <= 1.
Proof.
  intros Hx Hy. unfold pow. destruct (Rlt_dec 0 x) as [H|H]; [|lra].
  split.
  - left. unfold Rpower. apply exp_pos.
  - rewrite <- (Rpower_one_base y). apply Rle_Rpower_l; lra.
Qed.

Lemma diskOpacity_range (uniforms : Uniforms) (hitR hitAngle time : R)
    (rayDir : vec3) :
  0 <= turbulenceSharpness uniforms ->
  0 <= w (createAccretionDiskColor uniforms hitR hitAngle time rayDir) <= 1
  /\ 0 <= w (Adaptive.createAccretionDiskColor uniforms hitR hitAngle time)
       <= 1.
Proof.
  intros Hs.
  unfold createAccretionDiskColor, Adaptive.createAccretionDiskColor.
  cbn [w].
  pose proof (edgeFalloff_range uniforms hitR) as He.
  pose proof (pow_unit_range
                (clamp (turbulence uniforms hitR hitAngle time) 0 1)
                (turbulenceSharpness uniforms)
                (clamp_bounds _ 0 1 Rle_0_1) Hs) as Hp.
  split; nra.
Qed.

(* ---------------- Doppler beaming ---------------- *)
Lemma sign_sqr_le (x : R) : sign x * sign x <= 1.
Proof.
  unfold sign. destruct (Rlt_dec 0 x); [lra|]. destruct (Rlt_dec x 0); lra.
Qed.

(** The cosine of the code is bounded by the length of the ray
    direction. *)
Lemma cosTheta_bound (uniforms : Uniforms) (hitAngle : R) (rayDir : vec3) :
  length3 rayDir <= 1 ->
  -1 <= dot3 (orbitalVelocityDir uniforms hitAngle) rayDir <= 1.
Proof.
  intros HL. unfold orbitalVelocityDir, dot3, muls3. cbn [x3 y3 z3].
  destruct rayDir as [x y z]. unfold length3 in HL. cbn [x3 y3 z3] in *.
  set (s := sign (diskRotationSpeed uniforms)).
  pose proof (sign_sqr_le (diskRotationSpeed uniforms)) as Hs. fold s in Hs.
  set (S := sin hitAngle). set (C := cos hitAngle).
  assert (Hsc : S * S + C * C = 1)
    by (pose proof (sin2_cos2 hitAngle) as H; unfold Rsqr in H; exact H).
  assert (Hn : x * x + y * y + z * z <= 1).
  { assert (Hnn : 0 <= x * x + y * y + z * z).
    { pose proof (Rle_0_sqr x) as Hx. pose proof (Rle_0_sqr y) as Hy.
      pose proof (Rle_0_sqr z) as Hz. unfold Rsqr in Hx, Hy, Hz. lra. }
    pose proof (sqrt_pos (x * x + y * y + z * z)) as Hp.
    pose proof (sqrt_sqrt _ Hnn) as E.
    set (L := sqrt (x * x + y * y + z * z)) in *.
    assert (L * L <= 1) by nra. lra. }
  set (c := - S * s * x + 0 * s * y + C * s * z).
  assert (Hc : c * c <= 1).
  { assert (E : c * c = (s * s) * ((- S * x + C * z) * (- S * x + C * z)))
      by (unfold c; ring).
    assert (E2 : (- S * x + C * z) * (- S * x + C * z)
                 = (S * S + C * C) * (x * x + z * z)
                   - (C * x + S * z) * (C * x + S * z)) by ring.
    pose proof (Rle_0_sqr (C * x + S * z)) as H1.
    pose proof (Rle_0_sqr (- S * x + C * z)) as H2.
    pose proof (Rle_0_sqr s) as H3. pose proof (Rle_0_sqr y) as H4.
    unfold Rsqr in H1, H2, H3, H4.
    set (u := (- S * x + C * z) * (- S * x + C * z)) in *.
    assert (Hu : u <= 1).
    { rewrite E2, Hsc. lra. }
    rewrite E. assert (s * s * u <= 1 * 1) by (apply Rmult_le_compat; lra).
    lra. }
  split; nra.
Qed.

Lemma beta_range (uniforms : Uniforms) (hitR : R) :
  0 < diskInnerRadius uniforms -> diskInnerRadius uniforms <= hitR ->
  0 < 0.3 * (1 / sqrt (hitR / diskInnerRadius uniforms)) <= 0.3.
Proof.
  intros Hi Hh.
  assert (Hq : 1 <= hitR / diskInnerRadius uniforms).
  { apply (Rmult_le_reg_r (diskInnerRadius uniforms)); [exact Hi|].
    unfold Rdiv. rewrite Rmult_assoc, Rinv_l by lra. lra. }
  assert (Hs : 1 <= sqrt (hitR / diskInnerRadius uniforms)).
  { rewrite <- sqrt_1. apply sqrt_le_1; lra. }
  assert (Hinv : 0 < / sqrt (hitR / diskInnerRadius uniforms) <= 1).
  { split; [apply Rinv_0_lt_compat; lra|].
    rewrite <- Rinv_1. apply Rinv_le_contravar; lra. }
  unfold Rdiv. lra.
Qed.

Lemma clamp_ge (x lo hi v : R) :
  lo <= v <= hi -> v <= x -> v <= clamp x lo hi.
Proof.
  intros Hv Hx. unfold clamp, Rmin, Rmax.
  destruct (Rle_dec x lo); destruct (Rle_dec _ hi); lra.
Qed.

Lemma clamp_le (x lo hi v : R) :
  lo <= v <= hi -> x <= v -> clamp x lo hi <= v.
Proof.
  intros Hv Hx. unfold clamp, Rmin, Rmax.
  destruct (Rle_dec x lo); destruct (Rle_dec _ hi); lra.
Qed.

Lemma doppler_factor (b c : R) :
  0 < b <= 0.3 -> -1 <= c <= 1 ->
  0 < 1 / (1 - b * c)
  /\ (0 <= c -> 1 <= 1 / (1 - b * c))
  /\ (c <= 0 -> 1 / (1 - b * c) <= 1).
Proof.
  intros Hb Hc.
  assert (Hd : 0.7 <= 1 - b * c) by nra.
  assert (Hi : 0 < / (1 - b * c)) by (apply Rinv_0_lt_compat; lra).
  unfold Rdiv. rewrite Rmult_1_l. split; [exact Hi|]. split; intros H.
  - assert (1 - b * c <= 1) by nra.
    rewrite <- Rinv_1 at 1. apply Rinv_le_contravar; lra.
  - assert (1 <= 1 - b * c) by nra.
    rewrite <- Rinv_1. apply Rinv_le_contravar; lra.
Qed.

(** X11.  With dopplerStrength = 0 the beaming factor is exactly 1 for
    every hit on the disk and every ray direction of length at most 1,
    and the Doppler version shades the hit exactly as the version
    without Doppler beaming does. *)
Theorem X11_doppler_off_is_neutral (uniforms : Uniforms)
    (hitR hitAngle time : R) (rayDir : vec3) :
  dopplerStrength uniforms = 0 ->
  0 < diskInnerRadius uniforms -> diskInnerRadius uniforms <= hitR ->
  length3 rayDir <= 1 ->
  dopplerBoost uniforms hitR hitAngle rayDir = 1
  /\ createAccretionDiskColor uniforms hitR hitAngle time rayDir
     = Adaptive.createAccretionDiskColor uniforms hitR hitAngle time.
Proof.
  intros Hs Hi Hh HL.
  assert (E : dopplerBoost uniforms hitR hitAngle rayDir = 1).
  { rewrite dopplerBoost_spec. unfold dopplerSpec.
    destruct (doppler_factor _ _ (beta_range uniforms hitR Hi Hh)
                (cosTheta_bound uniforms hitAngle rayDir HL)) as (Hf & _).
    rewrite Hs, Rmult_0_r. rewrite pow_pos by exact Hf.
    rewrite Rpower_O by exact Hf. apply clamp_inside. lra. }
  split; [exact E|].
  unfold createAccretionDiskColor, Adaptive.createAccretionDiskColor.
  rewrite E. f_equal. f_equal.
  apply vec3_eq; unfold muls3; cbn [x3 y3 z3]; ring.
Qed.

Lemma X11_doppler_off_is_neutral_witness :
  dopplerBoost noStars 5 0 (Vec3 0 0 1) = 1.
Proof.
  refine (proj1 (X11_doppler_off_is_neutral noStars 5 0 0 (Vec3 0 0 1)
                   _ _ _ _)).
  - reflexivity.
  - cbn [diskInnerRadius noStars]. lra.
  - cbn [diskInnerRadius noStars]. lra.
  - rewrite (length3_known (Vec3 0 0 1) 1); [lra | lra |].
    cbn [x3 y3 z3]. ring.
Defined.

(** X12.  For a non-negative dopplerStrength, a hit on the disk and a ray
    direction of length at most 1, the clamped boost is at least 1 when
    the orbital velocity has a non-negative component along the ray
    direction and at most 1 when that component is non-positive; it
    always lies in [0.1, 5]. *)
Theorem X12_doppler_boost_sides (uniforms : Uniforms)
    (hitR hitAngle : R) (rayDir : vec3) :
  0 <= dopplerStrength uniforms ->
  0 < diskInnerRadius uniforms -> diskInnerRadius uniforms <= hitR ->
  length3 rayDir <= 1 ->
  let cosTheta := dot3 (orbitalVelocityDir uniforms hitAngle) rayDir in
  0.1 <= dopplerBoost uniforms hitR hitAngle rayDir <= 5
  /\ (0 <= cosTheta -> 1 <= dopplerBoost uniforms hitR hitAngle rayDir)
  /\ (cosTheta <= 0 -> dopplerBoost uniforms hitR hitAngle rayDir <= 1).
Proof.
  intros Hs Hi Hh HL cosTheta.
  rewrite dopplerBoost_spec. unfold dopplerSpec. fold cosTheta.
  destruct (doppler_factor _ cosTheta (beta_range uniforms hitR Hi Hh)
              (cosTheta_bound uniforms hitAngle rayDir HL))
    as (Hf & Hup & Hdown).
  set (f := 1 / (1 - 0.3 * (1 / sqrt (hitR / diskInnerRadius uniforms))
                      * cosTheta)) in *.
  assert (He : 0 <= 3 * dopplerStrength uniforms) by lra.
  rewrite pow_pos by exact Hf.
  split; [apply clamp_bounds; lra|]. split; intros Hc.
  - apply clamp_ge; [lra|].
    rewrite <- (Rpower_one_base (3 * dopplerStrength uniforms)).
    apply Rle_Rpower_l; [exact He|]. split; [lra|]. apply Hup; exact Hc.
  - apply clamp_le; [lra|].
    rewrite <- (Rpower_one_base (3 * dopplerStrength uniforms)).
    apply Rle_Rpower_l; [exact He|]. split; [exact Hf|]. apply Hdown; exact Hc.
Qed.

Lemma X12_doppler_boost_sides_witness :
  0.1 <= dopplerBoost sampleUniforms 5 0 (Vec3 0 0 1) <= 5.
Proof.
  refine (proj1 (X12_doppler_boost_sides sampleUniforms 5 0 (Vec3 0 0 1)
                   _ _ _ _)).
  - cbn [dopplerStrength sampleUniforms sampleWith]. lra.
  - cbn [diskInnerRadius sampleUniforms sampleWith]. lra.
  - cbn [diskInnerRadius sampleUniforms sampleWith]. lra.
  - rewrite (length3_known (Vec3 0 0 1) 1); [lra | lra |].
    cbn [x3 y3 z3]. ring.
Defined.

(* ================================================================== *)
(** * Invariants of the march *)
(* ================================================================== *)

(* ---------------- loop invariants ---------------- *)
Section LoopInvariant.

Context {S : Type}.

Variable body : S -> LoopCtl S.

Variable P : S -> Prop.

Hypothesis body_keeps :
  forall s, P s ->
    match body s with Break s' => P s' | Continue s' => P s' end.

Lemma Loop_invariant (count : nat) (s : S) :
  P s -> P (fst (Loop count body s)).
Proof.
  revert s. induction count as [|n IH]; intros s Hs; cbn [Loop].
  - exact Hs.
  - pose proof (body_keeps s Hs) as Hb.
    destruct (body s) as [s'|s']; [exact Hb|].
    specialize (IH s' Hb). destruct (Loop n body s') as [sf k]. exact IH.
Qed.

End LoopInvariant.

Lemma composite_alpha (st : RayState) (d : vec4) :
  0 <= alpha st <= 1 -> 0 <= w d <= 1 ->
  alpha st <= alpha (composite st d) <= 1.
Proof. intros Ha Hw. unfold composite. cbn [alpha]. nra. Qed.

Lemma diskPlaneIntersection_alpha (uniforms : Uniforms)
    (shade : R -> R -> R -> vec3 -> vec4) (st : RayState) :
  (forall a b c d, 0 <= w (shade a b c d) <= 1) ->
  0 <= alpha st <= 1 ->
  alpha st <= alpha (diskPlaneIntersection uniforms shade st) <= 1.
Proof.
  intros Hw Ha. unfold diskPlaneIntersection.
  destruct (_ && _); [|lra].
  destruct (inDisk _ _); [|lra].
  apply composite_alpha; [exact Ha|apply Hw].
Qed.

Lemma loopBody_alpha (uniforms : Uniforms) (lo : R) (st : RayState) :
  0 <= turbulenceSharpness uniforms ->
  (0 <= lo /\ lo <= alpha st <= 1) ->
  match loopBody uniforms st with
  | Break s' => 0 <= lo /\ lo <= alpha s' <= 1
  | Continue s' => 0 <= lo /\ lo <= alpha s' <= 1
  end.
Proof.
  intros Hs (Hlo & Ha). unfold loopBody.
  destruct (_ || _); [split; assumption|].
  destruct (lessThan _ _); [split; assumption|].
  destruct (greaterThan _ 100); [split; assumption|].
  split; [exact Hlo|].
  pose proof (diskPlaneIntersection_alpha uniforms
                (createAccretionDiskColor uniforms)
                (bendAndStep uniforms (length3 (rayPos st))
                   (stepSize uniforms) st)
                (fun a b c d =>
                   proj1 (diskOpacity_range uniforms a b c d Hs))) as H.
  cbn [alpha bendAndStep] in H. specialize (H ltac:(lra)). lra.
Qed.

Lemma Adaptive_loopBody_alpha (uniforms : Uniforms) (lo : R) (st : RayState) :
  0 <= turbulenceSharpness uniforms ->
  (0 <= lo /\ lo <= alpha st <= 1) ->
  match Adaptive.loopBody uniforms st with
  | Break s' => 0 <= lo /\ lo <= alpha s' <= 1
  | Continue s' => 0 <= lo /\ lo <= alpha s' <= 1
  end.
Proof.
  intros Hs (Hlo & Ha). unfold Adaptive.loopBody.
  destruct (_ || _); [split; assumption|].
  destruct (lessThan _ _); [split; assumption|].
  destruct (greaterThan _ 100); [split; assumption|].
  split; [exact Hlo|].
  pose proof (diskPlaneIntersection_alpha uniforms
                (fun hitR hitAngle time _ =>
                   Adaptive.createAccretionDiskColor uniforms hitR hitAngle
                     time)
                (bendAndStep uniforms (length3 (rayPos st))
                   (Adaptive.adaptiveStep uniforms (length3 (rayPos st))) st)
                (fun a b c d =>
                   proj2 (diskOpacity_range uniforms a b c d Hs))) as H.
  cbn [alpha bendAndStep] in H. specialize (H ltac:(lra)). lra.
Qed.

(** X13.  For a non-negative sharpness the accumulated opacity never
    decreases during the march and never leaves [0, 1]: from any state
    with opacity in [0, 1] the loop ends with an opacity between the
    initial one and 1, in both versions of the shader. *)
Theorem X13_opacity_stays_in_unit_interval (uniforms : Uniforms)
    (st : RayState) :
  0 <= turbulenceSharpness uniforms ->
  0 <= alpha st <= 1 ->
  alpha st <= alpha (fst (march uniforms st)) <= 1
  /\ alpha st <= alpha (fst (Adaptive.march uniforms st)) <= 1.
Proof.
  intros Hs Ha. split.
  - apply (Loop_invariant (loopBody uniforms)
             (fun s => 0 <= alpha st /\ alpha st <= alpha s <= 1)).
    + intros s. apply loopBody_alpha; exact Hs.
    + lra.
  - apply (Loop_invariant (Adaptive.loopBody uniforms)
             (fun s => 0 <= alpha st /\ alpha st <= alpha s <= 1)).
    + intros s. apply Adaptive_loopBody_alpha; exact Hs.
    + lra.
Qed.

Lemma X13_opacity_stays_in_unit_interval_witness :
  0 <= alpha (fst (march sampleUniforms (initRay sampleUniforms (Vec2 0.5 0.5))))
    <= 1.
Proof.
  assert (Hs : 0 <= turbulenceSharpness sampleUniforms)
    by (cbn [turbulenceSharpness sampleUniforms sampleWith]; lra).
  assert (Ha : 0 <= alpha (initRay sampleUniforms (Vec2 0.5 0.5)) <= 1)
    by (cbn [alpha initRay]; lra).
  pose proof (X13_opacity_stays_in_unit_interval sampleUniforms
                (initRay sampleUniforms (Vec2 0.5 0.5)) Hs Ha) as (H & _).
  assert (E : alpha (initRay sampleUniforms (Vec2 0.5 0.5)) = 0)
    by reflexivity.
  rewrite E in H. exact H.
Defined.

Lemma diskPlaneIntersection_flags (uniforms : Uniforms)
    (shade : R -> R -> R -> vec3 -> vec4) (st : RayState) :
  captured (diskPlaneIntersection uniforms shade st) = captured st
  /\ escaped (diskPlaneIntersection uniforms shade st) = escaped st.
Proof.
  unfold diskPlaneIntersection.
  destruct (_ && _); [|split; reflexivity].
  destruct (inDisk _ _); split; reflexivity.
Qed.

Lemma loop_flags (uniforms : Uniforms) (step : R -> R)
    (shade : R -> R -> R -> vec3 -> vec4) (st : RayState) :
  flagsOk st ->
  let rs := blackHoleMass uniforms * 2 in
  match
    (if greaterThan (escaped st) 0.5 || greaterThan (captured st) 0.5
        || greaterThan (alpha st) 0.99
     then Break st
     else
       let r := length3 (rayPos st) in
       if lessThan r (rs * 1.01) then Break (set_captured st 1)
       else if greaterThan r 100 then Break (set_escaped st 1)
       else Continue (diskPlaneIntersection uniforms shade
                        (bendAndStep uniforms r (step r) st)))
  with
  | Break s' => flagsOk s'
  | Continue s' => flagsOk s'
  end.
Proof.
  intros Hf rs.
  destruct (greaterThan (escaped st) 0.5) eqn:Ee; [exact Hf|].
  destruct (greaterThan (captured st) 0.5) eqn:Ec; [exact Hf|].
  cbn [orb].
  assert (H0 : captured st = 0 /\ escaped st = 0).
  { destruct Hf as [H|[(H1 & H2)|(H1 & H2)]]; [exact H| |].
    - rewrite H1, greaterThan_true in Ec by lra. discriminate.
    - rewrite H2, greaterThan_true in Ee by lra. discriminate. }
  destruct (greaterThan (alpha st) 0.99); [exact Hf|].
  cbn zeta.
  destruct (lessThan _ _).
  - right. left. cbn [captured escaped set_captured]. tauto.
  - destruct (greaterThan _ 100).
    + right. right. cbn [captured escaped set_escaped]. tauto.
    + destruct (diskPlaneIntersection_flags uniforms shade
                  (bendAndStep uniforms (length3 (rayPos st))
                     (step (length3 (rayPos st))) st)) as (E1 & E2).
      left. rewrite E1, E2. cbn [captured escaped bendAndStep]. exact H0.
Qed.

Lemma afterLoop_flags (st : RayState) :
  flagsOk st ->
  (captured (afterLoop st) = 1 /\ escaped (afterLoop st) = 0)
  \/ (captured (afterLoop st) = 0 /\ escaped (afterLoop st) = 1).
Proof.
  intros [(H1 & H2)|[(H1 & H2)|(H1 & H2)]]; unfold afterLoop; rewrite H1.
  - rewrite lessThan_true by lra. right. cbn. tauto.
  - rewrite lessThan_false by lra. left. tauto.
  - rewrite lessThan_true by lra. right. cbn. tauto.
Qed.

(** X14.  Every ray ends classified: after the loop and the test that
    follows it, exactly one of [captured] and [escaped] is 1 and the
    other is 0, for every parameter set and pixel, in both versions. *)
Theorem X14_ray_is_captured_or_escaped (uniforms : Uniforms)
    (screenUV : vec2) :
  let st := afterLoop (fst (march uniforms (initRay uniforms screenUV))) in
  let st' :=
    afterLoop (fst (Adaptive.march uniforms (initRay uniforms screenUV))) in
  ((captured st = 1 /\ escaped st = 0) \/ (captured st = 0 /\ escaped st = 1))
  /\ ((captured st' = 1 /\ escaped st' = 0)
      \/ (captured st' = 0 /\ escaped st' = 1)).
Proof.
  cbn zeta. split; apply afterLoop_flags.
  - apply (Loop_invariant (loopBody uniforms) flagsOk).
    + intros s Hs.
      exact (loop_flags uniforms (fun _ => stepSize uniforms)
               (createAccretionDiskColor uniforms) s Hs).
    + left. split; reflexivity.
  - apply (Loop_invariant (Adaptive.loopBody uniforms) flagsOk).
    + intros s Hs.
      exact (loop_flags uniforms (Adaptive.adaptiveStep uniforms)
               (fun hitR hitAngle time _ =>
                  Adaptive.createAccretionDiskColor uniforms hitR hitAngle
                    time) s Hs).
    + left. split; reflexivity.
Qed.

(* ================================================================== *)
(** * Escape, the marching step, the hit point and the camera rays *)
(* ================================================================== *)

(* ---------------- immediate escape ---------------- *)
Lemma loopBody_escape (uniforms : Uniforms) (st : RayState) :
  escaped st = 0 -> captured st = 0 -> alpha st = 0 ->
  100 < length3 (rayPos st) ->
  blackHoleMass uniforms * 2 * 1.01 <= length3 (rayPos st) ->
  loopBody uniforms st = Break (set_escaped st 1)
  /\ Adaptive.loopBody uniforms st = Break (set_escaped st 1).
Proof.
  intros He Hc Ha Hr Hm. unfold loopBody, Adaptive.loopBody.
  rewrite He, Hc, Ha.
  rewrite !greaterThan_false by lra. cbn [orb].
  rewrite lessThan_false by lra. rewrite greaterThan_true by lra.
  split; reflexivity.
Qed.

(** X15.  When the camera is more than 100 units from the centre (and
    not inside 1.01 horizon radii), the first iteration sets [escaped] and
    breaks, and the pixel is the gamma-corrected background seen along
    the unbent initial ray direction, in both versions. *)
Theorem X15_immediate_escape (uniforms : Uniforms) (screenUV : vec2) :
  100 < length3 (cameraPosition uniforms) ->
  blackHoleMass uniforms * 2 * 1.01 <= length3 (cameraPosition uniforms) ->
  let st0 := initRay uniforms screenUV in
  march uniforms st0 = (set_escaped st0 1, 1%nat)
  /\ createBlackHoleShader uniforms screenUV
     = Vec4 (pow3 (bgColor uniforms (rayDir st0))
                  (Vec3 (1 / 2.2) (1 / 2.2) (1 / 2.2))) 1
  /\ Adaptive.createBlackHoleShader uniforms screenUV
     = createBlackHoleShader uniforms screenUV.
Proof.
  intros Hr Hm st0.
  destruct (loopBody_escape uniforms st0) as [Hb Hb']; try reflexivity;
    try assumption.
  assert (M : march uniforms st0 = (set_escaped st0 1, 1%nat))
    by (apply Loop_break; exact Hb).
  assert (M' : Adaptive.march uniforms st0 = (set_escaped st0 1, 1%nat))
    by (apply Loop_break; exact Hb').
  assert (Hal : afterLoop (set_escaped st0 1) = set_escaped st0 1).
  { unfold afterLoop.
    replace (captured (set_escaped st0 1)) with 0 by reflexivity.
    rewrite lessThan_true by lra. reflexivity. }
  assert (Hg : backgroundGate (set_escaped st0 1) = true).
  { unfold backgroundGate.
    replace (escaped (set_escaped st0 1)) with 1 by reflexivity.
    replace (alpha (set_escaped st0 1)) with 0 by reflexivity.
    rewrite greaterThan_true, lessThan_true by lra. reflexivity. }
  assert (Hout : gamma (addBackground uniforms (set_escaped st0 1))
                 = Vec4 (pow3 (bgColor uniforms (rayDir st0))
                           (Vec3 (1 / 2.2) (1 / 2.2) (1 / 2.2))) 1).
  { unfold addBackground. rewrite Hg. unfold gamma.
    replace (color (set_color (set_escaped st0 1)
               (add3 (color (set_escaped st0 1))
                  (muls3 (bgColor uniforms (rayDir (set_escaped st0 1)))
                     (1 - alpha (set_escaped st0 1))))))
      with (add3 (Vec3 0 0 0) (muls3 (bgColor uniforms (rayDir st0)) (1 - 0)))
      by reflexivity.
    do 2 f_equal. apply vec3_eq; unfold add3, muls3; cbn [x3 y3 z3]; ring. }
  split; [exact M|].
  unfold createBlackHoleShader, Adaptive.createBlackHoleShader.
  change (initRay uniforms screenUV) with st0.
  rewrite M, M'. cbn [fst]. rewrite Hal. split; [exact Hout|reflexivity].
Qed.

Lemma X15_immediate_escape_witness :
  march farAway (initRay farAway (Vec2 0.5 0.5))
  = (set_escaped (initRay farAway (Vec2 0.5 0.5)) 1, 1%nat).
Proof.
  assert (L : length3 (cameraPosition farAway) = 200).
  { cbn [cameraPosition farAway sampleWith].
    apply length3_known; [lra | cbn [x3 y3 z3]; ring]. }
  assert (H1 : 100 < length3 (cameraPosition farAway)) by (rewrite L; lra).
  assert (H2 : blackHoleMass farAway * 2 * 1.01
               <= length3 (cameraPosition farAway)).
  { rewrite L. cbn [blackHoleMass farAway sampleWith]. lra. }
  pose proof (X15_immediate_escape farAway (Vec2 0.5 0.5) H1 H2) as (H & _).
  exact H.
Defined.

(* ---------------- the marching step ---------------- *)
Lemma sumsq_nonneg (v : vec3) :
  0 <= x3 v * x3 v + y3 v * y3 v + z3 v * z3 v.
Proof.
  pose proof (Rle_0_sqr (x3 v)) as Hx. pose proof (Rle_0_sqr (y3 v)) as Hy.
  pose proof (Rle_0_sqr (z3 v)) as Hz. unfold Rsqr in *. lra.
Qed.

Lemma length3_nonneg (v : vec3) : 0 <= length3 v.
Proof. unfold length3. apply sqrt_pos. Qed.

Lemma length3_sqr (v : vec3) :
  length3 v * length3 v = x3 v * x3 v + y3 v * y3 v + z3 v * z3 v.
Proof. unfold length3. apply sqrt_sqrt. apply sumsq_nonneg. Qed.

Lemma length3_muls3 (v : vec3) (s : R) :
  length3 (muls3 v s) = Rabs s * length3 v.
Proof.
  apply length3_known.
  - apply Rmult_le_pos; [apply Rabs_pos|apply length3_nonneg].
  - unfold muls3. cbn [x3 y3 z3].
    replace (Rabs s * length3 v * (Rabs s * length3 v))
      with ((Rabs s * Rabs s) * (length3 v * length3 v)) by ring.
    rewrite length3_sqr. rewrite <- Rabs_mult.
    rewrite (Rabs_right (s * s)); [ring|].
    pose proof (Rle_0_sqr s) as H. unfold Rsqr in H. lra.
Qed.

Lemma normalize_unit (v : vec3) :
  length3 v <> 0 -> length3 (normalize v) = 1.
Proof.
  intros Hv. unfold normalize.
  assert (E : divs3 v (length3 v) = muls3 v (/ length3 v)) by reflexivity.
  rewrite E, length3_muls3.
  pose proof (length3_nonneg v) as Hn.
  rewrite Rabs_right.
  - apply Rinv_l; exact Hv.
  - left. apply Rinv_0_lt_compat. lra.
Qed.

(** X16.  Whenever the bent direction is not the zero vector, a marching
    step leaves a unit ray direction, moves the position by exactly
    |step| along it and records the old position as the previous one. *)
Theorem X16_step_is_unit_and_has_step_length (uniforms : Uniforms)
    (r stepLen : R) (st : RayState) :
  let bent :=
    add3 (rayDir st)
         (muls3 (divs3 (negate3 (rayPos st)) r)
                (blackHoleMass uniforms * 2 / (r * r) * stepLen
                 * gravitationalLensing uniforms)) in
  length3 bent <> 0 ->
  let st' := bendAndStep uniforms r stepLen st in
  length3 (rayDir st') = 1
  /\ length3 (sub3 (rayPos st') (rayPos st)) = Rabs stepLen
  /\ prevPos st' = rayPos st.
Proof.
  intros bent Hb st'.
  assert (Hd : rayDir st' = normalize bent) by reflexivity.
  assert (Hu : length3 (rayDir st') = 1)
    by (rewrite Hd; apply normalize_unit; exact Hb).
  split; [exact Hu|]. split; [|reflexivity].
  assert (E : sub3 (rayPos st') (rayPos st) = muls3 (rayDir st') stepLen).
  { replace (rayPos st')
      with (add3 (rayPos st) (muls3 (rayDir st') stepLen)) by reflexivity.
    apply vec3_eq; unfold sub3, add3, muls3; cbn [x3 y3 z3]; ring. }
  rewrite E, length3_muls3, Hu. ring.
Qed.

Lemma X16_step_is_unit_and_has_step_length_witness :
  length3 (rayDir (bendAndStep zeroCycle 5 10 downwardRay)) = 1.
Proof.
  refine (proj1 (X16_step_is_unit_and_has_step_length zeroCycle 5 10
                   downwardRay _)).
  cbn [rayDir rayPos downwardRay blackHoleMass gravitationalLensing
       zeroCycle sampleWith].
  rewrite (length3_known _ 1); [lra | lra |].
  unfold add3, muls3, divs3, negate3. cbn [x3 y3 z3]. lra.
Defined.

(* ---------------- the plane crossing ---------------- *)
Lemma proper_fraction (a b : R) : 0 < a -> a < b -> 0 < a / b < 1.
Proof.
  intros Ha Hb. split; [apply Rdiv_lt_0_compat; lra|].
  apply (Rmult_lt_reg_r b); [lra|].
  unfold Rdiv. rewrite Rmult_assoc, Rinv_l by lra. lra.
Qed.

(** X17.  When the two heights have opposite signs, the interpolation
    parameter lies strictly between 0 and 1 and the interpolated hit
    point lies exactly on the disk plane y = 0. *)
Theorem X17_hit_point_on_plane (prev cur : vec3) :
  y3 prev * y3 cur < 0 ->
  let t := - y3 prev / (y3 cur - y3 prev) in
  0 < t < 1
  /\ hitPosOf prev cur = mix3 prev cur t
  /\ y3 (hitPosOf prev cur) = 0.
Proof.
  intros Hc t.
  pose proof (crossing_denominator _ _ Hc) as Hd.
  assert (Ht : t * (y3 cur - y3 prev) = - y3 prev)
    by (unfold t; field; exact Hd).
  split; [|split; [reflexivity|]].
  - destruct (Rlt_dec 0 (y3 prev)) as [Hp|Hp].
    + assert (y3 cur < 0) by nra.
      replace t with (y3 prev / (y3 prev - y3 cur))
        by (unfold t; field; split; lra).
      apply proper_fraction; lra.
    + assert (y3 prev < 0) by nra.
      assert (0 < y3 cur) by nra.
      apply proper_fraction; lra.
  - unfold hitPosOf, mix3, mix. cbn [y3]. fold t. nra.
Qed.

Lemma X17_hit_point_on_plane_witness :
  y3 (hitPosOf (Vec3 0 3 4) (Vec3 0 (-3) 12)) = 0.
Proof.
  refine (proj2 (proj2 (X17_hit_point_on_plane (Vec3 0 3 4) (Vec3 0 (-3) 12) _))).
  cbn [y3]. lra.
Defined.

(* ---------------- the camera rays ---------------- *)
Lemma dot3_self (v : vec3) : dot3 v v = length3 v * length3 v.
Proof. rewrite length3_sqr. reflexivity. Qed.

Lemma dot3_add_l (a b c : vec3) : dot3 (add3 a b) c = dot3 a c + dot3 b c.
Proof. unfold dot3, add3. cbn [x3 y3 z3]. ring. Qed.

Lemma dot3_muls_l (a c : vec3) (s : R) : dot3 (muls3 a s) c = s * dot3 a c.
Proof. unfold dot3, muls3. cbn [x3 y3 z3]. ring. Qed.

Lemma dot3_divs_l (a c : vec3) (s : R) : dot3 (divs3 a s) c = dot3 a c / s.
Proof. unfold dot3, divs3, Rdiv. cbn [x3 y3 z3]. ring. Qed.

Lemma cross_dot_right (a b : vec3) : dot3 (cross a b) b = 0.
Proof. unfold dot3, cross. cbn [x3 y3 z3]. ring. Qed.

Lemma cross_dot_left (a b : vec3) : dot3 (cross a b) a = 0.
Proof. unfold dot3, cross. cbn [x3 y3 z3]. ring. Qed.

Lemma length3_zero (v : vec3) : length3 v = 0 -> v = Vec3 0 0 0.
Proof.
  intros H. pose proof (length3_sqr v) as S. rewrite H in S.
  pose proof (Rle_0_sqr (x3 v)) as Hx. pose proof (Rle_0_sqr (y3 v)) as Hy.
  pose proof (Rle_0_sqr (z3 v)) as Hz. unfold Rsqr in *.
  assert (x3 v * x3 v = 0 /\ y3 v * y3 v = 0 /\ z3 v * z3 v = 0)
    as (Ex & Ey & Ez) by lra.
  apply Rmult_integral in Ex, Ey, Ez.
  destruct v as [x y z]. cbn [x3 y3 z3] in *.
  f_equal; [destruct Ex|destruct Ey|destruct Ez]; assumption.
Qed.

Lemma normalize_of_unit (v : vec3) : length3 v = 1 -> normalize v = v.
Proof.
  intros H. unfold normalize, divs3. rewrite H. destruct v as [x y z].
  cbn [x3 y3 z3]. f_equal; field.
Qed.

(** The unnormalised direction of the ray through a pixel has component 1
    along the view direction. *)
Lemma ray_along_forward (f : vec3) (a b : R) :
  length3 f = 1 ->
  let camRight := normalize (cross (Vec3 0 1 0) f) in
  let camUp := cross f camRight in
  dot3 (add3 (add3 (muls3 f 1) (muls3 camRight a)) (muls3 camUp b)) f = 1.
Proof.
  intros Hf camRight camUp.
  rewrite !dot3_add_l, !dot3_muls_l.
  unfold camUp. rewrite cross_dot_left.
  unfold camRight, normalize. rewrite dot3_divs_l, cross_dot_right.
  rewrite dot3_self, Hf. unfold Rdiv. ring.
Qed.

(* ================================================================== *)
(** * Checked evaluation of the shader *)
(* ================================================================== *)

(** ** The checked operations *)

Lemma sqrtChk_nonneg (x : R) : 0 <= x -> sqrtChk x = Some (sqrt x).
Proof. intros H. unfold sqrtChk. destruct (Rle_dec 0 x); [reflexivity|lra]. Qed.

Lemma powChk_pos (x y : R) : 0 < x -> powChk x y = Some (pow x y).
Proof. intros H. unfold powChk. destruct (Rlt_dec 0 x); [reflexivity|lra]. Qed.

Lemma powChk_nonneg (x y : R) :
  0 <= x -> 0 < y -> powChk x y = Some (pow x y).
Proof.
  intros Hx Hy. unfold powChk. destruct (Rlt_dec 0 x); [reflexivity|].
  destruct (Req_dec_T x 0); [|lra]. destruct (Rlt_dec 0 y); [reflexivity|lra].
Qed.

Lemma powChk_negative (x y : R) : x < 0 -> powChk x y = None.
Proof.
  intros H. unfold powChk. destruct (Rlt_dec 0 x); [lra|].
  destruct (Req_dec_T x 0); [lra|reflexivity].
Qed.

Lemma pow_nonneg (x y : R) : 0 <= pow x y.
Proof.
  unfold pow. destruct (Rlt_dec 0 x); [|lra].
  unfold Rpower. apply Rlt_le, exp_pos.
Qed.

Lemma pow3Chk_nonneg (a : vec3) (y : R) :
  nonneg3 a -> 0 < y ->
  pow3Chk a (Vec3 y y y) = Some (pow3 a (Vec3 y y y)).
Proof.
  intros (Hx & Hy & Hz) H. unfold pow3Chk. cbn [x3 y3 z3].
  rewrite !powChk_nonneg by assumption. reflexivity.
Qed.

Lemma normalizeChk_nonzero (v : vec3) :
  length3 v <> 0 -> normalizeChk v = Some (normalize v).
Proof.
  intros H. unfold normalizeChk, normalize. apply divs3Chk_nonzero, H.
Qed.

Lemma normalizeChk_zero (v : vec3) : length3 v = 0 -> normalizeChk v = None.
Proof. intros H. unfold normalizeChk. rewrite H. apply divs3Chk_zero. Qed.

Lemma smoothstepChk_edges (e0 e1 x : R) :
  e0 <> e1 -> smoothstepChk e0 e1 x = Some (smoothstep e0 e1 x).
Proof.
  intros H. unfold smoothstepChk. rewrite divChk_nonzero by lra. reflexivity.
Qed.

Lemma smoothstepChk_equal (e x : R) : smoothstepChk e e x = None.
Proof.
  unfold smoothstepChk. replace (e - e) with 0 by ring.
  rewrite divChk_zero. reflexivity.
Qed.

(** A checked operation returns the value of the total one or nothing. *)
Lemma divChk_cases (a b : R) : divChk a b = Some (a / b) \/ divChk a b = None.
Proof. unfold divChk. destruct (Req_dec_T b 0); auto. Qed.

Lemma divs3Chk_cases (a : vec3) (s : R) :
  divs3Chk a s = Some (divs3 a s) \/ divs3Chk a s = None.
Proof. unfold divs3Chk. destruct (Req_dec_T s 0); auto. Qed.

Lemma modChk_cases (x y : R) : modChk x y = Some (mod_ x y) \/ modChk x y = None.
Proof. unfold modChk. destruct (Req_dec_T y 0); auto. Qed.

Lemma asinChk_cases (x : R) : asinChk x = Some (asin x) \/ asinChk x = None.
Proof.
  unfold asinChk. destruct (Rle_dec (-1) x); [|auto].
  destruct (Rle_dec x 1); auto.
Qed.

Lemma sqrtChk_cases (x : R) : sqrtChk x = Some (sqrt x) \/ sqrtChk x = None.
Proof. unfold sqrtChk. destruct (Rle_dec 0 x); auto. Qed.

Lemma powChk_cases (x y : R) : powChk x y = Some (pow x y) \/ powChk x y = None.
Proof.
  unfold powChk. destruct (Rlt_dec 0 x); [auto|].
  destruct (Req_dec_T x 0); [|auto]. destruct (Rlt_dec 0 y); auto.
Qed.

Lemma normalizeChk_cases (v : vec3) :
  normalizeChk v = Some (normalize v) \/ normalizeChk v = None.
Proof. unfold normalizeChk, normalize. apply divs3Chk_cases. Qed.

Lemma smoothstepChk_cases (e0 e1 x : R) :
  smoothstepChk e0 e1 x = Some (smoothstep e0 e1 x)
  \/ smoothstepChk e0 e1 x = None.
Proof.
  unfold smoothstepChk. destruct (divChk_cases (x - e0) (e1 - e0)) as [->| ->];
    auto.
Qed.

Lemma pow3Chk_cases (a b : vec3) :
  pow3Chk a b = Some (pow3 a b) \/ pow3Chk a b = None.
Proof.
  unfold pow3Chk.
  destruct (powChk_cases (x3 a) (x3 b)) as [->| ->]; [|auto].
  destruct (powChk_cases (y3 a) (y3 b)) as [->| ->]; [|auto].
  destruct (powChk_cases (z3 a) (z3 b)) as [->| ->]; auto.
Qed.

Create HintDb chk.
#[local] Hint Resolve divChk_cases divs3Chk_cases modChk_cases asinChk_cases
  sqrtChk_cases powChk_cases normalizeChk_cases smoothstepChk_cases
  pow3Chk_cases : chk.

Lemma bind_cases {A B : Type} (e : option A) (a : A) (k : A -> option B)
    (v : B) :
  e = Some a \/ e = None ->
  k a = Some v \/ k a = None ->
  mbind k e = Some v \/ mbind k e = None.
Proof. intros [->| ->] H; [exact H|right; reflexivity]. Qed.

(** The case analysis along the binds of a checked function. *)
Ltac chk_cases :=
  repeat first
    [ eapply bind_cases; [solve [eauto with chk]|cbn beta]
    | match goal with
      | |- context [if ?c then _ else _] => destruct c
      end ];
  try (left; reflexivity).

Lemma Checked_createStarField_cases (uniforms : Uniforms) (rayDir : vec3) :
  Checked.createStarField uniforms rayDir
  = Some (createStarField uniforms rayDir)
  \/ Checked.createStarField uniforms rayDir = None.
Proof. unfold Checked.createStarField. chk_cases. Qed.

Lemma Checked_tempK_cases (uniforms : Uniforms) (hitR : R) :
  Checked.tempK uniforms hitR = Some (tempK uniforms hitR)
  \/ Checked.tempK uniforms hitR = None.
Proof. unfold Checked.tempK. chk_cases. Qed.

Lemma Checked_dopplerBoost_cases (uniforms : Uniforms) (hitR hitAngle : R)
    (rayDir : vec3) :
  Checked.dopplerBoost uniforms hitR hitAngle rayDir
  = Some (dopplerBoost uniforms hitR hitAngle rayDir)
  \/ Checked.dopplerBoost uniforms hitR hitAngle rayDir = None.
Proof. unfold Checked.dopplerBoost. chk_cases. Qed.

Lemma Checked_edgeFalloff_cases (uniforms : Uniforms) (hitR : R) :
  Checked.edgeFalloff uniforms hitR = Some (edgeFalloff uniforms hitR)
  \/ Checked.edgeFalloff uniforms hitR = None.
Proof. unfold Checked.edgeFalloff. chk_cases. Qed.

Lemma Checked_noiseCoord_cases (uniforms : Uniforms)
    (hitR hitAngle phaseTime : R) :
  Checked.noiseCoord uniforms hitR hitAngle phaseTime
  = Some (noiseCoord uniforms hitR hitAngle phaseTime)
  \/ Checked.noiseCoord uniforms hitR hitAngle phaseTime = None.
Proof. unfold Checked.noiseCoord. chk_cases. Qed.

#[local] Hint Resolve Checked_createStarField_cases Checked_tempK_cases
  Checked_dopplerBoost_cases Checked_edgeFalloff_cases
  Checked_noiseCoord_cases : chk.

Lemma Checked_turbulence_cases (uniforms : Uniforms) (hitR hitAngle time : R) :
  Checked.turbulence uniforms hitR hitAngle time
  = Some (turbulence uniforms hitR hitAngle time)
  \/ Checked.turbulence uniforms hitR hitAngle time = None.
Proof. unfold Checked.turbulence. chk_cases. Qed.

#[local] Hint Resolve Checked_turbulence_cases : chk.

Lemma Checked_ringOpacity_cases (uniforms : Uniforms)
    (hitR hitAngle time : R) :
  Checked.ringOpacity uniforms hitR hitAngle time
  = Some (pow (clamp (turbulence uniforms hitR hitAngle time) 0 1)
              (turbulenceSharpness uniforms))
  \/ Checked.ringOpacity uniforms hitR hitAngle time = None.
Proof.
  unfold Checked.ringOpacity.
  destruct (Checked_turbulence_cases uniforms hitR hitAngle time) as [->| ->];
    [|auto].
  cbn [mbind option_bind]. apply powChk_cases.
Qed.

#[local] Hint Resolve Checked_ringOpacity_cases : chk.

Lemma Checked_finalOpacity_cases (uniforms : Uniforms)
    (hitR hitAngle time : R) (rayDir : vec3) :
  Checked.finalOpacity uniforms hitR hitAngle time
  = Some (w (createAccretionDiskColor uniforms hitR hitAngle time rayDir))
  \/ Checked.finalOpacity uniforms hitR hitAngle time = None.
Proof. unfold Checked.finalOpacity. chk_cases. Qed.

Lemma Checked_createAccretionDiskColor_cases (uniforms : Uniforms)
    (hitR hitAngle time : R) (rayDir : vec3) :
  Checked.createAccretionDiskColor uniforms hitR hitAngle time rayDir
  = Some (createAccretionDiskColor uniforms hitR hitAngle time rayDir)
  \/ Checked.createAccretionDiskColor uniforms hitR hitAngle time rayDir
     = None.
Proof.
  unfold Checked.createAccretionDiskColor.
  eapply bind_cases; [solve [eauto with chk]|cbn beta].
  eapply bind_cases; [solve [eauto with chk]|cbn beta].
  eapply bind_cases;
    [exact (Checked_finalOpacity_cases uniforms hitR hitAngle time rayDir)|].
  left. reflexivity.
Qed.

Lemma Checked_initRay_cases (uniforms : Uniforms) (screenUV : vec2) :
  Checked.initRay uniforms screenUV = Some (initRay uniforms screenUV)
  \/ Checked.initRay uniforms screenUV = None.
Proof. unfold Checked.initRay. chk_cases. Qed.

Lemma Checked_bendAndStep_cases (uniforms : Uniforms) (r stepLen : R)
    (st : RayState) :
  Checked.bendAndStep uniforms r stepLen st
  = Some (bendAndStep uniforms r stepLen st)
  \/ Checked.bendAndStep uniforms r stepLen st = None.
Proof. unfold Checked.bendAndStep. chk_cases. Qed.

#[local] Hint Resolve Checked_createAccretionDiskColor_cases
  Checked_initRay_cases Checked_bendAndStep_cases : chk.

Lemma Checked_diskPlaneIntersection_cases (uniforms : Uniforms)
    (st : RayState) :
  Checked.diskPlaneIntersection uniforms st
  = Some (diskPlaneIntersection uniforms (createAccretionDiskColor uniforms)
            st)
  \/ Checked.diskPlaneIntersection uniforms st = None.
Proof.
  unfold Checked.diskPlaneIntersection, diskPlaneIntersection, hitROf,
    hitPosOf.
  destruct (lessThan (y3 (prevPos st) * y3 (rayPos st)) 0
            && lessThan (alpha st) 0.99); [|auto].
  eapply bind_cases; [solve [eauto with chk]|cbn beta].
  match goal with |- context [inDisk ?u ?r] => destruct (inDisk u r) end;
    [|auto].
  eapply bind_cases; [solve [eauto with chk]|cbn beta].
  left. reflexivity.
Qed.

#[local] Hint Resolve Checked_diskPlaneIntersection_cases : chk.

Lemma Checked_loopBody_cases (uniforms : Uniforms) (st : RayState) :
  Checked.loopBody uniforms st = Some (loopBody uniforms st)
  \/ Checked.loopBody uniforms st = None.
Proof.
  unfold Checked.loopBody, loopBody.
  destruct (greaterThan (escaped st) 0.5 || greaterThan (captured st) 0.5
            || greaterThan (alpha st) 0.99); [auto|].
  destruct (lessThan (length3 (rayPos st)) (blackHoleMass uniforms * 2 * 1.01));
    [auto|].
  destruct (greaterThan (length3 (rayPos st)) 100); [auto|].
  eapply bind_cases; [solve [eauto with chk]|cbn beta].
  eapply bind_cases; [solve [eauto with chk]|cbn beta].
  left. reflexivity.
Qed.

Lemma Checked_Loop_cases {S : Type} (bodyChk : S -> option (LoopCtl S))
    (body : S -> LoopCtl S) (count : nat) (s : S) :
  (forall x, bodyChk x = Some (body x) \/ bodyChk x = None) ->
  Checked.Loop count bodyChk s = Some (Loop count body s)
  \/ Checked.Loop count bodyChk s = None.
Proof.
  intros Hb. revert s. induction count as [|n IH]; intros s; [left; reflexivity|].
  cbn [Checked.Loop Loop].
  destruct (Hb s) as [->| ->]; [|right; reflexivity].
  cbn [mbind option_bind]. destruct (body s) as [s'|s']; [left; reflexivity|].
  destruct (IH s') as [->| ->]; [|right; reflexivity].
  cbn [mbind option_bind]. left. destruct (Loop n body s'). reflexivity.
Qed.

Lemma Checked_bgColor_cases (uniforms : Uniforms) (rayDir : vec3) :
  Checked.bgColor uniforms rayDir = Some (bgColor uniforms rayDir)
  \/ Checked.bgColor uniforms rayDir = None.
Proof.
  unfold Checked.bgColor, bgColor.
  destruct (greaterThan (starsEnabled uniforms) 0.5); [|left; reflexivity].
  destruct (Checked_createStarField_cases uniforms rayDir) as [->| ->];
    [left; reflexivity|right; reflexivity].
Qed.

Lemma Checked_addBackground_cases (uniforms : Uniforms) (st : RayState) :
  Checked.addBackground uniforms st = Some (addBackground uniforms st)
  \/ Checked.addBackground uniforms st = None.
Proof.
  unfold Checked.addBackground, addBackground.
  destruct (backgroundGate st); [|auto].
  destruct (Checked_bgColor_cases uniforms (rayDir st)) as [->| ->];
    [left; reflexivity|right; reflexivity].
Qed.

Lemma Checked_gamma_cases (st : RayState) :
  Checked.gamma st = Some (gamma st) \/ Checked.gamma st = None.
Proof.
  unfold Checked.gamma, gamma.
  destruct (pow3Chk_cases (color st) (Vec3 (1 / 2.2) (1 / 2.2) (1 / 2.2)))
    as [->| ->]; [left; reflexivity|right; reflexivity].
Qed.

(** Whatever the parameters, the checked shader returns the colour of
    the total one or nothing. *)
Lemma Checked_createBlackHoleShader_cases (uniforms : Uniforms)
    (screenUV : vec2) :
  Checked.createBlackHoleShader uniforms screenUV
  = Some (createBlackHoleShader uniforms screenUV)
  \/ Checked.createBlackHoleShader uniforms screenUV = None.
Proof.
  unfold Checked.createBlackHoleShader, createBlackHoleShader, march.
  destruct (Checked_initRay_cases uniforms screenUV) as [->| ->];
    [|right; reflexivity].
  cbn [mbind option_bind].
  destruct (Checked_Loop_cases (Checked.loopBody uniforms) (loopBody uniforms)
              64 (initRay uniforms screenUV)
              (Checked_loopBody_cases uniforms)) as [->| ->];
    [|right; reflexivity].
  cbn [mbind option_bind].
  destruct (Checked_addBackground_cases uniforms
              (afterLoop (fst (Loop 64 (loopBody uniforms)
                                 (initRay uniforms screenUV)))))
    as [->| ->]; [|right; reflexivity].
  cbn [mbind option_bind]. apply Checked_gamma_cases.
Qed.

(** ** Where the checked functions succeed *)

Lemma Checked_createStarField_defined (uniforms : Uniforms) (rayDir : vec3) :
  starSize uniforms <> 0 ->
  Checked.createStarField uniforms rayDir
  = Some (createStarField uniforms rayDir).
Proof.
  intros Hs. unfold Checked.createStarField.
  rewrite asinChk_clamp. cbn [mbind option_bind].
  rewrite divChk_nonzero by exact Hs. cbn [mbind option_bind].
  set (cell := floor2 _).
  pose proof (hash21_range (adds2 cell 100)) as Hh.
  assert (Hf : (hash21 (adds2 cell 100) * 0.03 + 0.01) * starSize uniforms
               <> 0).
  { intros E. apply Rmult_integral in E. destruct E; [lra|contradiction]. }
  rewrite !smoothstepChk_edges by lra. reflexivity.
Qed.

Lemma createStarField_nonneg (uniforms : Uniforms) (rayDir : vec3) :
  0 <= starBrightness uniforms -> nonneg3 (createStarField uniforms rayDir).
Proof.
  intros Hb. unfold createStarField.
  set (cell := floor2 _).
  set (core := smoothstep _ 0 _).
  set (glow := smoothstep _ 0 _).
  set (prob := step _ _).
  set (ct := hash21 (adds2 cell 200)).
  pose proof (smoothstep_bounds _ _ _ : 0 <= core <= 1) as Hc.
  pose proof (smoothstep_bounds _ _ _ : 0 <= glow <= 1) as Hg.
  pose proof (step_range _ _ : 0 <= prob <= 1) as Hp.
  pose proof (hash21_range (adds2 cell 200)) as Ht. fold ct in Ht.
  assert (Hi : 0 <= (core + glow * 0.3) * prob) by nra.
  set (I := (core + glow * 0.3) * prob) in *.
  assert (Ht' : 0 <= ct <= 1) by lra.
  pose proof (mix_between 0.8 1 ct 0.8 1 ltac:(lra) ltac:(lra) Ht') as Mx.
  pose proof (mix_between 0.9 0.95 ct 0.8 1 ltac:(lra) ltac:(lra) Ht') as My.
  pose proof (mix_between 1 0.8 ct 0.8 1 ltac:(lra) ltac:(lra) Ht') as Mz.
  unfold nonneg3, muls3, mix3. cbn [x3 y3 z3].
  assert (P : forall m, 0.8 <= m <= 1 -> 0 <= m * I * starBrightness uniforms).
  { intros m Hm. apply Rmult_le_pos; [|exact Hb]. apply Rmult_le_pos; lra. }
  repeat split; apply P; assumption.
Qed.

Lemma createNebulaField_nonneg (uniforms : Uniforms) (rayDir : vec3) :
  nonneg3 (nebula1Color uniforms) -> 0 <= nebula1Brightness uniforms ->
  nonneg3 (nebula2Color uniforms) -> 0 <= nebula2Brightness uniforms ->
  nonneg3 (createNebulaField uniforms rayDir).
Proof.
  intros (C1x & C1y & C1z) B1 (C2x & C2y & C2z) B2.
  unfold createNebulaField, nonneg3, add3, muls3. cbn [x3 y3 z3].
  set (l1 := clamp _ 0 1). set (l2 := clamp _ 0 1).
  assert (H1 : 0 <= l1 <= 1) by (apply clamp_bounds; lra).
  assert (H2 : 0 <= l2 <= 1) by (apply clamp_bounds; lra).
  pose proof (nebula_component _ _ _ _ _ _ C1x B1 H1 C2x B2 H2).
  pose proof (nebula_component _ _ _ _ _ _ C1y B1 H1 C2y B2 H2).
  pose proof (nebula_component _ _ _ _ _ _ C1z B1 H1 C2z B2 H2).
  repeat split; lra.
Qed.

Lemma blackbodyColor_nonneg (tempK : R) : nonneg3 (blackbodyColor tempK).
Proof.
  unfold blackbodyColor, nonneg3. cbn [x3 y3 z3].
  set (t := clamp ((tempK - 1000) / 9000) 0 1).
  assert (Ht : 0 <= t <= 1) by (apply clamp_bounds; lra).
  pose proof (clamp_bounds (1 - (t - 0.8) * 2) 0.5 1 ltac:(lra)).
  pose proof (smoothstep_bounds 0 0.5 t) as Hg.
  pose proof (smoothstep_bounds 0.3 1 t) as Hb.
  pose proof (Rmax_0_range ((t - 0.7) * 0.3) ltac:(lra)) as Hm.
  repeat split; try lra; nra.
Qed.

Lemma Checked_tempK_defined (uniforms : Uniforms) (hitR : R) :
  0 < diskInnerRadius uniforms -> 0 < hitR ->
  Checked.tempK uniforms hitR = Some (tempK uniforms hitR).
Proof.
  intros Hi Hh. unfold Checked.tempK.
  rewrite divChk_nonzero by lra. cbn [mbind option_bind].
  rewrite powChk_pos by (apply Rdiv_lt_0_compat; lra). reflexivity.
Qed.

Lemma Checked_dopplerBoost_defined (uniforms : Uniforms) (hitR hitAngle : R)
    (rayDir : vec3) :
  0 < diskInnerRadius uniforms -> diskInnerRadius uniforms <= hitR ->
  length3 rayDir <= 1 ->
  Checked.dopplerBoost uniforms hitR hitAngle rayDir
  = Some (dopplerBoost uniforms hitR hitAngle rayDir).
Proof.
  intros Hi Hh HL. unfold Checked.dopplerBoost.
  rewrite divChk_nonzero by lra. cbn [mbind option_bind].
  assert (Hq : 0 < hitR / diskInnerRadius uniforms)
    by (apply Rdiv_lt_0_compat; lra).
  rewrite sqrtChk_nonneg by lra. cbn [mbind option_bind].
  assert (Hs : 0 < sqrt (hitR / diskInnerRadius uniforms))
    by (apply sqrt_lt_R0; exact Hq).
  rewrite divChk_nonzero by lra. cbn [mbind option_bind].
  pose proof (beta_range uniforms hitR Hi Hh) as Hb.
  pose proof (cosTheta_bound uniforms hitAngle rayDir HL) as Hc.
  set (c := dot3 (Vec3 (- sin hitAngle * sign (diskRotationSpeed uniforms)) 0
                       (cos hitAngle * sign (diskRotationSpeed uniforms)))
                 rayDir).
  assert (Ec : c = dot3 (orbitalVelocityDir uniforms hitAngle) rayDir).
  { unfold c, orbitalVelocityDir, dot3, muls3. cbn [x3 y3 z3]. ring. }
  rewrite <- Ec in Hc.
  set (b := 1 / sqrt (hitR / diskInnerRadius uniforms) * 0.3).
  assert (Eb : b = 0.3 * (1 / sqrt (hitR / diskInnerRadius uniforms)))
    by (unfold b; ring).
  rewrite <- Eb in Hb.
  destruct (doppler_factor b c Hb Hc) as (Hf & _).
  assert (Hd : 1 - b * c <> 0) by nra.
  rewrite divChk_nonzero by exact Hd. cbn [mbind option_bind].
  rewrite powChk_pos by exact Hf. reflexivity.
Qed.

Lemma Checked_edgeFalloff_defined (uniforms : Uniforms) (hitR : R) :
  diskInnerRadius uniforms <> diskOuterRadius uniforms ->
  diskEdgeSoftnessInner uniforms <> 0 ->
  diskEdgeSoftnessOuter uniforms <> 0 ->
  Checked.edgeFalloff uniforms hitR = Some (edgeFalloff uniforms hitR).
Proof.
  intros Hr Hi Ho. unfold Checked.edgeFalloff.
  rewrite divChk_nonzero by lra. cbn [mbind option_bind].
  rewrite !smoothstepChk_edges by lra. reflexivity.
Qed.

Lemma pow_positive (x y : R) : 0 < x -> 0 < pow x y.
Proof. intros H. rewrite pow_pos by exact H. unfold Rpower. apply exp_pos. Qed.

Lemma Checked_noiseCoord_defined (uniforms : Uniforms)
    (hitR hitAngle phaseTime : R) :
  0 < hitR ->
  Checked.noiseCoord uniforms hitR hitAngle phaseTime
  = Some (noiseCoord uniforms hitR hitAngle phaseTime).
Proof.
  intros Hh. unfold Checked.noiseCoord.
  rewrite powChk_pos by exact Hh. cbn [mbind option_bind].
  pose proof (pow_positive hitR 1.5 Hh).
  rewrite divChk_nonzero by lra. cbn [mbind option_bind].
  pose proof (stretch_denominator (turbulenceStretch uniforms)) as Hs.
  rewrite !divChk_nonzero by lra. reflexivity.
Qed.

Lemma Checked_turbulence_defined (uniforms : Uniforms)
    (hitR hitAngle time : R) :
  turbulenceCycleTime uniforms <> 0 -> 0 < hitR ->
  Checked.turbulence uniforms hitR hitAngle time
  = Some (turbulence uniforms hitR hitAngle time).
Proof.
  intros Hc Hh. unfold Checked.turbulence.
  rewrite modChk_nonzero by exact Hc. cbn [mbind option_bind].
  rewrite divChk_nonzero by exact Hc. cbn [mbind option_bind].
  rewrite !Checked_noiseCoord_defined by exact Hh. reflexivity.
Qed.

Lemma Checked_finalOpacity_defined (uniforms : Uniforms)
    (hitR hitAngle time : R) (rayDir : vec3) :
  diskInnerRadius uniforms <> diskOuterRadius uniforms ->
  diskEdgeSoftnessInner uniforms <> 0 ->
  diskEdgeSoftnessOuter uniforms <> 0 ->
  turbulenceCycleTime uniforms <> 0 ->
  0 < turbulenceSharpness uniforms ->
  0 < hitR ->
  Checked.finalOpacity uniforms hitR hitAngle time
  = Some (w (createAccretionDiskColor uniforms hitR hitAngle time rayDir)).
Proof.
  intros Hr Hi Ho Hc Hs Hh. unfold Checked.finalOpacity.
  rewrite Checked_edgeFalloff_defined by assumption.
  cbn [mbind option_bind]. unfold Checked.ringOpacity.
  rewrite Checked_turbulence_defined by assumption.
  cbn [mbind option_bind].
  rewrite powChk_nonneg; [reflexivity| |exact Hs].
  apply clamp_bounds. lra.
Qed.

Lemma Checked_createAccretionDiskColor_defined (uniforms : Uniforms)
    (hitR hitAngle time : R) (rayDir : vec3) :
  regular uniforms ->
  diskInnerRadius uniforms < hitR < diskOuterRadius uniforms ->
  length3 rayDir <= 1 ->
  Checked.createAccretionDiskColor uniforms hitR hitAngle time rayDir
  = Some (createAccretionDiskColor uniforms hitR hitAngle time rayDir).
Proof.
  intros Hreg [Hlo Hhi] HL. destruct Hreg.
  unfold Checked.createAccretionDiskColor.
  rewrite Checked_tempK_defined by lra. cbn [mbind option_bind].
  rewrite Checked_dopplerBoost_defined by (try lra; assumption).
  cbn [mbind option_bind].
  rewrite (Checked_finalOpacity_defined uniforms hitR hitAngle time rayDir)
    by (try lra; assumption).
  reflexivity.
Qed.

Lemma createAccretionDiskColor_nonneg (uniforms : Uniforms)
    (hitR hitAngle time : R) (rayDir : vec3) :
  0 <= diskBrightness uniforms ->
  nonneg3 (xyz (createAccretionDiskColor uniforms hitR hitAngle time rayDir)).
Proof.
  intros Hb. unfold createAccretionDiskColor. cbn [xyz].
  destruct (blackbodyColor_nonneg (tempK uniforms hitR)) as (Hx & Hy & Hz).
  assert (Hd : 0.1 <= dopplerBoost uniforms hitR hitAngle rayDir)
    by (unfold dopplerBoost; apply clamp_bounds; lra).
  unfold nonneg3, muls3. cbn [x3 y3 z3].
  repeat split; apply Rmult_le_pos; try exact Hb; apply Rmult_le_pos; lra.
Qed.

(** ** The camera rays *)

Lemma length3_nonzero_component (v : vec3) :
  x3 v <> 0 \/ y3 v <> 0 \/ z3 v <> 0 -> length3 v <> 0.
Proof.
  intros H E. apply length3_zero in E. rewrite E in H. cbn [x3 y3 z3] in H.
  destruct H as [H|[H|H]]; apply H; reflexivity.
Qed.

Lemma div_nonzero (a b : R) : a <> 0 -> b <> 0 -> a / b <> 0.
Proof.
  intros Ha Hb E. apply Ha.
  replace a with (a / b * b) by (field; exact Hb). rewrite E. ring.
Qed.

(** The three [normalize] of the camera setup and the division by the
    window height are defined when the view direction is not vertical. *)
Lemma Checked_initRay_defined (uniforms : Uniforms) (screenUV : vec2) :
  y2 (resolution uniforms) <> 0 ->
  x3 (cameraTarget uniforms) <> x3 (cameraPosition uniforms)
  \/ z3 (cameraTarget uniforms) <> z3 (cameraPosition uniforms) ->
  Checked.initRay uniforms screenUV = Some (initRay uniforms screenUV)
  /\ length3 (rayDir (initRay uniforms screenUV)) = 1
  /\ 0 < dot3 (rayDir (initRay uniforms screenUV))
              (normalize (sub3 (cameraTarget uniforms)
                               (cameraPosition uniforms))).
Proof.
  intros Hw Hv.
  set (d := sub3 (cameraTarget uniforms) (cameraPosition uniforms)).
  assert (Hd : length3 d <> 0).
  { apply length3_nonzero_component. unfold d, sub3. cbn [x3 y3 z3].
    destruct Hv as [H|H]; [left|right; right]; lra. }
  set (f := normalize d).
  assert (Hf : length3 f = 1) by (apply normalize_unit, Hd).
  assert (Hxz : x3 f <> 0 \/ z3 f <> 0).
  { unfold f, normalize, divs3. cbn [x3 y3 z3].
    destruct Hv as [H|H]; [left|right];
      (apply div_nonzero; [unfold d, sub3; cbn [x3 y3 z3]; lra|exact Hd]). }
  assert (Hc : length3 (cross (Vec3 0 1 0) f) <> 0).
  { apply length3_nonzero_component. unfold cross. cbn [x3 y3 z3].
    destruct Hxz as [H|H]; [right; right|left]; lra. }
  set (uv := muls2 (subs2 screenUV 0.5) 2).
  set (a := x2 uv * (x2 (resolution uniforms) / y2 (resolution uniforms))).
  pose proof (ray_along_forward f a (y2 uv) Hf) as Hray. cbn zeta in Hray.
  set (v := add3 (add3 (muls3 f 1)
                       (muls3 (normalize (cross (Vec3 0 1 0) f)) a))
                 (muls3 (cross f (normalize (cross (Vec3 0 1 0) f))) (y2 uv)))
    in *.
  assert (Hv0 : length3 v <> 0).
  { intros H0. apply length3_zero in H0. rewrite H0 in Hray.
    unfold dot3 in Hray. cbn [x3 y3 z3] in Hray. lra. }
  assert (E : initRay uniforms screenUV
              = {| rayDir := normalize v;
                   rayPos := cameraPosition uniforms;
                   prevPos := cameraPosition uniforms;
                   color := Vec3 0 0 0; alpha := 0; escaped := 0;
                   captured := 0 |}) by reflexivity.
  split; [|rewrite E; cbn [rayDir]; split].
  - unfold Checked.initRay. rewrite divChk_nonzero by exact Hw.
    cbn [mbind option_bind]. fold d.
    rewrite (normalizeChk_nonzero d Hd). cbn [mbind option_bind]. fold f.
    rewrite (normalizeChk_nonzero _ Hc). cbn [mbind option_bind].
    fold uv. cbn [x2 y2]. fold a. fold v.
    rewrite (normalizeChk_nonzero v Hv0). cbn [mbind option_bind].
    rewrite E. reflexivity.
  - apply normalize_unit, Hv0.
  - unfold normalize at 1. rewrite dot3_divs_l. fold d. fold f. rewrite Hray.
    pose proof (length3_nonneg v). apply Rdiv_lt_0_compat; lra.
Qed.

(** ** The marching step *)

Lemma length3_negate3 (v : vec3) : length3 (negate3 v) = length3 v.
Proof.
  unfold length3, negate3. cbn [x3 y3 z3]. f_equal. ring.
Qed.

Lemma length3_divs3_self (v : vec3) :
  length3 v <> 0 -> length3 (divs3 (negate3 v) (length3 v)) = 1.
Proof.
  intros H.
  replace (divs3 (negate3 v) (length3 v)) with (normalize (negate3 v))
    by (unfold normalize; rewrite length3_negate3; reflexivity).
  apply normalize_unit. rewrite length3_negate3. exact H.
Qed.

(** A unit direction plus a vector shorter than 1 is not the zero
    vector. *)
Lemma bent_nonzero (d c : vec3) (b : R) :
  length3 d = 1 -> length3 c = 1 -> Rabs b < 1 ->
  length3 (add3 d (muls3 c b)) <> 0.
Proof.
  intros Hd Hc Hb H0. apply length3_zero in H0.
  assert (E : d = muls3 c (- b)).
  { unfold add3, muls3 in H0. injection H0 as Hx Hy Hz.
    apply vec3_eq; unfold muls3; cbn [x3 y3 z3] in *; lra. }
  rewrite E, length3_muls3, Hc, Rabs_Ropp in Hd. lra.
Qed.

Lemma bend_below_one (rs r sl : R) :
  0 < rs -> rs * 1.01 <= r -> Rabs sl < rs * (1.01 * 1.01) ->
  Rabs (rs / (r * r) * sl) < 1.
Proof.
  intros Hrs Hr Hsl.
  assert (Hr2 : rs * rs * (1.01 * 1.01) <= r * r) by nra.
  assert (Hpos : 0 < r * r) by nra.
  rewrite Rabs_mult. rewrite (Rabs_right (rs / (r * r)))
    by (apply Rle_ge, Rlt_le, Rdiv_lt_0_compat; lra).
  apply (Rmult_lt_reg_r (r * r)); [exact Hpos|].
  replace (rs / (r * r) * Rabs sl * (r * r)) with (rs * Rabs sl)
    by (field; lra).
  pose proof (Rabs_pos sl). nra.
Qed.

Lemma Checked_bendAndStep_defined (uniforms : Uniforms) (st : RayState) :
  0 < blackHoleMass uniforms ->
  Rabs (stepSize uniforms * gravitationalLensing uniforms)
  < blackHoleMass uniforms * 2 * (1.01 * 1.01) ->
  blackHoleMass uniforms * 2 * 1.01 <= length3 (rayPos st) ->
  length3 (rayDir st) = 1 ->
  Checked.bendAndStep uniforms (length3 (rayPos st)) (stepSize uniforms) st
  = Some (bendAndStep uniforms (length3 (rayPos st)) (stepSize uniforms) st)
  /\ length3 (rayDir (bendAndStep uniforms (length3 (rayPos st))
                        (stepSize uniforms) st)) = 1.
Proof.
  intros Hm Hb Hr Hd.
  set (r := length3 (rayPos st)) in *.
  assert (Hr0 : r <> 0) by lra.
  assert (Hc : length3 (divs3 (negate3 (rayPos st)) r) = 1)
    by (apply length3_divs3_self; exact Hr0).
  set (b := blackHoleMass uniforms * 2 / (r * r) * stepSize uniforms
            * gravitationalLensing uniforms).
  assert (Hb1 : Rabs b < 1).
  { replace b with (blackHoleMass uniforms * 2 / (r * r)
                    * (stepSize uniforms * gravitationalLensing uniforms))
      by (unfold b; ring).
    apply bend_below_one; [lra|exact Hr|exact Hb]. }
  pose proof (bent_nonzero (rayDir st) _ b Hd Hc Hb1) as Hn.
  split.
  - unfold Checked.bendAndStep. rewrite divs3Chk_nonzero by exact Hr0.
    cbn [mbind option_bind].
    rewrite divChk_nonzero by (intros E; apply Rmult_integral in E; tauto).
    cbn [mbind option_bind]. fold b.
    rewrite (normalizeChk_nonzero _ Hn). reflexivity.
  - unfold bendAndStep. cbn [rayDir]. fold b. apply normalize_unit, Hn.
Qed.

(** ** The loop *)

Lemma composite_rayOk (uniforms : Uniforms) (st : RayState)
    (hitR hitAngle time : R) :
  0 <= turbulenceSharpness uniforms -> 0 <= diskBrightness uniforms ->
  rayOk st ->
  rayOk (composite st
           (createAccretionDiskColor uniforms hitR hitAngle time (rayDir st))).
Proof.
  intros Hs Hb (Hd & Ha & Hx & Hy & Hz).
  set (dr := createAccretionDiskColor uniforms hitR hitAngle time (rayDir st)).
  pose proof (proj1 (diskOpacity_range uniforms hitR hitAngle time (rayDir st)
                       Hs)) as Hw. fold dr in Hw.
  destruct (createAccretionDiskColor_nonneg uniforms hitR hitAngle time
              (rayDir st) Hb) as (Cx & Cy & Cz). fold dr in Cx, Cy, Cz.
  split; [exact Hd|]. split.
  - pose proof (composite_alpha st dr Ha Hw). lra.
  - unfold composite, nonneg3, add3, muls3. cbn [color x3 y3 z3].
    assert (P : forall c k, 0 <= c -> 0 <= k -> 0 <= c + k * w dr * (1 - alpha st)).
    { intros c k Hc Hk. assert (0 <= k * w dr) by (apply Rmult_le_pos; lra).
      assert (0 <= k * w dr * (1 - alpha st)) by (apply Rmult_le_pos; lra).
      lra. }
    repeat split; apply P; assumption.
Qed.

Lemma hit_radius_nonneg (p c : vec3) (t : R) (h : vec3) :
  0 <= sqrt (x3 h * x3 h + z3 h * z3 h).
Proof. apply sqrt_pos. Qed.

Lemma Checked_diskPlaneIntersection_defined (uniforms : Uniforms)
    (st : RayState) :
  regular uniforms -> rayOk st ->
  Checked.diskPlaneIntersection uniforms st
  = Some (diskPlaneIntersection uniforms (createAccretionDiskColor uniforms)
            st)
  /\ rayOk (diskPlaneIntersection uniforms (createAccretionDiskColor uniforms)
              st).
Proof.
  intros Hreg Hok.
  assert (Hs : 0 <= turbulenceSharpness uniforms)
    by (apply Rlt_le, regular_sharpness, Hreg).
  pose proof (regular_brightness uniforms Hreg) as Hb.
  unfold Checked.diskPlaneIntersection, diskPlaneIntersection, hitROf,
    hitPosOf.
  destruct (lessThan (y3 (prevPos st) * y3 (rayPos st)) 0) eqn:Hx;
    [|cbn [andb]; auto].
  destruct (lessThan (alpha st) 0.99); cbn [andb]; [|auto].
  apply lessThan_spec in Hx.
  rewrite divChk_nonzero by (apply crossing_denominator; exact Hx).
  cbn [mbind option_bind].
  match goal with |- context [inDisk ?u ?r] =>
    set (hitR := r); destruct (inDisk u hitR) eqn:Hin end; [|auto].
  apply inDisk_spec in Hin.
  rewrite Checked_createAccretionDiskColor_defined;
    [|exact Hreg|exact Hin|destruct Hok as (-> & _); lra].
  cbn [mbind option_bind]. split; [reflexivity|].
  apply composite_rayOk; assumption.
Qed.

Lemma Checked_loopBody_defined (uniforms : Uniforms) (st : RayState) :
  regular uniforms -> rayOk st ->
  Checked.loopBody uniforms st = Some (loopBody uniforms st)
  /\ match loopBody uniforms st with
     | Break s' => rayOk s'
     | Continue s' => rayOk s'
     end.
Proof.
  intros Hreg Hok. unfold Checked.loopBody, loopBody.
  destruct (greaterThan (escaped st) 0.5 || greaterThan (captured st) 0.5
            || greaterThan (alpha st) 0.99); [auto|].
  destruct (lessThan (length3 (rayPos st)) (blackHoleMass uniforms * 2 * 1.01))
    eqn:Hcap; [split; [reflexivity|exact Hok]|].
  destruct (greaterThan (length3 (rayPos st)) 100);
    [split; [reflexivity|exact Hok]|].
  assert (Hr : blackHoleMass uniforms * 2 * 1.01 <= length3 (rayPos st)).
  { destruct (Rlt_dec (length3 (rayPos st)) (blackHoleMass uniforms * 2 * 1.01))
      as [L|L]; [|lra].
    rewrite lessThan_true in Hcap by exact L. discriminate. }
  destruct (Checked_bendAndStep_defined uniforms st
              (regular_mass uniforms Hreg) (regular_bend uniforms Hreg) Hr
              (proj1 Hok)) as [E1 Hunit].
  rewrite E1. cbn [mbind option_bind].
  set (st1 := bendAndStep uniforms (length3 (rayPos st)) (stepSize uniforms)
                st) in *.
  assert (Hok1 : rayOk st1).
  { split; [exact Hunit|]. destruct Hok as (_ & Ha & Hc). split; assumption. }
  destruct (Checked_diskPlaneIntersection_defined uniforms st1 Hreg Hok1)
    as [E2 Hok2].
  rewrite E2. cbn [mbind option_bind]. split; [reflexivity|exact Hok2].
Qed.

Lemma Checked_Loop_defined (uniforms : Uniforms) (count : nat)
    (st : RayState) :
  regular uniforms -> rayOk st ->
  Checked.Loop count (Checked.loopBody uniforms) st
  = Some (Loop count (loopBody uniforms) st)
  /\ rayOk (fst (Loop count (loopBody uniforms) st)).
Proof.
  intros Hreg. revert st. induction count as [|n IH]; intros st Hok.
  - split; [reflexivity|exact Hok].
  - cbn [Checked.Loop Loop].
    destruct (Checked_loopBody_defined uniforms st Hreg Hok) as [E Hctl].
    rewrite E. cbn [mbind option_bind].
    destruct (loopBody uniforms st) as [s'|s'];
      [split; [reflexivity|exact Hctl]|].
    destruct (IH s' Hctl) as [E' Hok']. rewrite E'. cbn [mbind option_bind].
    destruct (Loop n (loopBody uniforms) s') as [sf k].
    split; [reflexivity|exact Hok'].
Qed.

(** ** Background and gamma correction *)

Lemma nonneg3_add3 (a b : vec3) : nonneg3 a -> nonneg3 b -> nonneg3 (add3 a b).
Proof.
  intros (Ax & Ay & Az) (Bx & By & Bz). unfold nonneg3, add3. cbn [x3 y3 z3].
  repeat split; lra.
Qed.

Lemma nonneg3_muls3 (a : vec3) (s : R) :
  nonneg3 a -> 0 <= s -> nonneg3 (muls3 a s).
Proof.
  intros (Ax & Ay & Az) Hs. unfold nonneg3, muls3. cbn [x3 y3 z3].
  repeat split; apply Rmult_le_pos; assumption.
Qed.

Lemma bgColor_nonneg (uniforms : Uniforms) (rayDir : vec3) :
  regular uniforms -> nonneg3 (bgColor uniforms rayDir).
Proof.
  intros Hreg. unfold bgColor.
  destruct (regular_nebula1 uniforms Hreg) as [N1 B1].
  destruct (regular_nebula2 uniforms Hreg) as [N2 B2].
  pose proof (regular_background uniforms Hreg) as Hbg.
  pose proof (regular_starBrightness uniforms Hreg) as Hsb.
  assert (S : nonneg3 (if greaterThan (starsEnabled uniforms) 0.5
                       then add3 (starBackgroundColor uniforms)
                              (createStarField uniforms rayDir)
                       else starBackgroundColor uniforms)).
  { destruct (greaterThan (starsEnabled uniforms) 0.5); [|assumption].
    apply nonneg3_add3; [assumption|].
    apply createStarField_nonneg; assumption. }
  destruct (greaterThan (nebulaEnabled uniforms) 0.5); [|exact S].
  apply nonneg3_add3; [exact S|].
  apply createNebulaField_nonneg; assumption.
Qed.

Lemma Checked_addBackground_defined (uniforms : Uniforms) (st : RayState) :
  regular uniforms -> rayOk st ->
  Checked.addBackground uniforms st = Some (addBackground uniforms st)
  /\ nonneg3 (color (addBackground uniforms st)).
Proof.
  intros Hreg (Hd & Ha & Hc). unfold Checked.addBackground, addBackground.
  destruct (backgroundGate st); [|split; [reflexivity|exact Hc]].
  assert (E : Checked.bgColor uniforms (rayDir st)
              = Some (bgColor uniforms (rayDir st))).
  { unfold Checked.bgColor, bgColor.
    destruct (greaterThan (starsEnabled uniforms) 0.5); [|reflexivity].
    rewrite Checked_createStarField_defined
      by (apply regular_starSize, Hreg).
    reflexivity. }
  rewrite E. cbn [mbind option_bind]. split; [reflexivity|].
  cbn [color set_color]. apply nonneg3_add3; [exact Hc|].
  apply nonneg3_muls3; [apply bgColor_nonneg, Hreg|lra].
Qed.

Lemma Checked_gamma_defined (st : RayState) :
  nonneg3 (color st) ->
  Checked.gamma st = Some (gamma st)
  /\ w (gamma st) = 1 /\ nonneg3 (xyz (gamma st)).
Proof.
  intros Hc. unfold Checked.gamma, gamma.
  rewrite pow3Chk_nonneg by (try exact Hc; lra).
  cbn [mbind option_bind w xyz]. split; [reflexivity|]. split; [reflexivity|].
  unfold nonneg3, pow3. cbn [x3 y3 z3]. repeat split; apply pow_nonneg.
Qed.

Lemma afterLoop_rayOk (st : RayState) : rayOk st -> rayOk (afterLoop st).
Proof.
  intros H. unfold afterLoop. destruct (lessThan (captured st) 0.5);
    [|exact H]. exact H.
Qed.

(** On a regular parameter set the whole shader is evaluated without an
    undefined operation, for every pixel, and returns a colour with
    non-negative components and alpha 1. *)
Lemma Checked_createBlackHoleShader_defined (uniforms : Uniforms)
    (screenUV : vec2) :
  regular uniforms ->
  Checked.createBlackHoleShader uniforms screenUV
  = Some (createBlackHoleShader uniforms screenUV)
  /\ w (createBlackHoleShader uniforms screenUV) = 1
  /\ nonneg3 (xyz (createBlackHoleShader uniforms screenUV)).
Proof.
  intros Hreg.
  destruct (Checked_initRay_defined uniforms screenUV
              (regular_window uniforms Hreg) (regular_view uniforms Hreg))
    as (E0 & Hunit & _).
  assert (Hok0 : rayOk (initRay uniforms screenUV)).
  { split; [exact Hunit|].
    destruct (initRay_fields uniforms screenUV) as (_ & Hc & Ha & _).
    rewrite Ha, Hc. unfold nonneg3. cbn [x3 y3 z3]. repeat split; lra. }
  destruct (Checked_Loop_defined uniforms 64 (initRay uniforms screenUV)
              Hreg Hok0) as [E1 Hok1].
  apply afterLoop_rayOk in Hok1.
  destruct (Checked_addBackground_defined uniforms _ Hreg Hok1) as [E2 Hc2].
  destruct (Checked_gamma_defined _ Hc2) as (E3 & Hw & Hx).
  unfold Checked.createBlackHoleShader, createBlackHoleShader, march.
  rewrite E0. cbn [mbind option_bind]. rewrite E1. cbn [mbind option_bind].
  rewrite E2. cbn [mbind option_bind]. rewrite E3.
  split; [reflexivity|]. split; assumption.
Qed.

(** ** Parameters outside the regular ones *)

(** A vertical view: [cross worldUp camForward] is the zero vector. *)
Lemma Checked_initRay_vertical (uniforms : Uniforms) (screenUV : vec2) :
  x3 (cameraTarget uniforms) = x3 (cameraPosition uniforms) ->
  z3 (cameraTarget uniforms) = z3 (cameraPosition uniforms) ->
  Checked.initRay uniforms screenUV = None.
Proof.
  intros Hx Hz. unfold Checked.initRay.
  destruct (divChk (x2 (resolution uniforms)) (y2 (resolution uniforms)));
    [|reflexivity].
  cbn [mbind option_bind].
  set (d := sub3 (cameraTarget uniforms) (cameraPosition uniforms)).
  destruct (normalizeChk_cases d) as [E|E]; rewrite E; [|reflexivity].
  cbn [mbind option_bind].
  rewrite normalizeChk_zero; [reflexivity|].
  apply length3_known; [lra|].
  unfold cross, normalize, divs3, d, sub3. cbn [x3 y3 z3].
  rewrite Hx, Hz. unfold Rdiv. ring.
Qed.

(** Edge softness 0, the lowest value of both controls: a [smoothstep]
    between equal edges. *)
Lemma Checked_edgeFalloff_sharp_edge (uniforms : Uniforms) (hitR : R) :
  diskEdgeSoftnessInner uniforms = 0 \/ diskEdgeSoftnessOuter uniforms = 0 ->
  Checked.edgeFalloff uniforms hitR = None.
Proof.
  intros H. unfold Checked.edgeFalloff.
  destruct (divChk (hitR - diskInnerRadius uniforms)
              (diskOuterRadius uniforms - diskInnerRadius uniforms));
    [|reflexivity].
  cbn [mbind option_bind]. destruct H as [H|H]; rewrite H.
  - rewrite smoothstepChk_equal. reflexivity.
  - destruct (smoothstepChk 0 (diskEdgeSoftnessInner uniforms) _);
      [|reflexivity].
    cbn [mbind option_bind]. replace (1 - 0) with 1 by ring.
    rewrite smoothstepChk_equal. reflexivity.
Qed.

(** A colour with a negative component has no gamma correction. *)
Lemma Checked_gamma_negative (st : RayState) :
  x3 (color st) < 0 \/ y3 (color st) < 0 \/ z3 (color st) < 0 ->
  Checked.gamma st = None.
Proof.
  intros H. unfold Checked.gamma, pow3Chk. cbn [x3 y3 z3].
  destruct H as [H|[H|H]].
  - rewrite (powChk_negative _ _ H). reflexivity.
  - destruct (powChk (x3 (color st)) (1 / 2.2)); [|reflexivity].
    cbn [mbind option_bind]. rewrite (powChk_negative _ _ H). reflexivity.
  - destruct (powChk (x3 (color st)) (1 / 2.2)); [|reflexivity].
    cbn [mbind option_bind].
    destruct (powChk (y3 (color st)) (1 / 2.2)); [|reflexivity].
    cbn [mbind option_bind]. rewrite (powChk_negative _ _ H). reflexivity.
Qed.

(* ================================================================== *)
(** * Singularities of the shader *)
(* ================================================================== *)

Lemma Rabs_small (x b : R) : - b < x < b -> Rabs x < b.
Proof. intros H. unfold Rabs. destruct (Rcase_abs x); lra. Qed.

Ltac regular_sample :=
  constructor;
  cbn [blackHoleMass stepSize gravitationalLensing resolution cameraTarget
       cameraPosition diskInnerRadius diskEdgeSoftnessInner
       diskEdgeSoftnessOuter turbulenceCycleTime turbulenceSharpness
       diskBrightness starSize starBrightness starBackgroundColor
       nebula1Color nebula1Brightness nebula2Color nebula2Brightness
       sampleUniforms sampleWith x2 y2 x3 y3 z3];
  unfold nonneg3; cbn [x3 y3 z3];
  first [ apply Rabs_small; lra | right; lra | repeat split; lra | lra ].

(** C2, amended.  On a regular parameter set (see [regular]) the shader
    is evaluated without an undefined operation for every pixel: the
    checked shader returns the colour of the shader, whose alpha is 1 and
    whose components are not negative.  Of the listed singularities, the
    asin argument is clamped to [-1, 1] and the stretch denominator is
    max(stretch, 0.1), whatever the parameters; the division by r is
    guarded by the capture test and the plane-crossing division by the
    sign test.  The mod and the division by turbulenceCycleTime have no
    clamp and no guard: a non-zero cycle time is a hypothesis. *)
Theorem C2_regular_parameters_defined (uniforms : Uniforms)
    (screenUV : vec2) :
  regular uniforms ->
  (Checked.createBlackHoleShader uniforms screenUV
   = Some (createBlackHoleShader uniforms screenUV)
   /\ w (createBlackHoleShader uniforms screenUV) = 1
   /\ nonneg3 (xyz (createBlackHoleShader uniforms screenUV)))
  /\ (forall x, asinChk (clamp x (-1) 1) = Some (asin (clamp x (-1) 1)))
  /\ (forall stretch, Rmax stretch 0.1 <> 0)
  /\ (forall st, blackHoleMass uniforms * 2 * 1.01 <= length3 (rayPos st) ->
        length3 (rayPos st) <> 0)
  /\ (forall st, y3 (prevPos st) * y3 (rayPos st) < 0 ->
        y3 (rayPos st) - y3 (prevPos st) <> 0).
Proof.
  intros Hreg.
  split; [apply Checked_createBlackHoleShader_defined; exact Hreg|].
  split; [intros x; apply asinChk_clamp|].
  split; [intros s; unfold Rmax; destruct (Rle_dec s 0.1); lra|].
  split.
  - intros st Hr. pose proof (regular_mass uniforms Hreg). lra.
  - intros st Hx. apply crossing_denominator. exact Hx.
Qed.

Lemma C2_regular_parameters_defined_witness :
  regular sampleUniforms
  /\ Checked.createBlackHoleShader sampleUniforms (Vec2 0.5 0.5)
     = Some (createBlackHoleShader sampleUniforms (Vec2 0.5 0.5))
  /\ w (createBlackHoleShader sampleUniforms (Vec2 0.5 0.5)) = 1
  /\ nonneg3 (xyz (createBlackHoleShader sampleUniforms (Vec2 0.5 0.5))).
Proof.
  assert (Hreg : regular sampleUniforms) by regular_sample.
  split; [exact Hreg|].
  exact (proj1 (C2_regular_parameters_defined sampleUniforms (Vec2 0.5 0.5)
                  Hreg)).
Defined.

(** ** A ray that hits the disk in its first step *)

Lemma Checked_turbulence_zero_cycle (uniforms : Uniforms)
    (hitR hitAngle time : R) :
  turbulenceCycleTime uniforms = 0 ->
  Checked.turbulence uniforms hitR hitAngle time = None.
Proof.
  intros Hc. unfold Checked.turbulence. rewrite Hc, modChk_zero. reflexivity.
Qed.

Lemma Checked_createAccretionDiskColor_zero_cycle (uniforms : Uniforms)
    (hitR hitAngle time : R) (rayDir : vec3) :
  turbulenceCycleTime uniforms = 0 ->
  Checked.createAccretionDiskColor uniforms hitR hitAngle time rayDir = None.
Proof.
  intros Hc.
  unfold Checked.createAccretionDiskColor, Checked.finalOpacity,
    Checked.ringOpacity.
  rewrite Checked_turbulence_zero_cycle by exact Hc.
  destruct (Checked.tempK uniforms hitR); [|reflexivity].
  cbn [mbind option_bind].
  destruct (Checked.dopplerBoost uniforms hitR hitAngle rayDir);
    [|reflexivity].
  cbn [mbind option_bind].
  destruct (Checked.edgeFalloff uniforms hitR); reflexivity.
Qed.

Lemma initRay_zeroCycle_checked :
  Checked.initRay zeroCycle (Vec2 0.5 0.125) = Some downwardRay.
Proof.
  rewrite <- initRay_zeroCycle.
  apply Checked_initRay_defined;
    cbn [resolution cameraTarget cameraPosition zeroCycle sampleWith
         x2 y2 x3 y3 z3]; [lra|right; lra].
Qed.

Lemma bendAndStep_zeroCycle :
  bendAndStep zeroCycle 5 10 downwardRay = afterFirstStep.
Proof.
  unfold bendAndStep, afterFirstStep.
  cbn [rayDir rayPos prevPos color alpha escaped captured downwardRay
       blackHoleMass gravitationalLensing zeroCycle sampleWith].
  assert (E : normalize
                (add3 (Vec3 0 (-0.6) 0.8)
                   (muls3 (divs3 (negate3 (Vec3 0 3 4)) 5)
                      (1 * 2 / (5 * 5) * 10 * 0)))
              = Vec3 0 (-0.6) 0.8).
  { unfold normalize. rewrite (length3_known _ 1).
    - apply vec3_eq; cbn [x3 y3 z3 divs3 add3 muls3 negate3]; lra.
    - lra.
    - cbn [x3 y3 z3 divs3 add3 muls3 negate3]. lra. }
  rewrite E. f_equal.
  apply vec3_eq; cbn [x3 y3 z3 add3 muls3]; lra.
Qed.

Lemma diskPlaneIntersection_zeroCycle :
  Checked.diskPlaneIntersection zeroCycle afterFirstStep = None.
Proof.
  unfold Checked.diskPlaneIntersection.
  cbn [rayDir rayPos prevPos alpha afterFirstStep x3 y3 z3].
  rewrite !lessThan_true by lra. cbn [andb].
  rewrite divChk_nonzero by lra. cbn [mbind option_bind].
  assert (Eh : mix3 (Vec3 0 3 4) (Vec3 0 (-3) 12) (- (3) / (-3 - 3))
               = Vec3 0 0 8).
  { apply vec3_eq; unfold mix3, mix; cbn [x3 y3 z3]; lra. }
  rewrite Eh. cbn [x3 y3 z3].
  replace (0 * 0 + 8 * 8) with (8 * 8) by ring.
  rewrite sqrt_square by lra.
  assert (Ed : inDisk zeroCycle 8 = true).
  { apply inDisk_spec.
    cbn [diskInnerRadius diskOuterRadius zeroCycle sampleWith]. lra. }
  rewrite Ed.
  rewrite Checked_createAccretionDiskColor_zero_cycle; reflexivity.
Qed.

Lemma loopBody_zeroCycle : Checked.loopBody zeroCycle downwardRay = None.
Proof.
  unfold Checked.loopBody.
  cbn [escaped captured alpha downwardRay].
  rewrite !greaterThan_false by lra. cbn [orb].
  assert (Er : length3 (rayPos downwardRay) = 5) by apply length3_0_3_4.
  assert (Ed : length3 (rayDir downwardRay) = 1).
  { apply length3_known; [lra|]. cbn [rayDir downwardRay x3 y3 z3]. lra. }
  destruct (Checked_bendAndStep_defined zeroCycle downwardRay) as [E _].
  - cbn [blackHoleMass zeroCycle sampleWith]. lra.
  - cbn [blackHoleMass stepSize gravitationalLensing zeroCycle sampleWith].
    apply Rabs_small. lra.
  - rewrite Er. cbn [blackHoleMass zeroCycle sampleWith]. lra.
  - exact Ed.
  - rewrite E. rewrite Er.
    cbn [blackHoleMass stepSize zeroCycle sampleWith].
    rewrite lessThan_false by lra. rewrite greaterThan_false by lra.
    cbn [mbind option_bind].
    rewrite bendAndStep_zeroCycle, diskPlaneIntersection_zeroCycle.
    reflexivity.
Qed.

Lemma loopBody_zeroMass (screenUV : vec2) :
  Checked.loopBody zeroMass (initRay zeroMass screenUV) = None.
Proof.
  unfold Checked.loopBody.
  destruct (initRay_fields zeroMass screenUV) as (Hp & _ & Ha & He & Hc).
  rewrite Hp, Ha, He, Hc.
  rewrite !greaterThan_false by lra. cbn [orb].
  cbn [cameraPosition blackHoleMass zeroMass sampleWith].
  rewrite (length3_known (Vec3 0 0 0) 0) by (cbn [x3 y3 z3]; lra).
  rewrite lessThan_false by lra. rewrite greaterThan_false by lra.
  unfold Checked.bendAndStep. rewrite divs3Chk_zero. reflexivity.
Qed.

Lemma Checked_Loop_first_fails {S : Type} (n : nat)
    (body : S -> option (LoopCtl S)) (s : S) :
  body s = None -> Checked.Loop (Datatypes.S n) body s = None.
Proof. intros E. cbn [Checked.Loop]. rewrite E. reflexivity. Qed.

(** C2, as stated, fails.  With turbulenceCycleTime = 0 the ray through
    pixel (0.5, 0.125) from (0, 3, 4) crosses the disk plane at radius 8 in
    its first step, and the disk shading takes [time mod 0] and divides by
    0: nothing clamps or guards the cycle time.  With mass 0 and the camera
    at the centre the capture test [r < 0] does not fire and the first
    iteration divides by r = 0. *)
Lemma C2_cycle_time_not_guarded :
  turbulenceCycleTime zeroCycle = 0
  /\ Checked.createBlackHoleShader zeroCycle (Vec2 0.5 0.125) = None
  /\ Checked.createBlackHoleShader zeroMass (Vec2 0.5 0.5) = None.
Proof.
  split; [reflexivity|]. split.
  - unfold Checked.createBlackHoleShader.
    rewrite initRay_zeroCycle_checked. cbn [mbind option_bind].
    rewrite (Checked_Loop_first_fails 63 _ _ loopBody_zeroCycle).
    reflexivity.
  - unfold Checked.createBlackHoleShader.
    assert (E : Checked.initRay zeroMass (Vec2 0.5 0.5)
                = Some (initRay zeroMass (Vec2 0.5 0.5))).
    { apply Checked_initRay_defined;
        cbn [resolution cameraTarget cameraPosition zeroMass sampleWith
             x2 y2 x3 y3 z3]; [lra|right; lra]. }
    rewrite E. cbn [mbind option_bind].
    rewrite (Checked_Loop_first_fails 63 _ _ (loopBody_zeroMass _)).
    reflexivity.
Qed.

(* ================================================================== *)
(** * Camera rays, edge falloff and opacity *)
(* ================================================================== *)

Lemma initRay_centre (uniforms : Uniforms) :
  length3 (normalize (sub3 (cameraTarget uniforms) (cameraPosition uniforms)))
  = 1 ->
  rayDir (initRay uniforms (Vec2 0.5 0.5))
  = normalize (sub3 (cameraTarget uniforms) (cameraPosition uniforms)).
Proof.
  intros Hf. unfold initRay. cbn [rayDir].
  set (camForward :=
         normalize (sub3 (cameraTarget uniforms) (cameraPosition uniforms)))
    in *.
  set (camRight := normalize (cross (Vec3 0 1 0) camForward)).
  set (camUp := cross camForward camRight).
  match goal with |- normalize ?v = _ =>
    assert (E : v = camForward) end.
  { unfold add3, muls3, muls2, subs2. cbn [x2 y2 x3 y3 z3].
    destruct camForward as [fx fy fz]. cbn [x3 y3 z3]. f_equal; lra. }
  rewrite E. apply normalize_of_unit, Hf.
Qed.

(** X3.  For a non-empty window and a view direction that is not vertical
    (the camera target differs from the camera position in x or in z) the
    camera setup is defined: the three normalisations are of non-zero
    vectors.  The initial ray of every pixel starts at the camera, is a
    unit vector and has a positive component along the view direction;
    the ray of the centre pixel is the view direction itself. *)
Theorem X3_initial_rays (uniforms : Uniforms) (screenUV : vec2) :
  y2 (resolution uniforms) <> 0 ->
  x3 (cameraTarget uniforms) <> x3 (cameraPosition uniforms)
  \/ z3 (cameraTarget uniforms) <> z3 (cameraPosition uniforms) ->
  let camForward :=
    normalize (sub3 (cameraTarget uniforms) (cameraPosition uniforms)) in
  let st := initRay uniforms screenUV in
  Checked.initRay uniforms screenUV = Some st
  /\ rayPos st = cameraPosition uniforms
  /\ length3 (rayDir st) = 1
  /\ 0 < dot3 (rayDir st) camForward
  /\ rayDir (initRay uniforms (Vec2 0.5 0.5)) = camForward.
Proof.
  intros Hw Hv camForward st.
  destruct (Checked_initRay_defined uniforms screenUV Hw Hv)
    as (E & Hunit & Hdot).
  split; [exact E|]. split; [reflexivity|]. split; [exact Hunit|].
  split; [exact Hdot|].
  apply initRay_centre. apply normalize_unit.
  apply length3_nonzero_component. unfold sub3. cbn [x3 y3 z3].
  destruct Hv as [H|H]; [left|right; right]; lra.
Qed.

Lemma X3_initial_rays_witness :
  Checked.initRay sampleUniforms (Vec2 0.25 0.75)
  = Some (initRay sampleUniforms (Vec2 0.25 0.75))
  /\ length3 (rayDir (initRay sampleUniforms (Vec2 0.25 0.75))) = 1.
Proof.
  assert (Hw : y2 (resolution sampleUniforms) <> 0)
    by (cbn [resolution sampleUniforms sampleWith y2]; lra).
  assert (Hv : x3 (cameraTarget sampleUniforms)
               <> x3 (cameraPosition sampleUniforms)
               \/ z3 (cameraTarget sampleUniforms)
                  <> z3 (cameraPosition sampleUniforms))
    by (right; cbn [cameraTarget cameraPosition sampleUniforms sampleWith z3];
        lra).
  pose proof (X3_initial_rays sampleUniforms (Vec2 0.25 0.75) Hw Hv)
    as (E & _ & Hunit & _).
  split; [exact E|exact Hunit].
Defined.

(** X9.  For innerRadius < outerRadius and two softness parameters that
    are not 0, the edge falloff is defined (its three divisions are by
    non-zero numbers), lies in [0, 1], and is 0 at the inner radius and
    inside it and at the outer radius and beyond it. *)
Theorem X9_edge_falloff_vanishes_at_edges (uniforms : Uniforms) (hitR : R) :
  diskInnerRadius uniforms < diskOuterRadius uniforms ->
  diskEdgeSoftnessInner uniforms <> 0 ->
  diskEdgeSoftnessOuter uniforms <> 0 ->
  Checked.edgeFalloff uniforms hitR = Some (edgeFalloff uniforms hitR)
  /\ 0 <= edgeFalloff uniforms hitR <= 1
  /\ (hitR <= diskInnerRadius uniforms -> edgeFalloff uniforms hitR = 0)
  /\ (diskOuterRadius uniforms <= hitR -> edgeFalloff uniforms hitR = 0).
Proof.
  intros Hio Hi Ho.
  split; [apply Checked_edgeFalloff_defined; [lra|exact Hi|exact Ho]|].
  split; [apply edgeFalloff_range|].
  apply edgeFalloff_at_edges; exact Hio.
Qed.

Lemma X9_edge_falloff_vanishes_at_edges_witness :
  Checked.edgeFalloff sampleUniforms 3 = Some 0
  /\ Checked.edgeFalloff sampleUniforms 12 = Some 0.
Proof.
  assert (H : diskInnerRadius sampleUniforms < diskOuterRadius sampleUniforms)
    by (cbn [diskInnerRadius diskOuterRadius sampleUniforms sampleWith]; lra).
  assert (Hi : diskEdgeSoftnessInner sampleUniforms <> 0)
    by (cbn [diskEdgeSoftnessInner sampleUniforms sampleWith]; lra).
  assert (Ho : diskEdgeSoftnessOuter sampleUniforms <> 0)
    by (cbn [diskEdgeSoftnessOuter sampleUniforms sampleWith]; lra).
  split.
  - destruct (X9_edge_falloff_vanishes_at_edges sampleUniforms 3 H Hi Ho)
      as (E & _ & Z & _).
    rewrite E, Z; [reflexivity|].
    cbn [diskInnerRadius sampleUniforms sampleWith]. lra.
  - destruct (X9_edge_falloff_vanishes_at_edges sampleUniforms 12 H Hi Ho)
      as (E & _ & _ & Z).
    rewrite E, Z; [reflexivity|].
    cbn [diskOuterRadius sampleUniforms sampleWith]. lra.
Defined.

(** X10.  For a positive sharpness, innerRadius < outerRadius, softness
    parameters and a cycle time that are not 0 and a positive hit radius,
    the opacity of the disk shading is defined, lies in [0, 1], and is 0
    at and beyond both edges of the disk. *)
Theorem X10_disk_opacity_range (uniforms : Uniforms)
    (hitR hitAngle time : R) (rayDir : vec3) :
  0 < turbulenceSharpness uniforms ->
  diskInnerRadius uniforms < diskOuterRadius uniforms ->
  diskEdgeSoftnessInner uniforms <> 0 ->
  diskEdgeSoftnessOuter uniforms <> 0 ->
  turbulenceCycleTime uniforms <> 0 ->
  0 < hitR ->
  Checked.finalOpacity uniforms hitR hitAngle time
  = Some (w (createAccretionDiskColor uniforms hitR hitAngle time rayDir))
  /\ 0 <= w (createAccretionDiskColor uniforms hitR hitAngle time rayDir) <= 1
  /\ (hitR <= diskInnerRadius uniforms \/ diskOuterRadius uniforms <= hitR ->
      w (createAccretionDiskColor uniforms hitR hitAngle time rayDir) = 0).
Proof.
  intros Hs Hio Hi Ho Hc Hr.
  split.
  { apply Checked_finalOpacity_defined; try assumption. lra. }
  split.
  { apply (diskOpacity_range uniforms hitR hitAngle time rayDir). lra. }
  intros Hedge. unfold createAccretionDiskColor. cbn [w].
  assert (E : edgeFalloff uniforms hitR = 0).
  { destruct (edgeFalloff_at_edges uniforms hitR Hio) as (Hin & Hout).
    destruct Hedge; auto. }
  rewrite E. ring.
Qed.

Lemma X10_disk_opacity_range_witness :
  Checked.finalOpacity sampleUniforms 5 0 0
  = Some (w (createAccretionDiskColor sampleUniforms 5 0 0 (Vec3 0 0 1)))
  /\ 0 <= w (createAccretionDiskColor sampleUniforms 5 0 0 (Vec3 0 0 1)) <= 1.
Proof.
  pose proof (X10_disk_opacity_range sampleUniforms 5 0 0 (Vec3 0 0 1)) as H.
  destruct H as (E & Hr & _);
    [cbn [turbulenceSharpness sampleUniforms sampleWith]; lra
    |cbn [diskInnerRadius diskOuterRadius sampleUniforms sampleWith]; lra
    |cbn [diskEdgeSoftnessInner sampleUniforms sampleWith]; lra
    |cbn [diskEdgeSoftnessOuter sampleUniforms sampleWith]; lra
    |cbn [turbulenceCycleTime sampleUniforms sampleWith]; lra
    |lra
    |].
  split; [exact E|exact Hr].
Defined.

(* ================================================================== *)
(** * Disk at rest *)
(* ================================================================== *)

Lemma sign_zero : sign 0 = 0.
Proof.
  unfold sign. destruct (Rlt_dec 0 0); [lra|]. destruct (Rlt_dec 0 0); lra.
Qed.

Lemma orbitalVelocityDir_at_rest (uniforms : Uniforms) (hitAngle : R) :
  diskRotationSpeed uniforms = 0 ->
  orbitalVelocityDir uniforms hitAngle = Vec3 0 0 0.
Proof.
  intros H. unfold orbitalVelocityDir, muls3. rewrite H, sign_zero.
  cbn [x3 y3 z3]. f_equal; ring.
Qed.

Lemma dopplerSpec_at_rest (uniforms : Uniforms) (hitR hitAngle : R)
    (rayDir : vec3) :
  diskRotationSpeed uniforms = 0 ->
  dopplerSpec uniforms hitR hitAngle rayDir = 1.
Proof.
  intros H. unfold dopplerSpec.
  rewrite (orbitalVelocityDir_at_rest uniforms hitAngle H).
  unfold dot3. cbn [x3 y3 z3].
  replace (1 - 0.3 * (1 / sqrt (hitR / diskInnerRadius uniforms))
               * (0 * x3 rayDir + 0 * y3 rayDir + 0 * z3 rayDir))
    with 1 by ring.
  replace (1 / 1) with 1 by field.
  rewrite pow_pos by lra. rewrite Rpower_one_base.
  apply clamp_inside; lra.
Qed.

(** C7, as stated, fails for a disk at rest.  With diskRotationSpeed = 0,
    a value of its control, sign gives 0: the velocity direction is the
    zero vector, not a unit vector, cos theta is 0 for every ray, and the
    colour is multiplied by 1 although dopplerStrength is 1. *)
Lemma C7_no_unit_direction_at_rest :
  diskRotationSpeed stillDisk = 0
  /\ dopplerStrength stillDisk = 1
  /\ orbitalVelocityDir stillDisk 0 = Vec3 0 0 0
  /\ length3 (orbitalVelocityDir stillDisk 0) <> 1
  /\ dot3 (orbitalVelocityDir stillDisk 0) (Vec3 0 0 1) = 0
  /\ dopplerSpec stillDisk 6 0 (Vec3 0 0 1) = 1.
Proof.
  assert (E : orbitalVelocityDir stillDisk 0 = Vec3 0 0 0)
    by (apply orbitalVelocityDir_at_rest; reflexivity).
  split; [reflexivity|]. split; [reflexivity|]. split; [exact E|].
  split; [|split].
  - rewrite E, (length3_known _ 0) by (cbn [x3 y3 z3]; lra). lra.
  - rewrite E. unfold dot3. cbn [x3 y3 z3]. ring.
  - apply dopplerSpec_at_rest. reflexivity.
Qed.

(** C7, amended.  The RGB of the disk shading is the blackbody colour of
    the local temperature multiplied by the clamped beaming boost (and
    then by the disk brightness), where the boost is
    clamp((1 / (1 - beta cos theta)) ^ (3 dopplerStrength), 0.1, 5),
    beta = 0.3 * (1 / sqrt (hitR / innerRadius)) and cos theta is the dot
    product of the tangential velocity direction, oriented by
    sign(diskRotationSpeed), with the ray direction.  For a rotation
    speed that is not 0 the velocity direction is the unit tangent
    (-sin, 0, cos) or its opposite; for rotation speed 0 it is the zero
    vector and the boost is 1. *)
Theorem C7_doppler_beaming (uniforms : Uniforms) (hitR hitAngle time : R)
    (rayDir : vec3) :
  xyz (createAccretionDiskColor uniforms hitR hitAngle time rayDir)
  = muls3 (muls3 (blackbodyColor (tempK uniforms hitR))
                 (dopplerSpec uniforms hitR hitAngle rayDir))
          (diskBrightness uniforms)
  /\ (0 < diskRotationSpeed uniforms ->
      orbitalVelocityDir uniforms hitAngle
      = Vec3 (- sin hitAngle) 0 (cos hitAngle))
  /\ (diskRotationSpeed uniforms < 0 ->
      orbitalVelocityDir uniforms hitAngle
      = Vec3 (sin hitAngle) 0 (- cos hitAngle))
  /\ (diskRotationSpeed uniforms <> 0 ->
      length3 (orbitalVelocityDir uniforms hitAngle) = 1)
  /\ (diskRotationSpeed uniforms = 0 ->
      orbitalVelocityDir uniforms hitAngle = Vec3 0 0 0
      /\ dopplerSpec uniforms hitR hitAngle rayDir = 1).
Proof.
  split.
  { unfold createAccretionDiskColor. cbn [xyz].
    rewrite dopplerBoost_spec. reflexivity. }
  split.
  { intros H. unfold orbitalVelocityDir, muls3, sign.
    destruct (Rlt_dec 0 (diskRotationSpeed uniforms)); [|lra].
    cbn [x3 y3 z3]. f_equal; ring. }
  split.
  { intros H. unfold orbitalVelocityDir, muls3, sign.
    destruct (Rlt_dec 0 (diskRotationSpeed uniforms)); [lra|].
    destruct (Rlt_dec (diskRotationSpeed uniforms) 0); [|lra].
    cbn [x3 y3 z3]. f_equal; ring. }
  split.
  { intros H. rewrite orbitalVelocityDir_length. apply sign_abs. exact H. }
  intros H. split.
  - apply orbitalVelocityDir_at_rest. exact H.
  - apply dopplerSpec_at_rest. exact H.
Qed.

(* ================================================================== *)
(** * Uniform updates *)
(* ================================================================== *)

(* ------------------------------------------------------------------ *)
Section UpdateFields.

Variable config : JsObject.

Lemma writable_is_Some (kind : UpdateKind) (current : option JsValue) :
  writable kind current = true -> is_Some current.
Proof.
  destruct kind, current as [[]|]; cbn; intros H; try discriminate; eauto.
Qed.

Lemma updateFields_failed (l : list (string * UpdateKind)) :
  foldl (updateField config) None l = None.
Proof.
  induction l as [|e l IH]; [reflexivity|]. cbn [foldl].
  unfold updateField at 2. destruct (config !! e.1); exact IH.
Qed.

Lemma updateField_Some (u u' : JsObject) (e : string * UpdateKind) :
  updateField config (Some u) e = Some u' ->
  (config !! e.1 = None /\ u' = u)
  \/ (exists v, config !! e.1 = Some v /\ writable e.2 (u !! e.1) = true
        /\ u' = <[e.1 := updatedValue config e.1 e.2 v]> u).
Proof.
  unfold updateField. destruct (config !! e.1) as [v|].
  - cbn [mbind option_bind].
    destruct (writable e.2 (u !! e.1)) eqn:E; [|discriminate].
    intros H. injection H as <-. right. exists v. eauto.
  - intros H. injection H as <-. left. auto.
Qed.

Lemma updateField_dom (u u' : JsObject) (e : string * UpdateKind) :
  updateField config (Some u) e = Some u' ->
  dom u' = dom u /\ forall k, k <> e.1 -> u' !! k = u !! k.
Proof.
  intros H. apply updateField_Some in H.
  destruct H as [(_ & ->)|(v & _ & Hw & ->)]; [auto|].
  split; [apply dom_insert_lookup_L, writable_is_Some with e.2, Hw|].
  intros k Hk. apply lookup_insert_ne. congruence.
Qed.

(** A key outside the list, or absent from the configuration, keeps its
    value. *)
Lemma updateFields_untouched (l : list (string * UpdateKind))
    (u u' : JsObject) (k : string) :
  foldl (updateField config) (Some u) l = Some u' ->
  k ∉ l.*1 \/ config !! k = None ->
  u' !! k = u !! k.
Proof.
  revert u. induction l as [|e l IH]; intros u H Hk.
  - cbn in H. injection H as <-. reflexivity.
  - cbn [foldl] in H.
    destruct (updateField config (Some u) e) as [u1|] eqn:E;
      [|rewrite updateFields_failed in H; discriminate].
    assert (Hk' : k ∉ l.*1 \/ config !! k = None).
    { destruct Hk as [Hk|Hk]; [left|right; exact Hk].
      intros Hin. apply Hk. cbn. right. exact Hin. }
    rewrite (IH u1 H Hk').
    apply updateField_Some in E.
    destruct E as [(_ & ->)|(v & Hv & _ & ->)]; [reflexivity|].
    apply lookup_insert_ne. intros <-.
    destruct Hk as [Hk|Hk]; [|congruence].
    apply Hk. cbn. left.
Qed.

(** The writes succeed exactly when each one the configuration asks for
    can be done on the object as it is at the start; the key set stays
    the same. *)
Lemma updateFields_dom (l : list (string * UpdateKind)) (u u' : JsObject) :
  NoDup l.*1 ->
  foldl (updateField config) (Some u) l = Some u' ->
  dom u' = dom u
  /\ forall e, e ∈ l -> is_Some (config !! e.1) ->
       writable e.2 (u !! e.1) = true.
Proof.
  revert u. induction l as [|e l IH]; intros u ND H.
  - cbn in H. injection H as <-. split; [reflexivity|].
    intros k Hk. inversion Hk.
  - cbn [fmap list_fmap] in ND. apply NoDup_cons in ND as [Hnotin ND].
    cbn [foldl] in H.
    destruct (updateField config (Some u) e) as [u1|] eqn:E;
      [|rewrite updateFields_failed in H; discriminate].
    destruct (IH u1 ND H) as [Hd Hk1].
    destruct (updateField_dom _ _ _ E) as [D Hsame].
    split; [congruence|].
    intros e' He' Hc. apply elem_of_cons in He' as [->|He'].
    + apply updateField_Some in E.
      destruct E as [(Hn & _)|(v & _ & Hw & _)]; [|exact Hw].
      rewrite Hn in Hc. destruct Hc; discriminate.
    + rewrite <- Hsame; [apply Hk1; assumption|].
      intros Heq. apply Hnotin. rewrite <- Heq.
      apply list_elem_of_fmap. exists e'. split; [reflexivity|exact He'].
Qed.

Lemma updateFields_defined (l : list (string * UpdateKind)) (u : JsObject) :
  NoDup l.*1 ->
  (forall e, e ∈ l -> is_Some (config !! e.1) ->
     writable e.2 (u !! e.1) = true) ->
  is_Some (foldl (updateField config) (Some u) l).
Proof.
  revert u. induction l as [|e l IH]; intros u ND Hu; [cbn; eauto|].
  cbn [fmap list_fmap] in ND. apply NoDup_cons in ND as [Hnotin ND].
  cbn [foldl].
  assert (E : exists u1, updateField config (Some u) e = Some u1).
  { unfold updateField. destruct (config !! e.1) as [v|] eqn:Hv; [|eauto].
    cbn [mbind option_bind]. rewrite (Hu e); [eauto|left|rewrite Hv; eauto]. }
  destruct E as (u1 & E). rewrite E.
  destruct (updateField_dom _ _ _ E) as [_ Hsame].
  apply IH; [exact ND|].
  intros e' He' Hc. rewrite Hsame; [apply Hu; [right; exact He'|exact Hc]|].
  intros Heq. apply Hnotin. rewrite <- Heq.
  apply list_elem_of_fmap. exists e'. split; [reflexivity|exact He'].
Qed.

(** A listed key that the configuration has ends with the written
    value. *)
Lemma updateFields_written (l : list (string * UpdateKind))
    (u u' : JsObject) (k : string) (kind : UpdateKind) (v : JsValue) :
  NoDup l.*1 -> (k, kind) ∈ l -> config !! k = Some v ->
  foldl (updateField config) (Some u) l = Some u' ->
  u' !! k = Some (updatedValue config k kind v).
Proof.
  revert u. induction l as [|e l IH]; intros u Hnd Hin Hv H.
  - inversion Hin.
  - cbn [fmap list_fmap] in Hnd. apply NoDup_cons in Hnd as [Hnotin Hnd].
    cbn [foldl] in H.
    destruct (updateField config (Some u) e) as [u1|] eqn:E;
      [|rewrite updateFields_failed in H; discriminate].
    apply elem_of_cons in Hin as [<-|Hin].
    + rewrite (updateFields_untouched l u1 u' k H) by (left; exact Hnotin).
      apply updateField_Some in E. cbn [fst snd] in E.
      destruct E as [(Hn & _)|(v' & Hv' & _ & ->)]; [congruence|].
      rewrite lookup_insert_eq. congruence.
    + apply (IH u1); assumption.
Qed.

(** A configuration with none of the listed keys changes nothing. *)
Lemma updateFields_ignored (l : list (string * UpdateKind)) (u : JsObject) :
  (forall k, k ∈ l.*1 -> config !! k = None) ->
  foldl (updateField config) (Some u) l = Some u.
Proof.
  induction l as [|e l IH]; intros H; [reflexivity|].
  cbn [foldl]. unfold updateField at 2.
  rewrite (H e.1) by (cbn; left). apply IH.
  intros k Hk. apply H. cbn. right. exact Hk.
Qed.

End UpdateFields.

Ltac in_literal := repeat (apply list_elem_of_here || apply list_elem_of_further).

Ltac nodup_keys := apply (bool_decide_unpack _); vm_compute; reflexivity.

Lemma updateTable_NoDup : NoDup updateTable.*1.
Proof. nodup_keys. Qed.

Lemma truthy_ext (o o' : JsObject) (k : string) :
  o !! k = o' !! k -> truthy o k = truthy o' k.
Proof. unfold truthy. intros ->. reflexivity. Qed.

Lemma nullish_ext (o o' : JsObject) (k : string) (d : JsValue) :
  o !! k = o' !! k -> nullish o k d = nullish o' k d.
Proof. unfold nullish. intros ->. reflexivity. Qed.

Lemma updatedValue_ext (o o' : JsObject) (k : string) (kind : UpdateKind)
    (v : JsValue) :
  o !! k = o' !! k -> updatedValue o k kind v = updatedValue o' k kind v.
Proof. intros H. destruct kind; cbn; [reflexivity| |reflexivity].
  apply truthy_ext, H. Qed.

(** What [initializeUniforms] stores under a handled key that the
    configuration defines is what [updateUniforms] would write there. *)
Lemma initializeUniforms_written (config : JsObject) (w h : R) :
  Forall (fun e => forall v, config !! e.1 = Some v ->
     initializeUniforms config w h !! e.1
       = Some (updatedValue config e.1 e.2 v)) updateTable.
Proof.
  unfold initializeUniforms.
  match goal with |- context [list_to_map ?l] =>
    assert (ND : NoDup l.*1) by nodup_keys end.
  unfold updateTable.
  repeat (apply Forall_cons; split; [
    intros v Hv; cbn [fst snd updatedValue] in *;
    apply (elem_of_list_to_map_1 (M:=gmap string) _ _ _ ND);
    unfold nullish; rewrite ?Hv; in_literal | ]).
  constructor.
Qed.

(** Every write of [updateUniforms] can be done on the object. *)
Lemma initializeUniforms_writable (config : JsObject) (w h : R) :
  Forall (fun e => writable e.2 (initializeUniforms config w h !! e.1) = true)
    updateTable.
Proof.
  unfold initializeUniforms.
  match goal with |- context [list_to_map ?l] =>
    assert (ND : NoDup l.*1) by nodup_keys end.
  unfold updateTable.
  repeat (apply Forall_cons; split; [
    cbn [fst snd];
    erewrite (elem_of_list_to_map_1 (M:=gmap string) _ _ _ ND);
    [|in_literal]; reflexivity | ]).
  constructor.
Qed.

(** The key set of the object does not depend on the configuration. *)
Lemma initializeUniforms_dom (config : JsObject) (w h : R) :
  dom (initializeUniforms config w h)
  = list_to_set (updateTable.*1
       ++ ["time"; "resolution"; "cameraPosition"; "cameraTarget"]).
Proof.
  unfold initializeUniforms. rewrite dom_list_to_map_L. reflexivity.
Qed.

Lemma initializeUniforms_handled (config : JsObject) (w h : R) (k : string) :
  k ∈ updateTable.*1 -> is_Some (initializeUniforms config w h !! k).
Proof.
  intros Hk. apply elem_of_dom. rewrite initializeUniforms_dom.
  apply elem_of_list_to_set, elem_of_app. left. exact Hk.
Qed.

(** A field of the object depends on the configuration through the field
    of the same name only, and not at all for a key [updateUniforms] does
    not handle. *)
Lemma initializeUniforms_ext (c c' : JsObject) (w h : R) (k : string) :
  c !! k = c' !! k \/ k ∉ updateTable.*1 ->
  initializeUniforms c w h !! k = initializeUniforms c' w h !! k.
Proof.
  intros H. unfold initializeUniforms. cbn [list_to_map foldr fst snd].
  repeat match goal with
  | |- <[?ki := _]> _ !! k = <[?ki := _]> _ !! k =>
      destruct (decide (ki = k)) as [<-|Hne];
      [ rewrite !lookup_insert_eq; destruct H as [H|H];
        [ rewrite ?(nullish_ext c c' _ _ H), ?(truthy_ext c c' _ H);
          reflexivity
        | first [ reflexivity
                | exfalso; apply H; apply (bool_decide_unpack _);
                  vm_compute; reflexivity ] ]
      | rewrite !(lookup_insert_ne _ _ _ _ Hne); clear Hne ]
  end.
  reflexivity.
Qed.

Lemma not_handled (k : string) :
  k ∈ ["dopplerStrength"; "turbulenceLacunarity"; "turbulencePersistence";
       "time"; "resolution"; "cameraPosition"; "cameraTarget";
       "bloomStrength"; "bloomRadius"; "bloomThreshold"] ->
  k ∉ updateTable.*1.
Proof.
  intros Hk Hin.
  repeat (apply elem_of_cons in Hk as [->|Hk];
          [revert Hin; apply (bool_decide_unpack _); vm_compute; reflexivity|]).
  inversion Hk.
Qed.

(** X19.  [updateUniforms(config)] on the object that
    [initializeUniforms(c0)] built gives the object that
    [initializeUniforms] builds for the merged configuration
    [{...c0, ...config}] (configurations hold no [null], and colour
    values are ones three.js reads as colours); in particular, updating
    with the configuration the object was built from changes nothing. *)
Theorem X19_update_is_reinitialisation (config c0 : JsObject) (w h : R) :
  updateUniforms config (initializeUniforms c0 w h)
    = Some (initializeUniforms (config ∪ c0) w h)
  /\ updateUniforms config (initializeUniforms config w h)
    = Some (initializeUniforms config w h).
Proof.
  assert (G : forall c c1, updateUniforms c (initializeUniforms c1 w h)
                = Some (initializeUniforms (c ∪ c1) w h)).
  { clear. intros config c0.
    destruct (updateFields_defined config updateTable
                (initializeUniforms c0 w h) updateTable_NoDup) as (u' & Hu').
    { intros e He _.
      pose proof (initializeUniforms_writable c0 w h) as F.
      rewrite Forall_forall in F. apply F, He. }
    unfold updateUniforms. rewrite Hu'. f_equal. apply map_eq. intros k.
    destruct (config !! k) as [v|] eqn:Hv.
    - destruct (decide (k ∈ updateTable.*1)) as [Hin|Hnin].
      + apply list_elem_of_fmap in Hin as ([k' kind] & -> & Hin).
        cbn [fst] in *.
        rewrite (updateFields_written config updateTable _ u' k' kind v
                   updateTable_NoDup Hin Hv Hu').
        assert (Hv' : (config ∪ c0) !! k' = Some v)
          by (apply lookup_union_Some_l; exact Hv).
        pose proof (initializeUniforms_written (config ∪ c0) w h) as F.
        rewrite Forall_forall in F. specialize (F _ Hin v Hv').
        cbn [fst snd] in F. rewrite F.
        f_equal. apply updatedValue_ext. congruence.
      + rewrite (updateFields_untouched config updateTable _ u' k Hu')
          by (left; exact Hnin).
        apply initializeUniforms_ext. right. exact Hnin.
    - rewrite (updateFields_untouched config updateTable _ u' k Hu')
        by (right; exact Hv).
      apply initializeUniforms_ext. left.
      symmetry. rewrite lookup_union_r by exact Hv. reflexivity. }
  split; [apply G|]. rewrite G. rewrite map_union_idemp. reflexivity.
Qed.

(** X18.  [updateUniforms] succeeds exactly when every write that the
    configuration asks for can be done: the object has the uniform, and
    for a colour the uniform holds a [Color] (otherwise the write is a
    TypeError).  It then keeps the key set, every handled
    key that the configuration defines holds the written value (the value
    itself, 1.0 / 0.0 for the two flags, a colour set from the value) and
    every other key keeps its value. *)
Theorem X18_updateUniforms_specification (config uniforms : JsObject) :
  (is_Some (updateUniforms config uniforms)
   <-> forall k kind, (k, kind) ∈ updateTable -> is_Some (config !! k) ->
         writable kind (uniforms !! k) = true)
  /\ forall u', updateUniforms config uniforms = Some u' ->
       dom u' = dom uniforms
       /\ (forall k kind v, (k, kind) ∈ updateTable -> config !! k = Some v ->
             u' !! k = Some (updatedValue config k kind v))
       /\ (forall k, k ∉ updateTable.*1 \/ config !! k = None ->
             u' !! k = uniforms !! k).
Proof.
  unfold updateUniforms. split; [split|].
  - intros [u' H] k kind Hin Hc.
    exact (proj2 (updateFields_dom config _ _ _ updateTable_NoDup H)
             (k, kind) Hin Hc).
  - intros H. apply updateFields_defined; [apply updateTable_NoDup|].
    intros [k kind] Hin Hc. exact (H k kind Hin Hc).
  - intros u' H.
    split; [apply (updateFields_dom config _ _ _ updateTable_NoDup H)|]. split.
    + intros k kind v Hin Hv.
      exact (updateFields_written config updateTable uniforms u' k kind v
               updateTable_NoDup Hin Hv H).
    + intros k Hk.
      exact (updateFields_untouched config updateTable uniforms u' k H Hk).
Qed.

Lemma updateFields_single (key : string) (value : JsValue)
    (l : list (string * UpdateKind)) (kind : UpdateKind) (u : JsObject) :
  NoDup l.*1 -> (key, kind) ∈ l ->
  foldl (updateField {[key := value]}) (Some u) l
  = if writable kind (u !! key)
    then Some (<[key := updatedValue {[key := value]} key kind value]> u)
    else None.
Proof.
  revert u.
  induction l as [|e l IH]; intros u ND Hin; [inversion Hin|].
  cbn [fmap list_fmap] in ND. apply NoDup_cons in ND as [Hnotin ND].
  cbn [foldl]. apply elem_of_cons in Hin as [<-|Hin].
  - unfold updateField at 2. cbn [fst snd].
    rewrite lookup_singleton_eq. cbn [mbind option_bind].
    destruct (writable kind (u !! key)); [|apply updateFields_failed].
    apply updateFields_ignored. intros k Hk.
    apply lookup_singleton_None. intros <-. exact (Hnotin Hk).
  - unfold updateField at 2.
    rewrite (proj2 (lookup_singleton_None _ _ _)); [apply IH; assumption|].
    intros E. apply Hnotin. rewrite <- E.
    apply list_elem_of_fmap. exists (key, kind). split; [reflexivity|exact Hin].
Qed.

(** X20.  The change of one handled uniform writes exactly that uniform,
    and is a TypeError when that write cannot be done; the change of a
    key that
    [updateUniforms] does not handle, among them dopplerStrength,
    turbulenceLacunarity and turbulencePersistence, leaves the uniforms
    as they are. *)
Theorem X20_single_uniform_change (key : string) (value : JsValue)
    (uniforms : JsObject) :
  (forall kind, (key, kind) ∈ updateTable ->
     onUniformChange key value uniforms
     = if writable kind (uniforms !! key)
       then Some (<[key := updatedValue {[key := value]} key kind value]>
                    uniforms)
       else None)
  /\ (key ∉ updateTable.*1 -> onUniformChange key value uniforms = Some uniforms)
  /\ (key ∈ ["dopplerStrength"; "turbulenceLacunarity";
             "turbulencePersistence"] ->
      onUniformChange key value uniforms = Some uniforms).
Proof.
  assert (G : key ∉ updateTable.*1 ->
              onUniformChange key value uniforms = Some uniforms).
  { intros Hk. apply updateFields_ignored. intros k Hin.
    apply lookup_singleton_None. intros <-. exact (Hk Hin). }
  split; [|split; [exact G|]].
  - intros kind Hin.
    apply updateFields_single; [apply updateTable_NoDup|exact Hin].
  - intros Hk. apply G, not_handled.
    repeat (apply elem_of_cons in Hk as [->|Hk]; [in_literal|]).
    inversion Hk.
Qed.

Lemma pick_lookup (o : JsObject) (key : string) (acc : JsObject) (k : string) :
  pick o key acc !! k = if decide (k = key) then
                          match o !! key with
                          | Some v => Some v
                          | None => acc !! k
                          end
                        else acc !! k.
Proof.
  unfold pick. destruct (decide (k = key)) as [->|Hne].
  - destruct (o !! key); [apply lookup_insert_eq|reflexivity].
  - destruct (o !! key); [|reflexivity].
    apply lookup_insert_ne. congruence.
Qed.

Lemma presetConfig_lookup (preset : JsObject) (k : string) :
  pick preset "stepSize"
    (pick preset "starsEnabled" (pick preset "nebulaEnabled" ∅)) !! k
  = if decide (k ∈ presetKeys) then preset !! k else None.
Proof.
  rewrite !pick_lookup. unfold presetKeys.
  destruct (decide (k = "stepSize")) as [->|N1].
  { rewrite (decide_True (P := _ ∈ _)) by in_literal.
    destruct (preset !! "stepSize"); reflexivity. }
  destruct (decide (k = "starsEnabled")) as [->|N2].
  { rewrite (decide_True (P := _ ∈ _)) by in_literal.
    destruct (preset !! "starsEnabled"); reflexivity. }
  destruct (decide (k = "nebulaEnabled")) as [->|N3].
  { rewrite (decide_True (P := _ ∈ _)) by in_literal.
    destruct (preset !! "nebulaEnabled"); reflexivity. }
  rewrite (decide_False (P := _ ∈ _)); [reflexivity|].
  intros H. repeat (apply elem_of_cons in H as [H|H]; [congruence|]).
  inversion H.
Qed.

Lemma QUALITY_PRESETS_complete (presetName : string) (preset : JsObject) :
  QUALITY_PRESETS !! presetName = Some preset ->
  presetName ∈ ["low"; "medium"; "high"; "ultra"]
  /\ forall k, k ∈ presetKeys -> is_Some (preset !! k).
Proof.
  intros E. apply (elem_of_list_to_map_2 (M:=gmap string)) in E.
  repeat (apply elem_of_cons in E as [E|E];
    [ injection E as -> ->; split; [in_literal|];
      intros k Hk; unfold presetKeys in Hk;
      repeat (apply elem_of_cons in Hk as [->|Hk];
              [vm_compute; eauto|]); inversion Hk |]).
  inversion E.
Qed.

Lemma presetKeys_handled :
  ("stepSize", Plain) ∈ updateTable /\ ("starsEnabled", Flag) ∈ updateTable
  /\ ("nebulaEnabled", Flag) ∈ updateTable.
Proof. unfold updateTable. repeat split; in_literal. Qed.

Lemma NoDup_fst_unique {A B : Type} (l : list (A * B)) (x : A) (y1 y2 : B) :
  NoDup l.*1 -> (x, y1) ∈ l -> (x, y2) ∈ l -> y1 = y2.
Proof.
  induction l as [|e l IH]; intros ND H1 H2; [inversion H1|].
  cbn [fmap list_fmap] in ND. apply NoDup_cons in ND as [Hnotin ND].
  apply elem_of_cons in H1 as [<-|H1]; apply elem_of_cons in H2 as [E|H2].
  - congruence.
  - exfalso. apply Hnotin. apply list_elem_of_fmap.
    exists (x, y2). split; [reflexivity|exact H2].
  - exfalso. apply Hnotin. rewrite <- E. apply list_elem_of_fmap.
    exists (x, y1). split; [reflexivity|exact H1].
  - apply IH; assumption.
Qed.

Lemma updateTable_kind (k : string) (kind kind' : UpdateKind) :
  (k, kind) ∈ updateTable -> (k, kind') ∈ updateTable -> kind = kind'.
Proof. apply NoDup_fst_unique, updateTable_NoDup. Qed.

Lemma presetKeys_kind (k : string) :
  k ∈ presetKeys ->
  exists kind, (k, kind) ∈ updateTable /\ (kind = Plain \/ kind = Flag).
Proof.
  destruct presetKeys_handled as (T1 & T2 & T3).
  intros Hk. unfold presetKeys in Hk.
  repeat (apply elem_of_cons in Hk as [->|Hk]; [eauto|]).
  inversion Hk.
Qed.

(** X21.  An unknown preset name changes nothing.  A known one ("low",
    "medium", "high", "ultra") succeeds exactly when the object has
    stepSize, starsEnabled and nebulaEnabled; it then sets stepSize to the
    preset's value and the two flags to 1.0 / 0.0 by the preset's
    booleans, and keeps the key set and every other uniform. *)
Theorem X21_quality_preset (presetName : string) (uniforms : JsObject) :
  match QUALITY_PRESETS !! presetName with
  | None => applyQualityPreset presetName uniforms = Some uniforms
  | Some preset =>
      presetName ∈ ["low"; "medium"; "high"; "ultra"]
      /\ (is_Some (applyQualityPreset presetName uniforms)
          <-> forall k, k ∈ presetKeys -> is_Some (uniforms !! k))
      /\ forall u', applyQualityPreset presetName uniforms = Some u' ->
           dom u' = dom uniforms
           /\ u' !! "stepSize" = preset !! "stepSize"
           /\ u' !! "starsEnabled" = Some (truthy preset "starsEnabled")
           /\ u' !! "nebulaEnabled" = Some (truthy preset "nebulaEnabled")
           /\ forall k, k ∉ presetKeys -> u' !! k = uniforms !! k
  end.
Proof.
  destruct (QUALITY_PRESETS !! presetName) as [preset|] eqn:E;
    [|unfold applyQualityPreset; rewrite E; reflexivity].
  destruct (QUALITY_PRESETS_complete _ _ E) as [Hname Hkeys].
  split; [exact Hname|].
  unfold applyQualityPreset. rewrite E.
  set (c := pick preset "stepSize" _).
  assert (Hc : forall k, c !! k = if decide (k ∈ presetKeys)
                                  then preset !! k else None)
    by apply presetConfig_lookup.
  destruct presetKeys_handled as (T1 & T2 & T3).
  unfold updateUniforms. split; [split|].
  - intros [u' H] k Hk.
    destruct (presetKeys_kind k Hk) as (kind & Hin & Hkind).
    apply (writable_is_Some kind).
    apply (proj2 (updateFields_dom c _ _ _ updateTable_NoDup H) (k, kind) Hin).
    cbn [fst]. rewrite Hc, decide_True by exact Hk. apply Hkeys, Hk.
  - intros Hu. apply updateFields_defined; [apply updateTable_NoDup|].
    intros [k kind] Hin Hs. cbn [fst snd] in *.
    rewrite Hc in Hs. destruct (decide (k ∈ presetKeys)) as [Hk|];
      [|destruct Hs; discriminate].
    destruct (presetKeys_kind k Hk) as (kind' & Hin' & Hkind).
    assert (kind = kind') as ->.
    { exact (updateTable_kind k kind kind' Hin Hin'). }
    destruct (Hu k Hk) as [x ->]. destruct Hkind as [->| ->]; reflexivity.
  - intros u' H.
    assert (W : forall k kind, (k, kind) ∈ updateTable -> k ∈ presetKeys ->
              exists v, preset !! k = Some v
                        /\ u' !! k = Some (updatedValue c k kind v)).
    { intros k kind Hin Hk. destruct (Hkeys k Hk) as [v Hv]. exists v.
      split; [exact Hv|].
      apply (updateFields_written c updateTable uniforms u' k kind v
               updateTable_NoDup Hin); [|exact H].
      rewrite Hc, decide_True by exact Hk. exact Hv. }
    assert (Ht : forall k, k ∈ presetKeys -> truthy c k = truthy preset k).
    { intros k Hk. apply truthy_ext. rewrite Hc, decide_True by exact Hk.
      reflexivity. }
    split; [apply (updateFields_dom c _ _ _ updateTable_NoDup H)|].
    split; [|split; [|split]].
    + destruct (W _ _ T1) as (v & Hv & ->); [unfold presetKeys; in_literal|].
      rewrite Hv. reflexivity.
    + destruct (W _ _ T2) as (v & Hv & ->); [unfold presetKeys; in_literal|].
      cbn [updatedValue]. rewrite Ht by (unfold presetKeys; in_literal).
      reflexivity.
    + destruct (W _ _ T3) as (v & Hv & ->); [unfold presetKeys; in_literal|].
      cbn [updatedValue]. rewrite Ht by (unfold presetKeys; in_literal).
      reflexivity.
    + intros k Hk.
      apply (updateFields_untouched c updateTable uniforms u' k H).
      right. rewrite Hc, decide_False by exact Hk. reflexivity.
Qed.

(* ================================================================== *)
(** * Camera animation *)
(* ================================================================== *)

Section CameraAnimationProperties.
Import CameraAnimation.

(** ** Catmull-Rom interpolation *)
Lemma catmullRom_at_0 (p0 p1 p2 p3 : R) : catmullRom p0 p1 p2 p3 0 = p1.
Proof. unfold catmullRom. lra. Qed.

Lemma catmullRom_at_1 (p0 p1 p2 p3 : R) : catmullRom p0 p1 p2 p3 1 = p2.
Proof. unfold catmullRom. lra. Qed.

Lemma cubic_derivative (a b c d x : R) :
  derivable_pt_lim (fun t => a + b * t + c * (t * t) + d * (t * t * t)) x
    (b + 2 * c * x + 3 * d * (x * x)).
Proof.
  intros eps Heps.
  set (M := Rabs c + Rabs d * (3 * Rabs x + 1)).
  assert (HM : 0 <= M).
  { unfold M. pose proof (Rabs_pos c). pose proof (Rabs_pos d).
    pose proof (Rabs_pos x). nra. }
  assert (Hd : 0 < Rmin 1 (eps / (M + 1))).
  { apply Rmin_glb_lt; [lra|]. apply Rdiv_lt_0_compat; lra. }
  exists (mkposreal _ Hd). intros h Hh Hlt. cbn [pos] in Hlt.
  assert (H1 : Rabs h < 1) by (eapply Rlt_le_trans; [exact Hlt|apply Rmin_l]).
  assert (H2 : Rabs h < eps / (M + 1))
    by (eapply Rlt_le_trans; [exact Hlt|apply Rmin_r]).
  replace ((a + b * (x + h) + c * ((x + h) * (x + h))
            + d * ((x + h) * (x + h) * (x + h))
            - (a + b * x + c * (x * x) + d * (x * x * x))) / h
           - (b + 2 * c * x + 3 * d * (x * x)))
    with (h * (c + d * (3 * x + h))) by (field; exact Hh).
  rewrite Rabs_mult.
  assert (B : Rabs (c + d * (3 * x + h)) <= M).
  { unfold M. eapply Rle_trans; [apply Rabs_triang|].
    apply Rplus_le_compat_l. rewrite Rabs_mult.
    apply Rmult_le_compat_l; [apply Rabs_pos|].
    eapply Rle_trans; [apply Rabs_triang|].
    rewrite Rabs_mult. rewrite (Rabs_right 3) by lra. lra. }
  assert (P : 0 <= Rabs h) by apply Rabs_pos.
  assert (Q : Rabs h * (M + 1) < eps).
  { apply (Rmult_lt_compat_r (M + 1)) in H2; [|lra].
    replace (eps / (M + 1) * (M + 1)) with eps in H2 by (field; lra).
    exact H2. }
  pose proof (Rabs_pos (c + d * (3 * x + h))). nra.
Qed.

Lemma catmullRom_derivative (p0 p1 p2 p3 x : R) :
  derivable_pt_lim (catmullRom p0 p1 p2 p3) x
    (0.5 * ((- p0 + p2)
            + 2 * (2 * p0 - 5 * p1 + 4 * p2 - p3) * x
            + 3 * (- p0 + 3 * p1 - 3 * p2 + p3) * (x * x))).
Proof.
  pose proof (cubic_derivative (0.5 * (2 * p1)) (0.5 * (- p0 + p2))
                (0.5 * (2 * p0 - 5 * p1 + 4 * p2 - p3))
                (0.5 * (- p0 + 3 * p1 - 3 * p2 + p3)) x) as D.
  intros eps Heps. destruct (D eps Heps) as [delta Hdelta].
  exists delta. intros h Hh Hlt. specialize (Hdelta h Hh Hlt).
  unfold catmullRom.
  match goal with |- Rabs ?e < _ =>
    match type of Hdelta with Rabs ?e' < _ =>
      replace e with e' by (field; exact Hh) end end.
  exact Hdelta.
Qed.

(** X22.  The Catmull-Rom segment starts at [p1] and ends at [p2], its
    slope is (p2 - p0)/2 at the start and (p3 - p1)/2 at the end (so
    consecutive segments join with the same slope), and on equally spaced
    control values it is the straight line through them. *)
Theorem X22_catmullRom_interpolates (p0 p1 p2 p3 : R) :
  catmullRom p0 p1 p2 p3 0 = p1
  /\ catmullRom p0 p1 p2 p3 1 = p2
  /\ derivable_pt_lim (catmullRom p0 p1 p2 p3) 0 ((p2 - p0) / 2)
  /\ derivable_pt_lim (catmullRom p0 p1 p2 p3) 1 ((p3 - p1) / 2)
  /\ forall a d t, p0 = a - d -> p1 = a -> p2 = a + d -> p3 = a + 2 * d ->
       catmullRom p0 p1 p2 p3 t = a + d * t.
Proof.
  split; [apply catmullRom_at_0|]. split; [apply catmullRom_at_1|].
  split; [|split].
  - replace ((p2 - p0) / 2)
      with (0.5 * ((- p0 + p2)
            + 2 * (2 * p0 - 5 * p1 + 4 * p2 - p3) * 0
            + 3 * (- p0 + 3 * p1 - 3 * p2 + p3) * (0 * 0))) by lra.
    apply catmullRom_derivative.
  - replace ((p3 - p1) / 2)
      with (0.5 * ((- p0 + p2)
            + 2 * (2 * p0 - 5 * p1 + 4 * p2 - p3) * 1
            + 3 * (- p0 + 3 * p1 - 3 * p2 + p3) * (1 * 1))) by lra.
    apply catmullRom_derivative.
  - intros a d t -> -> -> ->. unfold catmullRom. lra.
Qed.

(** ** Keyframe lookup *)
Lemma wrap_index (index len : Z) :
  (0 < len)%Z ->
  Z.rem (Z.rem index len + len) len = (index mod len)%Z.
Proof.
  intros Hlen.
  pose proof (Z.rem_bound_abs index len ltac:(lia)) as B.
  pose proof (Z.quot_rem' index len) as Q.
  assert (Hr : (- len < Z.rem index len < len)%Z) by lia.
  rewrite Z.rem_mod_nonneg by lia.
  replace (Z.rem index len + len)%Z
    with (index + (1 - index ÷ len) * len)%Z by lia.
  apply Z.mod_add. lia.
Qed.

Lemma getKeyframe_mod (keyframes : list Keyframe) (index : Z) :
  keyframes <> [] ->
  getKeyframe keyframes index
  = keyframes !! Z.to_nat (index mod Z.of_nat (length keyframes)).
Proof.
  intros Hne. unfold getKeyframe.
  assert (Hlen : (0 < Z.of_nat (length keyframes))%Z).
  { destruct keyframes; [congruence|cbn [length]; lia]. }
  rewrite (proj2 (Z.eqb_neq _ _)) by lia.
  rewrite wrap_index by exact Hlen. unfold at_.
  pose proof (Z.mod_pos_bound index _ Hlen).
  rewrite (proj2 (Z.ltb_ge _ _)) by lia. reflexivity.
Qed.

Lemma getKeyframe_defined (keyframes : list Keyframe) (index : Z) :
  keyframes <> [] ->
  exists kf, getKeyframe keyframes index = Some kf /\ kf ∈ keyframes.
Proof.
  intros Hne. rewrite getKeyframe_mod by exact Hne.
  assert (Hlen : (0 < Z.of_nat (length keyframes))%Z).
  { destruct keyframes; [congruence|cbn [length]; lia]. }
  pose proof (Z.mod_pos_bound index _ Hlen).
  destruct (lookup_lt_is_Some_2 keyframes
              (Z.to_nat (index mod Z.of_nat (length keyframes))))
    as [kf Hkf]; [lia|].
  exists kf. split; [exact Hkf|]. eapply list_elem_of_lookup_2, Hkf.
Qed.

(** X23.  With no keyframe [getKeyframe] returns [undefined].  Otherwise
    it returns a keyframe of the list for every integer index, negative
    ones included: it is periodic in the index with the length as period,
    index -1 is the last keyframe, and an index within the list is that
    element. *)
Theorem X23_getKeyframe_wraps (keyframes : list Keyframe) (index : Z) :
  (keyframes = [] -> getKeyframe keyframes index = None)
  /\ (keyframes <> [] ->
      (exists kf, getKeyframe keyframes index = Some kf /\ kf ∈ keyframes)
      /\ getKeyframe keyframes (index + Z.of_nat (length keyframes))
         = getKeyframe keyframes index
      /\ getKeyframe keyframes (-1) = last keyframes
      /\ forall i : nat, (i < length keyframes)%nat ->
           getKeyframe keyframes (Z.of_nat i) = keyframes !! i).
Proof.
  split; [intros ->; reflexivity|]. intros Hne.
  assert (Hlen : (0 < Z.of_nat (length keyframes))%Z).
  { destruct keyframes; [congruence|cbn [length]; lia]. }
  split; [apply getKeyframe_defined, Hne|]. split; [|split].
  - rewrite !getKeyframe_mod by exact Hne.
    rewrite <- (Z.mul_1_l (Z.of_nat (length keyframes))) at 1.
    rewrite Z.mod_add by lia. reflexivity.
  - rewrite getKeyframe_mod by exact Hne.
    rewrite last_lookup. f_equal.
    replace (-1)%Z
      with (Z.of_nat (length keyframes) - 1
            + (-1) * Z.of_nat (length keyframes))%Z by lia.
    rewrite Z.mod_add by lia. rewrite Z.mod_small by lia. lia.
  - intros i Hi. rewrite getKeyframe_mod by exact Hne.
    rewrite Z.mod_small by lia. rewrite Nat2Z.id. reflexivity.
Qed.

(** ** Locating the segment of a time *)
Lemma total_shift (keyframes : list Keyframe) (a : R) :
  foldl (fun sum kf => sum + duration kf) a keyframes
  = a + calculateTotalDuration keyframes.
Proof.
  unfold calculateTotalDuration. revert a.
  induction keyframes as [|kf l IH]; intros a; cbn [foldl]; [lra|].
  rewrite (IH (a + duration kf)), (IH (0 + duration kf)). lra.
Qed.

Lemma total_cons (kf : Keyframe) (keyframes : list Keyframe) :
  calculateTotalDuration (kf :: keyframes)
  = duration kf + calculateTotalDuration keyframes.
Proof.
  unfold calculateTotalDuration at 1. cbn [foldl].
  rewrite total_shift. lra.
Qed.

Lemma total_nonneg (keyframes : list Keyframe) :
  Forall (fun kf => 0 <= duration kf) keyframes ->
  0 <= calculateTotalDuration keyframes.
Proof.
  induction 1 as [|kf l H _ IH]; [unfold calculateTotalDuration; cbn; lra|].
  rewrite total_cons. lra.
Qed.

Lemma scanKeyframes_found (keyframes : list Keyframe) (i : Z)
    (acc globalTime : R) :
  Forall (fun kf => 0 <= duration kf) keyframes ->
  acc <= globalTime < acc + calculateTotalDuration keyframes ->
  exists (n : nat) (kf : Keyframe),
    scanKeyframes keyframes i acc globalTime
    = Some {| index := i + Z.of_nat n;
              localTime := globalTime
                           - (acc + calculateTotalDuration (take n keyframes));
              infoDuration := duration kf |}
    /\ keyframes !! n = Some kf
    /\ 0 <= globalTime - (acc + calculateTotalDuration (take n keyframes))
         < duration kf.
Proof.
  intros Hpos. revert i acc.
  induction Hpos as [|kf l Hkf Hl IH]; intros i acc [Hlo Hhi].
  - unfold calculateTotalDuration in Hhi. cbn in Hhi. lra.
  - rewrite total_cons in Hhi. cbn [scanKeyframes].
    destruct (Rlt_dec globalTime (acc + duration kf)) as [Hlt|Hge].
    + exists 0%nat, kf. cbn [take].
      replace (calculateTotalDuration []) with 0 by reflexivity.
      rewrite Z.add_0_r, Rplus_0_r. split; [reflexivity|].
      split; [reflexivity|]. lra.
    + destruct (IH (i + 1)%Z (acc + duration kf)) as (n & kf' & E & Hn & Hr);
        [lra|].
      exists (S n), kf'. cbn [take]. rewrite total_cons.
      replace (i + Z.of_nat (S n))%Z with (i + 1 + Z.of_nat n)%Z by lia.
      replace (acc + (duration kf + calculateTotalDuration (take n l)))
        with (acc + duration kf + calculateTotalDuration (take n l)) by lra.
      split; [exact E|]. split; [exact Hn|exact Hr].
Qed.

Lemma scanKeyframes_missed (keyframes : list Keyframe) (i : Z)
    (acc globalTime : R) :
  acc + calculateTotalDuration keyframes <= globalTime ->
  Forall (fun kf => 0 <= duration kf) keyframes ->
  scanKeyframes keyframes i acc globalTime = None.
Proof.
  intros Hge Hpos. revert i acc Hge.
  induction Hpos as [|kf l Hkf Hl IH]; intros i acc Hge; [reflexivity|].
  rewrite total_cons in Hge. cbn [scanKeyframes].
  pose proof (total_nonneg l Hl).
  destruct (Rlt_dec globalTime (acc + duration kf)) as [Hlt|_]; [lra|].
  apply IH. lra.
Qed.

(** X24.  For non-negative durations and a time in [0, total),
    [getKeyframeInfo] returns the keyframe within whose span the time
    falls: its index, its duration and a local time with
    0 <= localTime < duration, the time being the sum of the earlier
    durations plus the local time (so a keyframe of duration 0 is never
    returned).  From the total on it returns the last keyframe with the
    local time equal to its duration, and a TypeError when there is no
    keyframe. *)
Theorem X24_getKeyframeInfo_locates_segment (keyframes : list Keyframe)
    (globalTime : R) :
  Forall (fun kf => 0 <= duration kf) keyframes ->
  0 <= globalTime ->
  (globalTime < calculateTotalDuration keyframes ->
   exists (i : nat) (kf : Keyframe) (t : R),
     getKeyframeInfo keyframes globalTime
     = Some {| index := Z.of_nat i; localTime := t;
               infoDuration := duration kf |}
     /\ keyframes !! i = Some kf
     /\ 0 <= t < duration kf
     /\ globalTime = calculateTotalDuration (take i keyframes) + t)
  /\ (calculateTotalDuration keyframes <= globalTime ->
      getKeyframeInfo keyframes globalTime
      = match last keyframes with
        | Some kf =>
            Some {| index := Z.of_nat (length keyframes) - 1;
                    localTime := duration kf;
                    infoDuration := duration kf |}
        | None => None
        end).
Proof.
  intros Hpos H0. split.
  - intros Hlt.
    destruct (scanKeyframes_found keyframes 0 0 globalTime Hpos)
      as (n & kf & E & Hn & Hr); [lra|].
    exists n, kf, (globalTime - (0 + calculateTotalDuration (take n keyframes))).
    unfold getKeyframeInfo. rewrite E. rewrite Z.add_0_l.
    split; [reflexivity|]. split; [exact Hn|]. split; [exact Hr|lra].
  - intros Hge. unfold getKeyframeInfo.
    rewrite scanKeyframes_missed by (try lra; exact Hpos).
    rewrite last_lookup. unfold at_.
    destruct keyframes as [|kf l]; [reflexivity|].
    cbn [length]. rewrite (proj2 (Z.ltb_ge _ _)) by lia.
    replace (Z.to_nat (Z.of_nat (S (length l)) - 1)) with (length l) by lia.
    cbn [Nat.pred].
    destruct ((kf :: l) !! length l); reflexivity.
Qed.

Lemma X24_getKeyframeInfo_locates_segment_witness :
  exists (i : nat) (kf : Keyframe) (t : R),
    getKeyframeInfo cinematicKeyframes 7
    = Some {| index := Z.of_nat i; localTime := t;
              infoDuration := duration kf |}
    /\ cinematicKeyframes !! i = Some kf
    /\ 0 <= t < duration kf
    /\ 7 = calculateTotalDuration (take i cinematicKeyframes) + t.
Proof.
  refine (proj1 (X24_getKeyframeInfo_locates_segment cinematicKeyframes 7
                   _ _) _).
  - unfold cinematicKeyframes. repeat constructor; cbn [duration]; lra.
  - lra.
  - unfold calculateTotalDuration, cinematicKeyframes.
    cbn [foldl duration]. lra.
Defined.

(** ** The animation step *)
Lemma jsRemChk_wraps (a b : R) :
  0 < b -> b <= a ->
  exists (r : R) (k : Z),
    jsRemChk a b = Some r /\ 0 <= r < b /\ a = r + b * IZR k /\ (1 <= k)%Z.
Proof.
  intros Hb Hab. unfold jsRemChk.
  destruct (Req_dec_T b 0) as [E|_]; [lra|].
  assert (Hq : 1 <= a / b).
  { apply (Rmult_le_reg_r b); [exact Hb|].
    replace (a / b * b) with a by (field; lra). lra. }
  unfold trunc. destruct (Rle_dec 0 (a / b)) as [_|N]; [|lra].
  pose proof (Zfloor_bound (a / b)) as [F1 F2].
  exists (a - b * IZR (Zfloor (a / b))), (Zfloor (a / b)).
  split; [reflexivity|].
  assert (A : a = a / b * b) by (field; lra).
  split; [|split; [lra|]].
  - split.
    + apply (Rmult_le_compat_r b) in F1; [|lra]. lra.
    + apply (Rmult_lt_compat_r b) in F2; [|lra]. lra.
  - assert (Hk : (0 < Zfloor (a / b))%Z) by (apply lt_IZR; lra). lia.
Qed.

Lemma interpolateSpline_defined (keyframes : list Keyframe) (index : Z)
    (t : R) :
  keyframes <> [] -> is_Some (interpolateSpline keyframes index t).
Proof.
  intros Hne. unfold interpolateSpline.
  destruct (getKeyframe_defined keyframes (index - 1) Hne) as (p0 & -> & _).
  destruct (getKeyframe_defined keyframes index Hne) as (p1 & -> & _).
  destruct (getKeyframe_defined keyframes (index + 1) Hne) as (p2 & -> & _).
  destruct (getKeyframe_defined keyframes (index + 2) Hne) as (p3 & -> & _).
  cbn [mbind option_bind]. eauto.
Qed.

Lemma update_step (deltaTime : R) (s : State) :
  wellFormed s -> isPlaying s = true -> 0 <= deltaTime ->
  exists (s' : State) (info : KeyframeInfo) (k : Z),
    update deltaTime s = Some s'
    /\ keyframes s' = keyframes s /\ totalDuration s' = totalDuration s
    /\ isPlaying s' = true /\ controlsEnabled s' = controlsEnabled s
    /\ 0 <= currentTime s' < totalDuration s
    /\ currentTime s + deltaTime
       = currentTime s' + totalDuration s * IZR k /\ (0 <= k)%Z
    /\ getKeyframeInfo (keyframes s) (currentTime s') = Some info
    /\ 0 <= localTime info < infoDuration info
    /\ 0 <= localTime info / infoDuration info < 1
    /\ interpolateSpline (keyframes s) (index info)
         (localTime info / infoDuration info)
       = Some (cameraPosition s', controlsTarget s')
    /\ tempPosition s' = cameraPosition s'
    /\ tempTarget s' = controlsTarget s'
    /\ cameraLookAt s' = controlsTarget s'.
Proof.
  intros (Htot & Hpos & Hlen & Hcur) Hplay Hdt. unfold update.
  rewrite Hplay. cbn [negb].
  assert (W : exists (now : R) (k : Z),
            (if Rge_dec (currentTime s + deltaTime) (totalDuration s)
             then jsRemChk (currentTime s + deltaTime) (totalDuration s)
             else Some (currentTime s + deltaTime)) = Some now
            /\ 0 <= now < totalDuration s
            /\ currentTime s + deltaTime = now + totalDuration s * IZR k
            /\ (0 <= k)%Z).
  { destruct (Rge_dec (currentTime s + deltaTime) (totalDuration s)) as [G|G].
    - destruct (jsRemChk_wraps (currentTime s + deltaTime) (totalDuration s))
        as (r & k & E & Hr & Hk & Hk1); [lra|lra|].
      exists r, k. split; [exact E|]. split; [exact Hr|]. split; [exact Hk|lia].
    - exists (currentTime s + deltaTime), 0%Z. split; [reflexivity|].
      split; [lra|]. split; [lra|lia]. }
  destruct W as (now & k & -> & Hnow & Hk & Hk0). cbn [mbind option_bind].
  destruct (scanKeyframes_found (keyframes s) 0 0 now Hpos)
    as (n & kf & E & Hn & Hr); [rewrite <- Htot; lra|].
  unfold getKeyframeInfo at 1. rewrite E. cbn [mbind option_bind].
  cbn [localTime infoDuration index].
  set (lt := now - (0 + calculateTotalDuration (take n (keyframes s)))) in *.
  unfold divChk. destruct (Req_dec_T (duration kf) 0) as [Z0|_]; [lra|].
  cbn [mbind option_bind].
  assert (Hne : keyframes s <> []).
  { intros E0. rewrite E0 in Hn. discriminate. }
  destruct (interpolateSpline_defined (keyframes s) (0 + Z.of_nat n)
              (lt / duration kf) Hne) as [[pos tgt] Hpt].
  rewrite Hpt. cbn [mbind option_bind fst snd].
  eexists. exists {| index := 0 + Z.of_nat n; localTime := lt;
                     infoDuration := duration kf |}, k.
  split; [reflexivity|].
  cbn [keyframes totalDuration isPlaying controlsEnabled currentTime
       cameraPosition controlsTarget tempPosition tempTarget cameraLookAt
       localTime infoDuration index].
  assert (Hq : 0 <= lt / duration kf < 1).
  { split.
    - unfold Rdiv. apply Rmult_le_pos; [lra|].
      apply Rlt_le, Rinv_0_lt_compat. lra.
    - apply (Rmult_lt_reg_r (duration kf)); [lra|].
      replace (lt / duration kf * duration kf) with lt by (field; lra). lra. }
  unfold getKeyframeInfo. rewrite E.
  repeat split; try assumption; try reflexivity; try lra; try lia.
Qed.

(** X25.  On a well-formed state and for a non-negative time step,
    [update] does nothing while the animation is stopped; while it plays,
    it succeeds, advances the clock by the step less a whole number of
    cycles so that it stays in [0, totalDuration), divides by a positive
    segment duration only, interpolates at a parameter in [0, 1), and
    leaves the camera position and the controls' target at the
    interpolated points. *)
Theorem X25_update_keeps_time_in_cycle (deltaTime : R) (s : State) :
  wellFormed s -> 0 <= deltaTime ->
  (isPlaying s = false -> update deltaTime s = Some s)
  /\ (isPlaying s = true ->
      exists (s' : State) (info : KeyframeInfo) (k : Z),
        update deltaTime s = Some s'
        /\ keyframes s' = keyframes s /\ totalDuration s' = totalDuration s
        /\ isPlaying s' = true /\ controlsEnabled s' = controlsEnabled s
        /\ 0 <= currentTime s' < totalDuration s
        /\ currentTime s + deltaTime
           = currentTime s' + totalDuration s * IZR k /\ (0 <= k)%Z
        /\ getKeyframeInfo (keyframes s) (currentTime s') = Some info
        /\ 0 <= localTime info < infoDuration info
        /\ 0 <= localTime info / infoDuration info < 1
        /\ interpolateSpline (keyframes s) (index info)
             (localTime info / infoDuration info)
           = Some (cameraPosition s', controlsTarget s')
        /\ tempPosition s' = cameraPosition s'
        /\ tempTarget s' = controlsTarget s'
        /\ cameraLookAt s' = controlsTarget s').
Proof.
  intros Hwf Hdt. split.
  - intros Hp. unfold update. rewrite Hp. reflexivity.
  - intros Hp. apply update_step; assumption.
Qed.

Lemma cinematic_total : calculateTotalDuration cinematicKeyframes = 28.
Proof.
  unfold calculateTotalDuration, cinematicKeyframes. cbn [foldl duration]. lra.
Qed.

Lemma cinematic_durations :
  Forall (fun kf => 0 <= duration kf) cinematicKeyframes.
Proof. unfold cinematicKeyframes. repeat constructor; cbn [duration]; lra. Qed.

Lemma new_wellFormed (p l t : vec3) (e : bool) : wellFormed (new p l t e).
Proof.
  unfold wellFormed, new. cbn [totalDuration keyframes currentTime].
  rewrite cinematic_total.
  split; [reflexivity|]. split; [apply cinematic_durations|]. lra.
Qed.

Lemma vec3_eta (v : vec3) : Vec3 (x3 v) (y3 v) (z3 v) = v.
Proof. destruct v. reflexivity. Qed.

Lemma catmullRom3_at_0 (p0 p1 p2 p3 : vec3) : catmullRom3 p0 p1 p2 p3 0 = p1.
Proof. unfold catmullRom3. rewrite !catmullRom_at_0. apply vec3_eta. Qed.

Lemma catmullRom3_at_1 (p0 p1 p2 p3 : vec3) : catmullRom3 p0 p1 p2 p3 1 = p2.
Proof. unfold catmullRom3. rewrite !catmullRom_at_1. apply vec3_eta. Qed.

(** X26.  With no keyframe [interpolateSpline] throws.  Otherwise the
    spline of segment [index] is at the position and target of keyframe
    [index] for t = 0 and at those of keyframe [index + 1] (wrapping) for
    t = 1, where the next segment starts: the path is continuous across
    keyframes. *)
Theorem X26_spline_passes_through_keyframes (keyframes : list Keyframe)
    (index : Z) :
  (keyframes = [] -> forall t, interpolateSpline keyframes index t = None)
  /\ (keyframes <> [] ->
      exists p1 p2 : Keyframe,
        getKeyframe keyframes index = Some p1
        /\ getKeyframe keyframes (index + 1) = Some p2
        /\ interpolateSpline keyframes index 0
           = Some (position p1, target p1)
        /\ interpolateSpline keyframes index 1
           = Some (position p2, target p2)
        /\ interpolateSpline keyframes (index + 1) 0
           = interpolateSpline keyframes index 1).
Proof.
  split; [intros -> t; reflexivity|]. intros Hne.
  assert (K : forall i, exists p1 p2,
            getKeyframe keyframes i = Some p1
            /\ getKeyframe keyframes (i + 1) = Some p2
            /\ interpolateSpline keyframes i 0 = Some (position p1, target p1)
            /\ interpolateSpline keyframes i 1
               = Some (position p2, target p2)).
  { intros i. unfold interpolateSpline.
    destruct (getKeyframe_defined keyframes (i - 1) Hne) as (p0 & -> & _).
    destruct (getKeyframe_defined keyframes i Hne) as (p1 & -> & _).
    destruct (getKeyframe_defined keyframes (i + 1) Hne) as (p2 & -> & _).
    destruct (getKeyframe_defined keyframes (i + 2) Hne) as (p3 & -> & _).
    cbn [mbind option_bind]. exists p1, p2.
    rewrite !catmullRom3_at_0, !catmullRom3_at_1. auto. }
  destruct (K index) as (p1 & p2 & H1 & H2 & H3 & H4).
  destruct (K (index + 1)%Z) as (q1 & q2 & G1 & _ & G3 & _).
  exists p1, p2. repeat split; try assumption.
  rewrite G3, H4. congruence.
Qed.

Lemma start_invariant (s : State) : classInvariant s -> classInvariant (start s).
Proof.
  intros [(Htot & Hpos & Hlen & Hcur) Hc]. unfold start.
  destruct (isPlaying s) eqn:E.
  - unfold classInvariant, wellFormed. rewrite E. auto.
  - unfold classInvariant, wellFormed.
    cbn [totalDuration keyframes currentTime controlsEnabled isPlaying negb].
    repeat split; try assumption; lra.
Qed.

Lemma stop_invariant (s : State) : classInvariant s -> classInvariant (stop s).
Proof.
  intros [(Htot & Hpos & Hlen & Hcur) Hc]. unfold stop.
  destruct (isPlaying s) eqn:E; cbn [negb].
  - unfold classInvariant, wellFormed.
    cbn [totalDuration keyframes currentTime controlsEnabled isPlaying negb].
    repeat split; try assumption; lra.
  - unfold classInvariant, wellFormed. rewrite E. auto.
Qed.

Lemma X25_update_keeps_time_in_cycle_witness :
  let s := start (new (Vec3 0 5 20) (Vec3 0 0 0) (Vec3 0 0 0) true) in
  exists (s' : State) (info : KeyframeInfo) (k : Z),
    update 30 s = Some s'
    /\ keyframes s' = keyframes s /\ totalDuration s' = totalDuration s
    /\ isPlaying s' = true /\ controlsEnabled s' = controlsEnabled s
    /\ 0 <= currentTime s' < totalDuration s
    /\ currentTime s + 30
       = currentTime s' + totalDuration s * IZR k /\ (0 <= k)%Z
    /\ getKeyframeInfo (keyframes s) (currentTime s') = Some info
    /\ 0 <= localTime info < infoDuration info
    /\ 0 <= localTime info / infoDuration info < 1
    /\ interpolateSpline (keyframes s) (index info)
         (localTime info / infoDuration info)
       = Some (cameraPosition s', controlsTarget s')
    /\ tempPosition s' = cameraPosition s'
    /\ tempTarget s' = controlsTarget s'
    /\ cameraLookAt s' = controlsTarget s'.
Proof.
  intros s.
  refine (proj2 (X25_update_keeps_time_in_cycle 30 s _ _) _).
  - refine (proj1 (start_invariant _ _)).
    split; [apply new_wellFormed|reflexivity].
  - lra.
  - reflexivity.
Defined.

(** X27.  The class invariant (cached total = sum of the non-negative
    durations, positive; clock in [0, total); orbit controls enabled
    exactly when the animation is not playing) holds after the
    constructor with enabled controls and is kept by [start], [stop],
    [toggle] and by [update] for every non-negative step, which never
    fails from such a state; [toggle] returns the negated playing state,
    two toggles restore it, and the progress stays in [0, 1). *)
Theorem X27_class_invariant :
  (forall p l t, classInvariant (new p l t true))
  /\ forall s, classInvariant s ->
       classInvariant (start s)
       /\ classInvariant (stop s)
       /\ classInvariant (toggle s).1
       /\ (toggle s).2 = negb (isPlaying s)
       /\ isPlaying (toggle (toggle s).1).1 = isPlaying s
       /\ forall deltaTime, 0 <= deltaTime ->
            exists s', update deltaTime s = Some s' /\ classInvariant s'
                       /\ 0 <= getProgress s' < 1.
Proof.
  split.
  { intros p l t. split; [apply new_wellFormed|reflexivity]. }
  intros s Hinv.
  split; [apply start_invariant, Hinv|].
  split; [apply stop_invariant, Hinv|].
  split; [|split; [|split]].
  - unfold toggle. cbn [fst].
    destruct (isPlaying s); [apply stop_invariant|apply start_invariant];
      exact Hinv.
  - unfold toggle, start, stop. cbn [snd].
    destruct (isPlaying s) eqn:E; cbn [negb]; rewrite ?E; reflexivity.
  - unfold toggle, start, stop. cbn [fst].
    destruct (isPlaying s) eqn:E; cbn [negb isPlaying]; rewrite ?E;
      cbn [negb isPlaying]; reflexivity.
  - intros dt Hdt. destruct Hinv as [Hwf Hc].
    assert (P : forall s', wellFormed s' -> 0 <= getProgress s' < 1).
    { intros s' (_ & _ & Hlen & Hcur). unfold getProgress. split.
      - unfold Rdiv. apply Rmult_le_pos; [lra|].
        apply Rlt_le, Rinv_0_lt_compat. lra.
      - apply (Rmult_lt_reg_r (totalDuration s')); [lra|].
        replace (currentTime s' / totalDuration s' * totalDuration s')
          with (currentTime s') by (field; lra). lra. }
    destruct (isPlaying s) eqn:E.
    + destruct (update_step dt s Hwf E Hdt)
        as (s' & info & k & Hu & Hk & Ht & Hp & He & Hcur & _).
      exists s'. split; [exact Hu|].
      assert (Hwf' : wellFormed s').
      { destruct Hwf as (Htot & Hpos & Hlen & _).
        unfold wellFormed. rewrite Hk, Ht. auto. }
      split; [|apply P, Hwf'].
      split; [exact Hwf'|]. rewrite He, Hp, Hc. reflexivity.
    + exists s. split; [unfold update; rewrite E; reflexivity|].
      split; [split; [exact Hwf|rewrite E; exact Hc]|apply P, Hwf].
Qed.

End CameraAnimationProperties.

(* ================================================================== *)
(** * Saved configuration *)
(* ================================================================== *)

Lemma bytes_ok : forallb byteOk (map Z.of_nat (seq 0 256)) = true.
Proof. vm_compute. reflexivity. Qed.

Lemma byte_ok (z : Z) : (0 <= z <= 255)%Z -> byteOk z = true.
Proof.
  intros Hz. pose proof bytes_ok as H. rewrite forallb_forall in H.
  apply H. apply in_map_iff. exists (Z.to_nat z). split; [lia|].
  apply in_seq. lia.
Qed.

Lemma append_cons (c : Ascii.ascii) (a b : string) :
  String c a +:+ b = String c (a +:+ b).
Proof. reflexivity. Qed.

Lemma append_length (a b : string) :
  String.length (a +:+ b) = (String.length a + String.length b)%nat.
Proof.
  induction a as [|c a IH]; [reflexivity|].
  rewrite append_cons. cbn [String.length]. rewrite IH. reflexivity.
Qed.

Lemma append_inj (a a' b b' : string) :
  String.length a = String.length a' ->
  a +:+ b = a' +:+ b' -> a = a' /\ b = b'.
Proof.
  revert a'. induction a as [|c a IH]; intros [|c' a'] Hl H;
    try discriminate.
  - split; [reflexivity|exact H].
  - rewrite !append_cons in H. injection H as -> H.
    cbn [String.length] in Hl. injection Hl as Hl.
    destruct (IH a' Hl H) as [-> ->]. split; reflexivity.
Qed.

Lemma list_ascii_append (a b : string) :
  String.list_ascii_of_string (a +:+ b)
  = (String.list_ascii_of_string a ++ String.list_ascii_of_string b)%list.
Proof.
  induction a as [|c a IH]; [reflexivity|].
  rewrite append_cons. cbn [String.list_ascii_of_string]. rewrite IH.
  reflexivity.
Qed.

Section Colours.

Variable stringToNumber : Json -> option R.

Lemma Zfloor_byte (x : R) :
  -0.5 <= x < 255.5 -> (0 <= Zfloor (x + 0.5) <= 255)%Z.
Proof.
  intros Hx. pose proof (Zfloor_bound (x + 0.5)) as [F1 F2].
  split.
  - assert (H : (-1 < Zfloor (x + 0.5))%Z) by (apply lt_IZR; lra). lia.
  - assert (H : (Zfloor (x + 0.5) < 256)%Z) by (apply lt_IZR; lra). lia.
Qed.

Lemma channel_byte (o : gmap string Json) (key : string) :
  byteComponent (o !! key) ->
  channel stringToNumber (JObj o) key
  = padStart2 (toString16 (Some (roundedComponent (o !! key))))
  /\ (0 <= roundedComponent (o !! key) <= 255)%Z.
Proof.
  unfold channel, field, byteComponent, roundedComponent.
  destruct (o !! key) as [[| | x | | |]|]; try contradiction; intros H.
  - unfold Math_round, toNumber. cbn [mbind option_bind].
    replace (Zfloor (0 + 0.5)) with 0%Z; [split; [reflexivity|lia]|].
    symmetry. apply Zfloor_eq. lra.
  - split; [reflexivity|apply Zfloor_byte, H].
  - unfold Math_round, toNumber. cbn [mbind option_bind].
    replace (Zfloor (0 + 0.5)) with 0%Z; [split; [reflexivity|lia]|].
    symmetry. apply Zfloor_eq. lra.
Qed.

Lemma hex2_spec (z : Z) :
  (0 <= z <= 255)%Z ->
  let s := padStart2 (toString16 (Some z)) in
  String.length s = 2%nat
  /\ forallb isHexDigit (String.list_ascii_of_string s) = true
  /\ readHex2 s = z.
Proof.
  intros Hz s. pose proof (byte_ok z Hz) as H. unfold byteOk in H.
  fold s in H. apply andb_prop in H as [H H3]. apply andb_prop in H as [H1 H2].
  split; [apply Nat.eqb_eq, H1|]. split; [exact H2|]. apply Z.eqb_eq, H3.
Qed.

(** X28.  For a colour object whose components are absent, [null] or
    numbers in [-0.5, 255.5), [normalizeColorToHex] returns "#" followed
    by six lower-case hexadecimal digits, and two such objects give the
    same text exactly when their rounded components agree.  A string is
    returned unchanged; every value that is neither a string nor an
    object ([null], numbers, booleans, arrays) gives "#000000". *)
Theorem X28_normalizeColorToHex (o o' : gmap string Json) :
  byteComponent (o !! "r") -> byteComponent (o !! "g") ->
  byteComponent (o !! "b") ->
  byteComponent (o' !! "r") -> byteComponent (o' !! "g") ->
  byteComponent (o' !! "b") ->
  (exists digits : string,
     normalizeColorToHex stringToNumber (JObj o) = "#" +:+ digits
     /\ String.length digits = 6%nat
     /\ forallb isHexDigit (String.list_ascii_of_string digits) = true)
  /\ (normalizeColorToHex stringToNumber (JObj o)
      = normalizeColorToHex stringToNumber (JObj o')
      <-> roundedComponent (o !! "r") = roundedComponent (o' !! "r")
          /\ roundedComponent (o !! "g") = roundedComponent (o' !! "g")
          /\ roundedComponent (o !! "b") = roundedComponent (o' !! "b"))
  /\ (forall s, normalizeColorToHex stringToNumber (JStr s) = s)
  /\ (forall v, (forall s, v <> JStr s) -> (forall p, v <> JObj p) ->
        normalizeColorToHex stringToNumber v = "#000000").
Proof.
  intros Hr Hg Hb Hr' Hg' Hb'.
  destruct (channel_byte o "r" Hr) as [Er Rr].
  destruct (channel_byte o "g" Hg) as [Eg Rg].
  destruct (channel_byte o "b" Hb) as [Eb Rb].
  destruct (channel_byte o' "r" Hr') as [Er' Rr'].
  destruct (channel_byte o' "g" Hg') as [Eg' Rg'].
  destruct (channel_byte o' "b" Hb') as [Eb' Rb'].
  destruct (hex2_spec _ Rr) as (Lr & Dr & Vr).
  destruct (hex2_spec _ Rg) as (Lg & Dg & Vg).
  destruct (hex2_spec _ Rb) as (Lb & Db & Vb).
  destruct (hex2_spec _ Rr') as (Lr' & Dr' & Vr').
  destruct (hex2_spec _ Rg') as (Lg' & Dg' & Vg').
  destruct (hex2_spec _ Rb') as (Lb' & Db' & Vb').
  cbn zeta in *.
  unfold normalizeColorToHex. rewrite Er, Eg, Eb, Er', Eg', Eb'.
  split; [|split; [|split]].
  - eexists. split; [reflexivity|]. split.
    + rewrite !append_length, Lr, Lg, Lb. reflexivity.
    + rewrite !list_ascii_append, !forallb_app, Dr, Dg, Db. reflexivity.
  - split.
    + intros H. apply append_inj in H as [_ H]; [|reflexivity].
      apply append_inj in H as [H1 H]; [|congruence].
      apply append_inj in H as [H2 H3]; [|congruence].
      rewrite <- Vr, <- Vg, <- Vb, <- Vr', <- Vg', <- Vb'.
      rewrite H1, H2, H3. auto.
    + intros (-> & -> & ->). reflexivity.
  - reflexivity.
  - intros v Hs Ho. destruct v as [| | | s | l | p];
      try reflexivity; [destruct (Hs s eq_refl)| |destruct (Ho p eq_refl)].
    unfold channel, field, Math_round, toNumber. cbn [mbind option_bind].
    replace (Zfloor (0 + 0.5)) with 0%Z; [reflexivity|].
    symmetry. apply Zfloor_eq. lra.
Qed.

End Colours.

Lemma X28_normalizeColorToHex_witness :
  exists digits : string,
    normalizeColorToHex (fun _ => None) (JObj tweakpaneColour)
    = "#" +:+ digits
    /\ String.length digits = 6%nat
    /\ forallb isHexDigit (String.list_ascii_of_string digits) = true.
Proof.
  assert (Er : tweakpaneColour !! "r" = Some (JNum 255)) by reflexivity.
  assert (Eg : tweakpaneColour !! "g" = Some (JNum 127.5)) by reflexivity.
  assert (Eb : tweakpaneColour !! "b" = Some (JNum 0)) by reflexivity.
  refine (proj1 (X28_normalizeColorToHex (fun _ => None)
                   tweakpaneColour tweakpaneColour _ _ _ _ _ _));
    unfold byteComponent; rewrite ?Er, ?Eg, ?Eb; lra.
Defined.

Section StorageProperties.

Variable stringToNumber : Json -> option R.

Variable JSON_parse : string -> Parsed.

Variable JSON_stringify : Config -> string.

Lemma normalizeColors_lookup (o : Config) (k : string) :
  normalizeColors stringToNumber o !! k
  = if decide (k ∈ COLOR_PROPERTIES)
    then (fun v => JStr (normalizeColorToHex stringToNumber v)) <$> o !! k
    else o !! k.
Proof.
  unfold normalizeColors, COLOR_PROPERTIES. cbn [foldl].
  set (f := fun v => JStr (normalizeColorToHex stringToNumber v)).
  assert (S1 : forall (m : Config) key,
            (match m !! key with
             | Some v => <[key := f v]> m
             | None => m
             end) !! k
            = if decide (k = key) then f <$> m !! k else m !! k).
  { intros m key. destruct (decide (k = key)) as [->|Hne].
    - destruct (m !! key) as [v|] eqn:E.
      + rewrite lookup_insert_eq. reflexivity.
      + rewrite E. reflexivity.
    - destruct (m !! key); [|reflexivity].
      apply lookup_insert_ne. congruence. }
  rewrite !S1.
  destruct (decide (k = "nebula2Color")) as [->|N3].
  { rewrite (decide_True (P := _ ∈ _)) by in_literal.
    rewrite (decide_False (P := _ = "nebula1Color")) by discriminate.
    rewrite (decide_False (P := _ = "starBackgroundColor")) by discriminate.
    reflexivity. }
  destruct (decide (k = "nebula1Color")) as [->|N2].
  { rewrite (decide_True (P := _ ∈ _)) by in_literal.
    rewrite (decide_False (P := _ = "starBackgroundColor")) by discriminate.
    reflexivity. }
  destruct (decide (k = "starBackgroundColor")) as [->|N1].
  { rewrite (decide_True (P := _ ∈ _)) by in_literal. reflexivity. }
  rewrite (decide_False (P := _ ∈ _)); [reflexivity|].
  intros H. repeat (apply elem_of_cons in H as [H|H]; [congruence|]).
  inversion H.
Qed.

Lemma normalizeColors_dom (o : Config) :
  dom (normalizeColors stringToNumber o) = dom o.
Proof.
  apply set_eq. intros k. rewrite !elem_of_dom, normalizeColors_lookup.
  destruct (decide (k ∈ COLOR_PROPERTIES)); [|reflexivity].
  rewrite fmap_is_Some. reflexivity.
Qed.

Lemma normalizeColors_idemp (o : Config) :
  normalizeColors stringToNumber (normalizeColors stringToNumber o)
  = normalizeColors stringToNumber o.
Proof.
  apply map_eq. intros k. rewrite !normalizeColors_lookup.
  destruct (decide (k ∈ COLOR_PROPERTIES)); [|reflexivity].
  destruct (o !! k); reflexivity.
Qed.

(** X29.  The configuration that [loadConfig] returns has every key of
    the defaults, and a colour property is a string in it whenever it is
    one in the defaults.  With no stored item, an empty one, or one that
    does not parse to a value with properties, the result is the
    defaults.  Otherwise each stored property wins over the default, a
    stored colour property being normalised to a string. *)
Theorem X29_loadConfig_merges_over_defaults (defaults : Config)
    (storage : option string) :
  let config := loadConfig stringToNumber JSON_parse defaults storage in
  dom defaults ⊆ dom config
  /\ (forall k, k ∈ COLOR_PROPERTIES ->
        (exists s, defaults !! k = Some (JStr s)) ->
        exists s, config !! k = Some (JStr s))
  /\ (storage = None \/ storage = Some ""
      \/ (exists saved, storage = Some saved
            /\ (JSON_parse saved = SyntaxError \/ JSON_parse saved = PNull
                \/ JSON_parse saved = PPrimitive)) ->
      config = defaults)
  /\ (forall saved parsed, storage = Some saved -> saved <> "" ->
        JSON_parse saved = PProps parsed ->
        forall k,
          config !! k
          = match parsed !! k with
            | Some v =>
                if decide (k ∈ COLOR_PROPERTIES)
                then Some (JStr (normalizeColorToHex stringToNumber v))
                else Some v
            | None => defaults !! k
            end).
Proof.
  intros config.
  assert (Hcases : config = defaults
            \/ exists saved parsed, storage = Some saved /\ saved <> ""
                 /\ JSON_parse saved = PProps parsed
                 /\ config = normalizeColors stringToNumber parsed ∪ defaults).
  { unfold config, loadConfig. destruct storage as [saved|]; [|left; reflexivity].
    destruct (String.eqb saved "") eqn:E; [left; reflexivity|].
    apply String.eqb_neq in E.
    destruct (JSON_parse saved) as [| | |parsed] eqn:P;
      [left; reflexivity..|].
    right. exists saved, parsed. auto. }
  assert (L : forall parsed k,
            (normalizeColors stringToNumber parsed ∪ defaults) !! k
            = match parsed !! k with
              | Some v =>
                  if decide (k ∈ COLOR_PROPERTIES)
                  then Some (JStr (normalizeColorToHex stringToNumber v))
                  else Some v
              | None => defaults !! k
              end).
  { intros parsed k. rewrite lookup_union, normalizeColors_lookup.
    destruct (parsed !! k) as [v|];
      destruct (decide (k ∈ COLOR_PROPERTIES)); cbn;
      try reflexivity; destruct (defaults !! k); reflexivity. }
  split; [|split; [|split]].
  - destruct Hcases as [->|(saved & parsed & _ & _ & _ & ->)]; [reflexivity|].
    rewrite dom_union. set_solver.
  - intros k Hk [s Hs].
    destruct Hcases as [->|(saved & parsed & _ & _ & _ & ->)]; [eauto|].
    rewrite L. destruct (parsed !! k) as [v|]; [|eauto].
    rewrite decide_True by exact Hk. eauto.
  - intros H. unfold config, loadConfig.
    destruct H as [->|[->|(saved & -> & H)]]; [reflexivity..|].
    destruct (String.eqb saved ""); [reflexivity|].
    destruct H as [->|[->| ->]]; reflexivity.
  - intros saved parsed -> Hne P k. unfold config, loadConfig.
    rewrite (proj2 (String.eqb_neq _ _) Hne), P. apply L.
Qed.

(** X30.  When the text written by [saveConfig] parses back to the object
    it was made from, [loadConfig] after [saveConfig] returns the saved
    configuration with its colours normalised, completed by the defaults
    (and exactly the normalised configuration when it has every default
    key).  Saving the normalised configuration writes the same text, a
    save whose [setItem] fails leaves what is loaded unchanged, and after
    [clearConfig] the defaults are loaded. *)
Theorem X30_save_then_load (config defaults : Config)
    (storage : option string) :
  JSON_stringify (normalizeColors stringToNumber config) <> "" ->
  JSON_parse (JSON_stringify (normalizeColors stringToNumber config))
  = PProps (normalizeColors stringToNumber config) ->
  let load := loadConfig stringToNumber JSON_parse defaults in
  let save c ok := saveConfig stringToNumber JSON_stringify c ok in
  load (save config true storage)
  = normalizeColors stringToNumber config ∪ defaults
  /\ (dom defaults ⊆ dom config ->
      load (save config true storage)
      = normalizeColors stringToNumber config)
  /\ save (normalizeColors stringToNumber config) true storage
     = save config true storage
  /\ load (save config false storage) = load storage
  /\ load (clearConfig true (save config true storage)) = defaults.
Proof.
  intros Hne Hrt load save.
  assert (E : load (save config true storage)
              = normalizeColors stringToNumber config ∪ defaults).
  { unfold load, save, saveConfig, loadConfig.
    rewrite (proj2 (String.eqb_neq _ _) Hne), Hrt.
    rewrite normalizeColors_idemp. reflexivity. }
  split; [exact E|]. split; [|split; [|split]].
  - intros Hd. rewrite E. apply map_eq. intros k. rewrite lookup_union.
    destruct (normalizeColors stringToNumber config !! k) as [v|] eqn:Hk.
    + destruct (defaults !! k); reflexivity.
    + apply not_elem_of_dom in Hk. rewrite normalizeColors_dom in Hk.
      assert (Hk' : k ∉ dom defaults) by set_solver.
      apply not_elem_of_dom in Hk'. rewrite Hk'. reflexivity.
  - unfold save, saveConfig. rewrite normalizeColors_idemp. reflexivity.
  - reflexivity.
  - reflexivity.
Qed.

End StorageProperties.

Lemma X30_save_then_load_witness :
  let stringToNumber := fun _ : Json => @None R in
  let JSON_stringify := fun _ : Config => "{...}" in
  let JSON_parse :=
    fun _ : string => PProps (normalizeColors stringToNumber defaultConfig) in
  loadConfig stringToNumber JSON_parse defaultConfig
    (saveConfig stringToNumber JSON_stringify defaultConfig true None)
  = normalizeColors stringToNumber defaultConfig ∪ defaultConfig.
Proof.
  intros stringToNumber JSON_stringify JSON_parse.
  refine (proj1 (X30_save_then_load stringToNumber JSON_parse JSON_stringify
                   defaultConfig defaultConfig None _ _)).
  - discriminate.
  - reflexivity.
Defined.
